(** * TryCP client, conductor handle and orchestration helpers of Tryorama

    A shallow embedding of
      - [ts/src/trycp/trycp-client.ts]  (class [TryCpClient]),
      - the TryCP conductor             (class [TryCpConductor]),
      - the common helpers              ([addAllAgentsToAllConductors],
                                         [enableAndGetAgentApp],
                                         [getCallableCell],
                                         [getZomeCaller]),
    together with the properties of the remote conductor control protocol
    that the specification states about them.

    Conventions of the embedding.
      - A JavaScript object used as a dictionary is a [gmap]; the keys of
        [requestPromises] and [signalHandlers] are numbers, whose property
        names are their decimal spellings, so the maps are keyed by [Z].
      - The module-level variable [requestId] is threaded explicitly next to
        the client object it is used with.
      - A [Promise] created by [call] is a slot of the client's promise store;
        invoking its [resolve] or [reject] changes the slot only while it is
        pending.
      - Every method of the client returns, next to the new state, the list
        of what it did ([Effect]): frames sent, promises settled, entries
        deleted, handlers called, lines logged. A [World] collects these
        lists in its [trace].
      - [util.ts] (the msgpack codecs) is an external collaborator: a [Buffer]
        is represented by what its decoder yields for it, a value or a thrown
        exception ([Decoded]).
      - An [async] function is a [Task]: a tree whose nodes are the requests
        it awaits. The event loop that runs tasks against incoming frames is
        [exec] (one task) and [execAll] ([Promise.all] over several); an
        [async] function that ends by writing to a client object is an
        [Ending], run by [execEnding].
      - A synchronous method that may throw ([on], [off]) returns the new
        world or the exception. *)

From Stdlib Require Import ZArith String List Permutation Lia.
From stdpp Require Import base option list functions gmap strings pretty.

Local Open Scope string_scope.
Local Open Scope list_scope.
Local Open Scope Z_scope.

(** ** JavaScript values used by the client *)

(** [requestId++] on a JavaScript number. Integers are exact up to [2^53];
    there [n + 1] is not representable and rounds back to [n]. *)
Definition MAX_EXACT_INTEGER : Z := 2 ^ 53.

Definition js_incr (n : Z) : Z :=
  if n <? MAX_EXACT_INTEGER then n + 1 else n.

(** Exceptions of the three classes the code can raise. *)
Inductive JsError : Type :=
| Error (message : string)
| TypeError (message : string)
| AssertionError (message : string).

(** A thrown value: an [Error] object, or anything else (of which the handler
    only uses [JSON.stringify(error, null, 4)]). *)
Inductive Thrown : Type :=
| ThrownError (e : JsError)
| ThrownOther (json : string).

(** Result of running an external decoder on a buffer. *)
Inductive Decoded (A : Type) : Type :=
| Returns (a : A)
| Throws (t : Thrown).
Arguments Returns {A} a.
Arguments Throws {A} t.

Abbreviation Uint8Array := (list Byte.byte) (only parsing).

(** The line feed of the template strings. *)
Definition LF : string := String (Ascii.ascii_of_nat 10) EmptyString.

(** ** Holochain client types (only the fields the code reads) *)

Abbreviation AgentPubKey := (Uint8Array) (only parsing).
Abbreviation DnaHash := (Uint8Array) (only parsing).
Abbreviation CellId := ((DnaHash * AgentPubKey)%type) (only parsing).
Abbreviation RoleName := (string) (only parsing).

(** [ProvisionedCell] and [ClonedCell]: the latter has a [clone_id]. *)
Record ProvisionedCell : Type := {
  prov_cell_id : CellId;
  prov_name : string
}.

Record ClonedCell : Type := {
  clone_cell_id : CellId;
  clone_id : string;
  clone_name : string
}.

(** [CellInfo] is an object with exactly one of the keys of [CellType]. *)
Inductive CellInfo : Type :=
| Provisioned (c : ProvisionedCell)
| Cloned (c : ClonedCell)
| Stem (name : string).

(** [AppInfo.cell_info] is a record from role names to arrays of cells; the
    association list is in the order [Object.keys] enumerates it. *)
Record AppInfo : Type := {
  installed_app_id : string;
  cell_info : list (RoleName * list CellInfo)
}.

Record EnableAppResponse : Type := {
  enabled_app : AppInfo;
  errors : list (CellId * string)
}.

Abbreviation AgentInfoSigned := (Uint8Array) (only parsing).

Record AppSignal : Type := {
  signal_cell_id : CellId;
  signal_zome_name : string;
  signal_payload : Uint8Array
}.

(** ** Messages of the TryCP protocol ([types.ts]) *)

Record CallZomeRequest : Type := {
  cap_secret : option Uint8Array;
  cell_id : CellId;
  zome_name : string;
  fn_name : string;
  provenance : AgentPubKey;
  payload : option Uint8Array
}.

Record CallZomeRequestSigned : Type := {
  signed_request : CallZomeRequest;
  signature : Uint8Array
}.

Record InstallAppRequest : Type := {
  bundle_source : string + string;   (* [bundle] or [path] *)
  agent_key : AgentPubKey;
  membrane_proofs : list (string * Uint8Array);
  install_installed_app_id : string;
  network_seed : option string
}.

(** Messages to the Admin API sent through [callAdminApi]. *)
Inductive RequestAdminInterfaceMessage : Type :=
| generate_agent_pub_key
| install_app (data : InstallAppRequest)
| enable_app (installed_app_id : string)
| attach_app_interface (port : Z)
| agent_info (cell_id : option CellId)
| add_agent_info (agent_infos : list AgentInfoSigned).

(** Messages to the App API sent through [callAppApi]. *)
Inductive RequestCallAppInterfaceMessage : Type :=
| app_info (installed_app_id : string)
| call_zome (data : CallZomeRequestSigned).

Inductive TryCpRequest : Type :=
| configure_player (id : string) (partial_config : string)
| startup (id : string) (log_level : option string)
| shutdown (id : string)
| connect_app_interface (port : Z)
| disconnect_app_interface (port : Z)
| call_app_interface (port : Z) (message : RequestCallAppInterfaceMessage)
| call_admin_interface (id : string) (message : RequestAdminInterfaceMessage).

(** [_TryCpCall]: the envelope of a request. *)
Record TryCpCall : Type := {
  call_id : Z;
  call_request : TryCpRequest
}.

(** [_TryCpApiResponse]: the union of the Admin and App API responses,
    discriminated by [type]. A dedicated constructor stands for each type
    whose [data] the code reads; [bytes_response] is any response whose
    [data] is a [Uint8Array] (["agent_pub_key_generated"], zome call
    results, ...); [error_response] is the type ["error"], with
    [JSON.stringify(data, null, 4)]; [other_response] is any other type. *)
Inductive TryCpApiResponse : Type :=
| bytes_response (type : string) (data : Uint8Array)
| app_installed (data : AppInfo)
| app_enabled (data : EnableAppResponse)
| app_interface_attached (port : Z)
| agent_info_returned (data : list AgentInfoSigned)
| agent_info_added
| error_response (data_json : string)
| other_response (type : string).

(** [TryCpSuccessResponse = null | string | _TryCpApiResponse]. *)
Inductive TryCpSuccessResponse : Type :=
| TRYCP_SUCCESS_RESPONSE
| response_string (s : string)
| response_api (r : TryCpApiResponse).

(** [_TryCpSuccessResponseSeralized = null | string | Uint8Array]; the byte
    array is represented by the result of [deserializeApiResponse] on it. *)
Inductive TryCpSuccessResponseSeralized : Type :=
| serialized_null
| serialized_string (s : string)
| serialized_bytes (decoded : Decoded TryCpApiResponse).

(** [TryCpResponseErrorValue = string | Error]. *)
Inductive TryCpResponseErrorValue : Type :=
| error_string (s : string)
| error_object (e : JsError).

(** [_TryCpResponse]: an object that is tested for the properties ["0"] and
    ["1"], in that order. *)
Record TryCpResponse : Type := {
  prop0 : option TryCpSuccessResponseSeralized;
  prop1 : option TryCpResponseErrorValue
}.

(** What [deserializeTryCpResponse] returns: a wrapper whose [type] is
    ["signal"], ["response"], or something else. The [data] of a signal is
    represented by the result of [deserializeTryCpSignal] on it. *)
Inductive ResponseWrapper : Type :=
| signal_wrapper (port : Z) (data : Decoded AppSignal)
| response_wrapper (id : Z) (response : TryCpResponse)
| other_wrapper.

(** A frame as the ["message"] listener sees it: the result of
    [deserializeTryCpResponse] on the received buffer. *)
Abbreviation Frame := (Decoded ResponseWrapper) (only parsing).

(** ** State of a [TryCpClient] *)

Abbreviation PromiseId := (nat) (only parsing).

Inductive Settlement : Type :=
| Resolve (v : TryCpSuccessResponse)
| Reject (r : TryCpResponseErrorValue).

Inductive PromiseState : Type :=
| Pending
| Settled (s : Settlement).

(** An [AppSignalCb]: an identity, and the exception it raises on a signal,
    if any. *)
Record AppSignalCb : Type := {
  cb_id : nat;
  cb_throws : AppSignal -> option Thrown
}.

Inductive LogLine : Type :=
| debug_request
| debug_signal (port : Z)
| info_no_signal_handler
| error_unknown_response_type
| console_error (t : Thrown)
| verbose_closed (code : Z)
| error_ws (message : string).

(** Observable actions of the client, in the order they happen. *)
Inductive Effect : Type :=
| WsSend (c : TryCpCall)
| WsClose (code : Z)
| Settle (p : PromiseId) (s : Settlement)
| DeleteRequestPromise (id : Z)
| SignalHandled (cb : nat) (s : AppSignal)
| CloseResolved (code : Z)
| Log (l : LogLine).

Record TryCpClient : Type := {
  requestPromises : gmap Z PromiseId;
  signalHandlers : gmap Z (option AppSignalCb);
  promises : list PromiseState;
  closeListeners : nat
}.

(** The constructor: both dictionaries start empty. *)
Definition new_TryCpClient : TryCpClient :=
  {| requestPromises := ∅; signalHandlers := ∅; promises := [];
     closeListeners := 0 |}.

(** [this.signalHandlers[port] = signalHandler], where the handler may be
    [undefined]. *)
Definition setSignalHandler (this : TryCpClient) (port : Z)
    (signalHandler : option AppSignalCb) : TryCpClient :=
  {| requestPromises := requestPromises this;
     signalHandlers := <[port := signalHandler]> (signalHandlers this);
     promises := promises this;
     closeListeners := closeListeners this |}.

(** State of the promise [p]; a promise the client never created is
    pending. *)
Definition promiseState (this : TryCpClient) (p : PromiseId) : PromiseState :=
  default Pending (promises this !! p).

(** Invoking [responseResolve] or [responseReject] of the promise [p]: the
    promise changes only if it is pending. *)
Definition settle (p : PromiseId) (s : Settlement) (this : TryCpClient)
    : TryCpClient :=
  {| requestPromises := requestPromises this;
     signalHandlers := signalHandlers this;
     promises := match promises this !! p with
                 | Some Pending => <[p := Settled s]> (promises this)
                 | _ => promises this
                 end;
     closeListeners := closeListeners this |}.

(** [delete tryCpClient.requestPromises[id]]. *)
Definition deleteRequestPromise (id : Z) (this : TryCpClient) : TryCpClient :=
  {| requestPromises := delete id (requestPromises this);
     signalHandlers := signalHandlers this;
     promises := promises this;
     closeListeners := closeListeners this |}.

(** [processSuccessResponse]: [null] and strings pass through; a byte array
    is deserialized, and a response of type ["error"] is thrown as an
    [Error]. (Its [logger.debug] lines are not recorded.) *)
Definition processSuccessResponse (response : TryCpSuccessResponseSeralized)
    : Decoded TryCpSuccessResponse :=
  match response with
  | serialized_null => Returns TRYCP_SUCCESS_RESPONSE
  | serialized_string s => Returns (response_string s)
  | serialized_bytes (Throws t) => Throws t
  | serialized_bytes (Returns deserializedApiResponse) =>
      match deserializedApiResponse with
      | error_response data_json =>
          Throws (ThrownError (Error
            ("error response from Admin API" +:+ LF +:+ data_json)))
      | _ => Returns (response_api deserializedApiResponse)
      end
  end.

(** The outcome with which a response that has the property ["0"] settles
    its promise (the inner [try]/[catch] of the message listener). *)
Definition successSettlement (response : TryCpSuccessResponseSeralized)
    : Settlement :=
  match processSuccessResponse response with
  | Returns innerResponse => Resolve innerResponse
  | Throws (ThrownError error) => Reject (error_object error)
  | Throws (ThrownOther errorMessage) => Reject (error_string errorMessage)
  end.

Definition UNDEFINED_ENTRY : Thrown :=
  ThrownError (TypeError
    "Cannot destructure property 'responseResolve' of 'tryCpClient.requestPromises[responseWrapper.id]' as it is undefined.").

Definition UNKNOWN_RESPONSE_TYPE : Thrown :=
  ThrownError (Error "Unknown response type").

(** Body of the [try] block of the ["message"] listener, after the frame was
    deserialized: the new state, what was done, and the exception that left
    the block, if any. *)
Definition handleWrapper (this : TryCpClient) (responseWrapper : ResponseWrapper)
    : TryCpClient * list Effect * option Thrown :=
  match responseWrapper with
  | signal_wrapper port data =>
      match signalHandlers this !! port with
      | Some (Some signalHandler) =>
          match data with
          | Throws t => (this, [], Some t)
          | Returns signal =>
              (this,
               [Log (debug_signal port);
                SignalHandled (cb_id signalHandler) signal],
               cb_throws signalHandler signal)
          end
      | _ => (this, [Log info_no_signal_handler], None)
      end
  | response_wrapper id response =>
      match requestPromises this !! id with
      | None => (this, [], Some UNDEFINED_ENTRY)
      | Some p =>
          match prop0 response, prop1 response with
          | Some serialized, _ =>
              let s := successSettlement serialized in
              (deleteRequestPromise id (settle p s this),
               [Settle p s; DeleteRequestPromise id], None)
          | None, Some reason =>
              (deleteRequestPromise id (settle p (Reject reason) this),
               [Settle p (Reject reason); DeleteRequestPromise id], None)
          | None, None =>
              (this, [Log error_unknown_response_type],
               Some UNKNOWN_RESPONSE_TYPE)
          end
      end
  | other_wrapper => (this, [], None)
  end.

(** The ["message"] listener registered by [TryCpClient.create]: whatever is
    thrown inside is caught and printed with [console.error]. *)
Definition onMessage (this : TryCpClient) (encodedResponse : Frame)
    : TryCpClient * list Effect :=
  match encodedResponse with
  | Throws error => (this, [Log (console_error error)])
  | Returns responseWrapper =>
      match handleWrapper this responseWrapper with
      | (this', done, Some error) => (this', done ++ [Log (console_error error)])
      | (this', done, None) => (this', done)
      end
  end.

(** The client after a sequence of frames has arrived, and what it did. *)
Fixpoint onMessages (this : TryCpClient) (frames : list Frame)
    : TryCpClient * list Effect :=
  match frames with
  | [] => (this, [])
  | frame :: rest =>
      let '(this1, done1) := onMessage this frame in
      let '(this2, done2) := onMessages this1 rest in
      (this2, done1 ++ done2)
  end.

(** The ["error"] listener registered by [create]. *)
Definition onError (this : TryCpClient) (err : string)
    : TryCpClient * list Effect :=
  (this, [Log (error_ws err)]).

(** [call]: registers the continuations of a new promise under the current
    value of the module-level [requestId], sends the envelope, increments
    [requestId] and returns the promise. The result is the new value of
    [requestId], the client, the promise, and what was done. *)
Definition call (requestId : Z) (this : TryCpClient) (request : TryCpRequest)
    : Z * TryCpClient * PromiseId * list Effect :=
  let callPromise := length (promises this) in
  let serverCall := {| call_id := requestId; call_request := request |} in
  (js_incr requestId,
   {| requestPromises := <[requestId := callPromise]> (requestPromises this);
      signalHandlers := signalHandlers this;
      promises := promises this ++ [Pending];
      closeListeners := closeListeners this |},
   callPromise,
   [Log debug_request; WsSend serverCall]).

(** Several calls made one after the other, before any frame is handled. *)
Fixpoint calls (requestId : Z) (this : TryCpClient) (requests : list TryCpRequest)
    : Z * TryCpClient * list PromiseId * list Effect :=
  match requests with
  | [] => (requestId, this, [], [])
  | request :: rest =>
      let '(requestId1, this1, p, done1) := call requestId this request in
      let '(requestId2, this2, ps, done2) := calls requestId1 this1 rest in
      (requestId2, this2, p :: ps, done1 ++ done2)
  end.

(** [close]: registers a one-time ["close"] listener and closes the socket
    with code 1000. *)
Definition close (this : TryCpClient) : TryCpClient * list Effect :=
  ({| requestPromises := requestPromises this;
      signalHandlers := signalHandlers this;
      promises := promises this;
      closeListeners := S (closeListeners this) |},
   [WsClose 1000]).

(** The ["close"] event of the socket: every one-time listener logs the code
    and resolves its close promise with it. *)
Definition onClose (this : TryCpClient) (code : Z) : TryCpClient * list Effect :=
  ({| requestPromises := requestPromises this;
      signalHandlers := signalHandlers this;
      promises := promises this;
      closeListeners := 0 |},
   concat (replicate (closeListeners this)
             [Log (verbose_closed code); CloseResolved code])).

(** *** Reading the record of what was done *)

(** The settlements a run invoked on the promise [p], in order. *)
Definition settlementsOf (p : PromiseId) (done : list Effect) : list Settlement :=
  omap (fun e => match e with
                 | Settle q s => if decide (q = p) then Some s else None
                 | _ => None
                 end) done.

(** The number of times a run deleted the entry of [id]. *)
Definition deletionsOf (id : Z) (done : list Effect) : nat :=
  length (omap (fun e => match e with
                         | DeleteRequestPromise j =>
                             if decide (j = id) then Some j else None
                         | _ => None
                         end) done).

(** The envelopes a run sent, in order. *)
Definition sentBy (done : list Effect) : list TryCpCall :=
  omap (fun e => match e with WsSend c => Some c | _ => None end) done.

(** The signals a run handed to handlers, in order. *)
Definition handledBy (done : list Effect) : list (nat * AppSignal) :=
  omap (fun e => match e with SignalHandled cb s => Some (cb, s) | _ => None end)
       done.

(** How a response settles the promise of its request: by its property
    ["0"] if it has one, else by its property ["1"]; a response with
    neither settles nothing. *)
Definition responseSettlement (response : TryCpResponse) : option Settlement :=
  match prop0 response, prop1 response with
  | Some serialized, _ => Some (successSettlement serialized)
  | None, Some reason => Some (Reject reason)
  | None, None => None
  end.

Definition responseFrame (id : Z) (response : TryCpResponse) : Frame :=
  Returns (response_wrapper id response).

Definition signalFrame (port : Z) (signal : AppSignal) : Frame :=
  Returns (signal_wrapper port (Returns signal)).

(** ** The world: module-level state, clients and conductor handles *)

Abbreviation ClientRef := nat (only parsing).
Abbreviation ConductorRef := nat (only parsing).

(** How an awaited promise ends. *)
Inductive Outcome (A : Type) : Type :=
| Fulfilled (a : A)
| Rejected (r : TryCpResponseErrorValue).
Arguments Fulfilled {A} a.
Arguments Rejected {A} r.

Record SigningCredentials : Type := {
  capSecret : Uint8Array;
  signingKey : AgentPubKey
}.

(** The fields of a [TryCpConductor]; only [appInterfacePort] is mutable. *)
Record TryCpConductor : Type := {
  conductor_id : string;
  appInterfacePort : option Z;
  tryCpClient : ClientRef
}.

(** Everything the code reads or writes: the module-level [requestId] of
    [trycp-client.ts], the client and conductor objects by reference, and
    the credential store and signing function of the Holochain client;
    [trace] records what the clients did, in order. *)
Record World : Type := {
  requestId : Z;
  clients : ClientRef -> TryCpClient;
  conductors : ConductorRef -> TryCpConductor;
  getSigningCredentials : CellId -> option SigningCredentials;
  signZomeCall : CallZomeRequest -> Outcome CallZomeRequestSigned;
  trace : list (ClientRef * Effect)
}.

(** [clients w c].call(request) in the world [w]. *)
Definition clientCall (w : World) (c : ClientRef) (request : TryCpRequest)
    : World * PromiseId :=
  let '(requestId', this', callPromise, done) :=
    call (requestId w) (clients w c) request in
  ({| requestId := requestId';
      clients := <[c := this']> (clients w);
      conductors := conductors w;
      getSigningCredentials := getSigningCredentials w;
      signZomeCall := signZomeCall w;
      trace := trace w ++ map (pair c) done |},
   callPromise).

(** [this.appInterfacePort = port] on the conductor [h]. *)
Definition setAppInterfacePort (w : World) (h : ConductorRef) (port : Z) : World :=
  {| requestId := requestId w;
     clients := clients w;
     conductors :=
       <[h := {| conductor_id := conductor_id (conductors w h);
                 appInterfacePort := Some port;
                 tryCpClient := tryCpClient (conductors w h) |}]> (conductors w);
     getSigningCredentials := getSigningCredentials w;
     signZomeCall := signZomeCall w;
     trace := trace w |}.

(** A frame arrives on the socket of the client [c]. *)
Abbreviation Arrival := ((ClientRef * Frame)%type) (only parsing).

Definition deliver (w : World) (a : Arrival) : World :=
  let '(this', done) := onMessage (clients w a.1) a.2 in
  {| requestId := requestId w;
     clients := <[a.1 := this']> (clients w);
     conductors := conductors w;
     getSigningCredentials := getSigningCredentials w;
     signZomeCall := signZomeCall w;
     trace := trace w ++ map (pair a.1) done |}.

(** ** Asynchronous functions *)

(** The body of an [async] function, as the tree of its interactions.
    [Await c request k] is [await c.call(request)] followed by [k], which
    receives how the promise was settled; [Fire] is a call whose promise
    is dropped. The other nodes read or write the conductor object and ask
    the Holochain client for credentials and signatures; the promise of
    [signZomeCall] does not depend on the frames of the TryCP server and is
    taken as settled when it is awaited. *)
Inductive Task (A : Type) : Type :=
| Ret (a : A)
| Throw (r : TryCpResponseErrorValue)
| Await (c : ClientRef) (request : TryCpRequest) (k : Settlement -> Task A)
| Fire (c : ClientRef) (request : TryCpRequest) (k : Task A)
| GetConductor (h : ConductorRef) (k : TryCpConductor -> Task A)
| SetAppInterfacePort (h : ConductorRef) (port : Z) (k : Task A)
| GetSigningCredentials (cell : CellId) (k : option SigningCredentials -> Task A)
| SignZomeCall (request : CallZomeRequest)
    (k : Outcome CallZomeRequestSigned -> Task A).
Arguments Ret {A} a.
Arguments Throw {A} r.
Arguments Await {A} c request k.
Arguments Fire {A} c request k.
Arguments GetConductor {A} h k.
Arguments SetAppInterfacePort {A} h port k.
Arguments GetSigningCredentials {A} cell k.
Arguments SignZomeCall {A} request k.

Fixpoint bind {A B : Type} (t : Task A) (f : A -> Task B) : Task B :=
  match t with
  | Ret a => f a
  | Throw r => Throw r
  | Await c request k => Await c request (fun s => bind (k s) f)
  | Fire c request k => Fire c request (bind k f)
  | GetConductor h k => GetConductor h (fun this => bind (k this) f)
  | SetAppInterfacePort h port k => SetAppInterfacePort h port (bind k f)
  | GetSigningCredentials cell k =>
      GetSigningCredentials cell (fun o => bind (k o) f)
  | SignZomeCall request k => SignZomeCall request (fun o => bind (k o) f)
  end.

#[global] Instance Task_ret : MRet Task := @Ret.
#[global] Instance Task_bind : MBind Task := fun A B f t => bind t f.

(** [await c.call(request)]: the value of a fulfilled promise; a rejected
    promise throws its reason. *)
Definition await (c : ClientRef) (request : TryCpRequest)
    : Task TryCpSuccessResponse :=
  Await c request (fun s =>
    match s with
    | Resolve v => Ret v
    | Reject r => Throw r
    end).

(** An [async] function called without [await]: it runs until its first
    [await], where its request has been sent; what it does when the reply
    comes, and how it ends, is not observed by the caller, which goes on
    with [k]. *)
Fixpoint spawn {A B : Type} (t : Task B) (k : Task A) : Task A :=
  match t with
  | Ret _ => k
  | Throw _ => k
  | Await c request _ => Fire c request k
  | Fire c request t' => Fire c request (spawn t' k)
  | GetConductor h f => GetConductor h (fun this => spawn (f this) k)
  | SetAppInterfacePort h port t' => SetAppInterfacePort h port (spawn t' k)
  | GetSigningCredentials cell f =>
      GetSigningCredentials cell (fun o => spawn (f o) k)
  | SignZomeCall request f => SignZomeCall request (fun o => spawn (f o) k)
  end.

(** ** The event loop *)

(** A task is finished, or suspended at an [await] on the promise [p] of the
    client [c]. *)
Inductive TaskState (A : Type) : Type :=
| Finished (o : Outcome A)
| Waiting (c : ClientRef) (p : PromiseId) (k : Settlement -> Task A).
Arguments Finished {A} o.
Arguments Waiting {A} c p k.

(** Run a task until it finishes or suspends. *)
Fixpoint start {A : Type} (t : Task A) (w : World) : TaskState A * World :=
  match t with
  | Ret a => (Finished (Fulfilled a), w)
  | Throw r => (Finished (Rejected r), w)
  | Await c request k =>
      let '(w', p) := clientCall w c request in (Waiting c p k, w')
  | Fire c request k =>
      let '(w', _) := clientCall w c request in start k w'
  | GetConductor h k => start (k (conductors w h)) w
  | SetAppInterfacePort h port k => start k (setAppInterfacePort w h port)
  | GetSigningCredentials cell k => start (k (getSigningCredentials w cell)) w
  | SignZomeCall request k => start (k (signZomeCall w request)) w
  end.

(** A suspended task goes on once the promise it awaits is settled. *)
Definition resume {A : Type} (s : TaskState A) (w : World) : TaskState A * World :=
  match s with
  | Finished _ => (s, w)
  | Waiting c p k =>
      match promiseState (clients w c) p with
      | Pending => (s, w)
      | Settled settlement => start (k settlement) w
      end
  end.

(** One task against the frames that arrive, in order. *)
Fixpoint steps {A : Type} (s : TaskState A) (w : World) (arrivals : list Arrival)
    : TaskState A * World :=
  match arrivals with
  | [] => (s, w)
  | a :: rest => let '(s', w') := resume s (deliver w a) in steps s' w' rest
  end.

Definition exec {A : Type} (t : Task A) (w : World) (arrivals : list Arrival)
    : TaskState A * World :=
  let '(s, w') := start t w in steps s w' arrivals.

(** [Promise.all] over the promises of several [async] functions that were
    called one after the other: the states of the functions, and the first
    rejection seen. *)
Record Joined (A : Type) : Type := {
  members : list (TaskState A);
  firstRejection : option TryCpResponseErrorValue
}.
Arguments members {A} j.
Arguments firstRejection {A} j.

Definition rejectionOf {A : Type} (s : TaskState A)
    : option TryCpResponseErrorValue :=
  match s with
  | Finished (Rejected r) => Some r
  | _ => None
  end.

(** The earlier of two rejections, [seen] being the earlier one. *)
Definition noteRejection (seen later : option TryCpResponseErrorValue)
    : option TryCpResponseErrorValue :=
  match seen with
  | Some r => Some r
  | None => later
  end.

(** [tasks.map(...)]: each function runs to its first [await]. *)
Fixpoint startAll {A : Type} (ts : list (Task A)) (w : World)
    : Joined A * World :=
  match ts with
  | [] => ({| members := []; firstRejection := None |}, w)
  | t :: rest =>
      let '(s, w1) := start t w in
      let '(j, w2) := startAll rest w1 in
      ({| members := s :: members j;
          firstRejection := noteRejection (rejectionOf s) (firstRejection j) |},
       w2)
  end.

(** After a frame arrived: every function whose awaited promise is now
    settled goes on, in the order of the array. *)
Fixpoint resumeMembers {A : Type} (ms : list (TaskState A)) (w : World)
    : Joined A * World :=
  match ms with
  | [] => ({| members := []; firstRejection := None |}, w)
  | s :: rest =>
      let '(s', w1) := resume s w in
      let '(j, w2) := resumeMembers rest w1 in
      ({| members := s' :: members j;
          firstRejection := noteRejection (rejectionOf s') (firstRejection j) |},
       w2)
  end.

Definition resumeAll {A : Type} (j : Joined A) (w : World) : Joined A * World :=
  let '(j', w') := resumeMembers (members j) w in
  ({| members := members j';
      firstRejection := noteRejection (firstRejection j) (firstRejection j') |},
   w').

Fixpoint stepsAll {A : Type} (j : Joined A) (w : World) (arrivals : list Arrival)
    : Joined A * World :=
  match arrivals with
  | [] => (j, w)
  | a :: rest =>
      let '(j', w') := resumeAll j (deliver w a) in stepsAll j' w' rest
  end.

Definition execAll {A : Type} (ts : list (Task A)) (w : World)
    (arrivals : list Arrival) : Joined A * World :=
  let '(j, w') := startAll ts w in stepsAll j w' arrivals.

Definition fulfilledValue {A : Type} (s : TaskState A) : option A :=
  match s with
  | Finished (Fulfilled a) => Some a
  | _ => None
  end.

(** The promise returned by [Promise.all]: rejected with the first
    rejection, fulfilled once every member is, pending ([None]) otherwise. *)
Definition joinedOutcome {A : Type} (j : Joined A) : option (Outcome (list A)) :=
  match firstRejection j with
  | Some r => Some (Rejected r)
  | None => Fulfilled <$> mapM fulfilledValue (members j)
  end.

(** ** The TryCP conductor *)

(** [Array.prototype.toString] of the byte arrays and tuples that end up in
    template strings. *)
Definition Uint8Array_toString (b : Uint8Array) : string :=
  String.concat "," (map (fun x => pretty (Byte.to_N x)) b).

Definition CellId_toString (c : CellId) : string :=
  String.concat "," [Uint8Array_toString c.1; Uint8Array_toString c.2].

Definition errors_toString (es : list (CellId * string)) : string :=
  String.concat "," (map (fun e => String.concat "," [CellId_toString e.1; e.2]) es).

(** A failed [assert(...)]: an [AssertionError] whose message is the one
    given, or else names the asserted expression. *)
Definition assertion {A : Type} (message : string) : Task A :=
  Throw (error_object (AssertionError message)).

(** [callAdminApi]. *)
Definition callAdminApi (h : ConductorRef) (message : RequestAdminInterfaceMessage)
    : Task TryCpApiResponse :=
  GetConductor h (fun this =>
    response ← await (tryCpClient this)
                 (call_admin_interface (conductor_id this) message);
    match response with
    | TRYCP_SUCCESS_RESPONSE => assertion "response !== TRYCP_SUCCESS_RESPONSE"
    | response_string _ => assertion "typeof response !== 'string'"
    | response_api r => Ret r
    end).

(** *** [adminWs()] *)

Definition generateAgentPubKey (h : ConductorRef) : Task AgentPubKey :=
  response ← callAdminApi h generate_agent_pub_key;
  match response with
  | bytes_response "agent_pub_key_generated" data => Ret data
  | _ => assertion "response.type === 'agent_pub_key_generated'"
  end.

(** [adminWs().installApp]. *)
Definition adminWs_installApp (h : ConductorRef) (data : InstallAppRequest)
    : Task AppInfo :=
  response ← callAdminApi h (install_app data);
  match response with
  | app_installed data => Ret data
  | _ => assertion "response.type === 'app_installed'"
  end.

Definition enableApp (h : ConductorRef) (installed_app_id : string)
    : Task EnableAppResponse :=
  response ← callAdminApi h (enable_app installed_app_id);
  match response with
  | app_enabled data => Ret data
  | _ => assertion "response.type === 'app_enabled'"
  end.

(** [attachAppInterface]: [freePort] is the port [getPort] finds when no
    request is given. The port recorded on the handle is the requested one,
    the port returned is the one of the response. *)
Definition attachAppInterface (h : ConductorRef) (freePort : Z)
    (request : option Z) : Task Z :=
  let request := default freePort request in
  response ← callAdminApi h (attach_app_interface request);
  match response with
  | app_interface_attached port =>
      SetAppInterfacePort h request (Ret port)
  | _ => assertion "response.type === 'app_interface_attached'"
  end.

(** [agentInfo]: the request carries [req.cell_id || null]. *)
Definition agentInfo (h : ConductorRef) (req_cell_id : option CellId)
    : Task (list AgentInfoSigned) :=
  response ← callAdminApi h (agent_info req_cell_id);
  match response with
  | agent_info_returned data => Ret data
  | _ => assertion "response.type === 'agent_info'"
  end.

Definition addAgentInfo (h : ConductorRef) (agent_infos : list AgentInfoSigned)
    : Task unit :=
  response ← callAdminApi h (add_agent_info agent_infos);
  match response with
  | agent_info_added => Ret tt
  | _ => assertion "response.type === 'agent_info_added'"
  end.

(** *** [appWs()] *)

(** [callAppApi]: [assert(this.appInterfacePort, ...)] fails when no port
    is recorded, and also for the port 0, which is falsy. *)
Definition callAppApi (h : ConductorRef) (message : RequestCallAppInterfaceMessage)
    : Task TryCpApiResponse :=
  GetConductor h (fun this =>
    match appInterfacePort this with
    | None => assertion "No App interface attached to conductor"
    | Some port =>
        if port =? 0 then assertion "No App interface attached to conductor"
        else
          response ← await (tryCpClient this) (call_app_interface port message);
          match response with
          | TRYCP_SUCCESS_RESPONSE =>
              assertion "response !== TRYCP_SUCCESS_RESPONSE"
          | response_string _ => assertion "typeof response !== 'string'"
          | response_api r => Ret r
          end
    end).

Definition NO_SIGNING_CREDENTIALS (cell : CellId) : TryCpResponseErrorValue :=
  error_object (Error
    ("cannot sign zome call: no signing credentials have been authorized for cell "
     +:+ CellId_toString cell)).

(** [appWs().callZome]: a request without [signature] is signed first, which
    needs signing credentials for its cell. The result is the [data] of the
    response, which must be there and be a byte array (it is then decoded
    by [deserializeZomeResponsePayload], an external codec). *)
Definition callZome (h : ConductorRef)
    (request : CallZomeRequest + CallZomeRequestSigned) : Task Uint8Array :=
  signedRequest ←
    match request with
    | inr request => Ret request
    | inl request =>
        GetSigningCredentials (cell_id request) (fun signingCredentials =>
          match signingCredentials with
          | None => Throw (NO_SIGNING_CREDENTIALS (cell_id request))
          | Some _ =>
              SignZomeCall request (fun signedZomeCall =>
                match signedZomeCall with
                | Fulfilled signedZomeCall => Ret signedZomeCall
                | Rejected r => Throw r
                end)
          end)
    end;
  response ← callAppApi h (call_zome signedRequest);
  match response with
  | bytes_response _ data => Ret data
  | agent_info_added | other_response _ => assertion "'data' in response"
  | _ => assertion "'BYTES_PER_ELEMENT' in response.data"
  end.

(** ** Common helpers *)

(** [CellZomeCallRequest]: a zome call without the fields a callable cell
    fills in. *)
Record CellZomeCallRequest : Type := {
  cell_zome_name : string;
  cell_fn_name : string;
  cell_provenance : option AgentPubKey;
  cell_payload : option Uint8Array
}.

(** [CallableCell]: the fields of the cell, and its [callZome] closure. *)
Record CallableCell : Type := {
  cell : ProvisionedCell + ClonedCell;
  cell_callZome : CellZomeCallRequest -> option Z -> Task Uint8Array
}.

Definition cell_cell_id (cell : ProvisionedCell + ClonedCell) : CellId :=
  match cell with
  | inl c => prov_cell_id c
  | inr c => clone_cell_id c
  end.

(** [getCallableCell]: the closure passes [timeout] as a second argument to
    [conductor.appWs().callZome], which has a single parameter. *)
Definition getCallableCell (conductor : ConductorRef)
    (cell : ProvisionedCell + ClonedCell) (agentPubKey : AgentPubKey)
    : CallableCell :=
  {| cell := cell;
     cell_callZome := fun request timeout =>
       callZome conductor
         (inl {| cap_secret := None;
                 cell_id := cell_cell_id cell;
                 zome_name := cell_zome_name request;
                 fn_name := cell_fn_name request;
                 provenance := default agentPubKey (cell_provenance request);
                 payload := cell_payload request |}) |}.

(** [AgentApp]. [namedCells] is a [Map]: [set] replaces the value of a key
    that is present and appends a new key otherwise. *)
Record AgentApp : Type := {
  appId : string;
  agentPubKey : AgentPubKey;
  cells : list CallableCell;
  namedCells : list (RoleName * CallableCell)
}.

Fixpoint Map_set (key : RoleName) (value : CallableCell)
    (m : list (RoleName * CallableCell)) : list (RoleName * CallableCell) :=
  match m with
  | [] => [(key, value)]
  | (k, v) :: rest =>
      if String.eqb k key then (k, value) :: rest
      else (k, v) :: Map_set key value rest
  end.

(** One iteration of the inner [forEach] of [enableAndGetAgentApp]. *)
Definition addCell (conductor : ConductorRef) (agentPubKey : AgentPubKey)
    (role_name : RoleName)
    (acc : Outcome (list CallableCell * list (RoleName * CallableCell)))
    (cellInfo : CellInfo)
    : Outcome (list CallableCell * list (RoleName * CallableCell)) :=
  match acc with
  | Rejected r => Rejected r
  | Fulfilled (cells, namedCells) =>
      match cellInfo with
      | Provisioned c =>
          let callableCell := getCallableCell conductor (inl c) agentPubKey in
          Fulfilled (cells ++ [callableCell],
                     Map_set role_name callableCell namedCells)
      | Cloned c =>
          if String.eqb (clone_id c) EmptyString
          then Rejected (error_object (Error "Stem cells are not implemented"))
          else
            let callableCell := getCallableCell conductor (inr c) agentPubKey in
            Fulfilled (cells ++ [callableCell],
                       Map_set (clone_id c) callableCell namedCells)
      | Stem _ => Rejected (error_object (Error "Stem cells are not implemented"))
      end
  end.

(** The two nested [forEach] loops over [installedAppInfo.cell_info]. *)
Definition collectCells (conductor : ConductorRef) (agentPubKey : AgentPubKey)
    (cell_info : list (RoleName * list CellInfo))
    : Outcome (list CallableCell * list (RoleName * CallableCell)) :=
  fold_left
    (fun acc entry => fold_left (addCell conductor agentPubKey entry.1) entry.2 acc)
    cell_info (Fulfilled ([], [])).

Definition enableAndGetAgentApp (conductor : ConductorRef)
    (agentPubKey : AgentPubKey) (installedAppInfo : AppInfo) : Task AgentApp :=
  enableAppResponse ← enableApp conductor (installed_app_id installedAppInfo);
  match errors enableAppResponse with
  | _ :: _ =>
      Throw (error_object (Error
        ("failed to enable app: " +:+ errors_toString (errors enableAppResponse))))
  | [] =>
      match collectCells conductor agentPubKey (cell_info installedAppInfo) with
      | Rejected r => Throw r
      | Fulfilled (cells, namedCells) =>
          Ret {| appId := installed_app_id installedAppInfo;
                 agentPubKey := agentPubKey;
                 cells := cells;
                 namedCells := namedCells |}
      end
  end.

(** [AppOptions]. *)
Record AppOptions : Type := {
  opt_agentPubKey : option AgentPubKey;
  opt_membraneProofs : option (list (string * Uint8Array));
  opt_installedAppId : option string;
  opt_networkSeed : option string
}.

(** [TryCpConductor.installApp]. [uuid] is what [uuidv4()] returns when the
    options name no app id. *)
Definition installApp (h : ConductorRef) (uuid : string)
    (appBundleSource : string + string) (options : option AppOptions)
    : Task AgentApp :=
  agent_key ← match options ≫= opt_agentPubKey with
              | Some key => Ret key
              | None => generateAgentPubKey h
              end;
  let membrane_proofs := default [] (options ≫= opt_membraneProofs) in
  let installed_app_id := default ("app-" +:+ uuid) (options ≫= opt_installedAppId) in
  let network_seed := options ≫= opt_networkSeed in
  let installAppRequest :=
    {| bundle_source := appBundleSource;
       agent_key := agent_key;
       membrane_proofs := membrane_proofs;
       install_installed_app_id := installed_app_id;
       network_seed := network_seed |} in
  installedAppInfo ← adminWs_installApp h installAppRequest;
  enableAndGetAgentApp h agent_key installedAppInfo.

(** The callback of the inner [conductors.map] of
    [addAllAgentsToAllConductors], over the rest of the array: the call of
    [addAgentInfo] is not awaited. *)
Fixpoint shareWith (playerToShareAboutIdx : nat)
    (agentInfosToShareAbout : list AgentInfoSigned)
    (playerToShareWithIdx : nat) (conductors : list ConductorRef) : Task unit :=
  match conductors with
  | [] => Ret tt
  | playerToShareWith :: rest =>
      let continue :=
        shareWith playerToShareAboutIdx agentInfosToShareAbout
          (S playerToShareWithIdx) rest in
      if decide (playerToShareAboutIdx ≠ playerToShareWithIdx)
      then spawn (addAgentInfo playerToShareWith agentInfosToShareAbout) continue
      else continue
  end.

(** The callback of the outer [conductors.map]. *)
Definition shareAbout (conductors : list ConductorRef)
    (playerToShareAboutIdx : nat) (playerToShareAbout : ConductorRef) : Task unit :=
  agentInfosToShareAbout ← agentInfo playerToShareAbout None;
  shareWith playerToShareAboutIdx agentInfosToShareAbout 0%nat conductors.

(** [addAllAgentsToAllConductors]: the functions whose promises the outer
    [Promise.all] joins; the function resolves when [joinedOutcome] of their
    run under [execAll] is fulfilled. *)
Definition addAllAgentsToAllConductors (conductors : list ConductorRef)
    : list (Task unit) :=
  imap (shareAbout conductors) conductors.

(** ** Reading frames and worlds *)

(** The request id a frame answers, if it is a response. *)
Definition frameId (frame : Frame) : option Z :=
  match frame with
  | Returns (response_wrapper id _) => Some id
  | _ => None
  end.

(** The rejections a run invoked, on any promise. *)
Definition rejectionsIn (done : list Effect)
    : list (PromiseId * TryCpResponseErrorValue) :=
  omap (fun e => match e with
                 | Settle p (Reject r) => Some (p, r)
                 | _ => None
                 end) done.


(** Calls made one after the other on clients of a world. *)
Fixpoint worldCalls (w : World) (cs : list (ClientRef * TryCpRequest)) : World :=
  match cs with
  | [] => w
  | (c, request) :: rest => worldCalls (clientCall w c request).1 rest
  end.

(** The envelopes in a trace, with the client that sent each. *)
Definition sentIn (tr : list (ClientRef * Effect)) : list (ClientRef * TryCpCall) :=
  omap (fun ce => match ce.2 with WsSend c => Some (ce.1, c) | _ => None end) tr.

(** The cells an app declares, in the order the loops visit them. *)
Definition declaredCells (info : AppInfo) : list CellInfo :=
  flat_map snd (cell_info info).


(** ** Worlds and frames used as concrete instances *)

Definition example_world : World :=
  {| requestId := 0;
     clients := fun _ => new_TryCpClient;
     conductors := fun h =>
       {| conductor_id := "conductor-" +:+ pretty h;
          appInterfacePort := None;
          tryCpClient := h |};
     getSigningCredentials := fun _ => None;
     signZomeCall := fun r => Fulfilled {| signed_request := r; signature := [] |};
     trace := [] |}.

(** A response with the property ["0"] holding an API response. *)
Definition success (r : TryCpApiResponse) : TryCpResponse :=
  {| prop0 := Some (serialized_bytes (Returns r)); prop1 := None |}.

(** A response with the property ["1"]. *)
Definition failure (reason : string) : TryCpResponse :=
  {| prop0 := None; prop1 := Some (error_string reason) |}.

Definition example_signal : AppSignal :=
  {| signal_cell_id := ([Byte.x01], [Byte.x02]);
     signal_zome_name := "coordinator";
     signal_payload := [Byte.x2a] |}.

Definition example_handler (n : nat) : AppSignalCb :=
  {| cb_id := n; cb_throws := fun _ => None |}.

(** The world after the frames [arrivals] were handled, no task running. *)
Definition delivers (w : World) (arrivals : list Arrival) : World :=
  fold_left deliver arrivals w.

(** Three calls and their responses, arriving in reverse order. *)
Definition example_requests : list TryCpRequest :=
  [shutdown "a"; shutdown "b"; shutdown "c"].

Definition example_responses : list TryCpResponse :=
  [failure "first"; success agent_info_added; failure "third"].

Definition example_frames : list Frame :=
  [responseFrame 9 (failure "third");
   responseFrame 8 (success agent_info_added);
   responseFrame 7 (failure "first")].

(** A client with one pending call, whose request id is 0. *)
Definition example_client : TryCpClient :=
  (call 0 new_TryCpClient (shutdown "conductor-0")).1.1.2.

(** The envelope [callAdminApi] sends from the world [w]. *)
Definition adminEnvelope (w : World) (h : ConductorRef)
    (message : RequestAdminInterfaceMessage) : ClientRef * TryCpCall :=
  (tryCpClient (conductors w h),
   {| call_id := requestId w;
      call_request := call_admin_interface (conductor_id (conductors w h)) message |}).

(** A world in which every conductor has the app interface port 30000
    attached and every cell has signing credentials. *)
Definition example_world_attached : World :=
  {| requestId := 0;
     clients := fun _ => new_TryCpClient;
     conductors := fun h =>
       {| conductor_id := "conductor-" +:+ pretty h;
          appInterfacePort := Some 30000;
          tryCpClient := h |};
     getSigningCredentials := fun _ =>
       Some {| capSecret := [Byte.x07]; signingKey := [Byte.x08] |};
     signZomeCall := fun r => Fulfilled {| signed_request := r; signature := [Byte.x09] |};
     trace := [] |}.

Definition example_cell : ProvisionedCell + ClonedCell :=
  inl {| prov_cell_id := ([Byte.x01], [Byte.x02]); prov_name := "cell" |}.

Definition example_zome_call : CellZomeCallRequest :=
  {| cell_zome_name := "coordinator";
     cell_fn_name := "create";
     cell_provenance := None;
     cell_payload := Some [Byte.x68; Byte.x69] |}.




(** Two conductors answer the requests for their agent infos. *)
Definition example_agent_infos_arrivals : list Arrival :=
  [(0%nat, responseFrame 0 (success (agent_info_returned [[Byte.x0a]])));
   (1%nat, responseFrame 1 (success (agent_info_returned [[Byte.x0b]])))].

(** The envelopes sent between the world [w] and a later world [w']. *)
Definition newlySent (w w' : World) : list (ClientRef * TryCpCall) :=
  drop (length (sentIn (trace w))) (sentIn (trace w')).

(** A call on the client 0 followed by the first call on the client 1. *)
Definition example_calls : list (ClientRef * TryCpRequest) :=
  [(0%nat, shutdown "conductor-0"); (1%nat, shutdown "conductor-1")].

(** ** Reading what [addAllAgentsToAllConductors] sends *)

(** What [callAdminApi] sends on the conductor [h], without the request
    id. *)
Definition adminRequest (w : World) (h : ConductorRef)
    (message : RequestAdminInterfaceMessage) : ClientRef * TryCpRequest :=
  (tryCpClient (conductors w h),
   call_admin_interface (conductor_id (conductors w h)) message).

(** The world [w'] comes after [w], and the requests sent in between are
    [requests], in this order. *)
Definition sendsBetween (w w' : World) (requests : list (ClientRef * TryCpRequest))
    : Prop :=
  ∃ sent, sentIn (trace w') = sentIn (trace w) ++ sent
          ∧ (fun ce : ClientRef * TryCpCall => (ce.1, call_request ce.2)) <$> sent
            = requests.

(** The requests for the agent infos of each conductor of the array. *)
Definition fetchRequests (w : World) (conductors : list ConductorRef)
    : list (ClientRef * TryCpRequest) :=
  (fun h => adminRequest w h (agent_info None)) <$> conductors.

(** The requests that add [infos] to every conductor of the array whose
    index, counted from [first], is not [about]. *)
Fixpoint addRequests (w : World) (about : nat) (infos : list AgentInfoSigned)
    (first : nat) (conductors : list ConductorRef) : list (ClientRef * TryCpRequest) :=
  match conductors with
  | [] => []
  | h :: rest =>
      (if decide (about ≠ first)
       then [adminRequest w h (add_agent_info infos)] else [])
      ++ addRequests w about infos (S first) rest
  end.

(** The continuation of the callback at index [about] of
    [addAllAgentsToAllConductors], suspended at its request for agent infos:
    given agent infos it shares them, given anything else it throws. *)
Definition awaitsAgentInfos (conductors : list ConductorRef) (about : nat)
    (k : Settlement -> Task unit) : Prop :=
  (∀ infos w,
     start (k (Resolve (response_api (agent_info_returned infos)))) w
     = start (shareWith about infos 0%nat conductors) w)
  ∧ (∀ s, (∀ infos, s ≠ Resolve (response_api (agent_info_returned infos))) →
          ∃ e, ∀ w, start (k s) w = (Finished (Rejected e), w)).

(** The state of the callback at index [about] during a run: still
    suspended where it started, or finished; it is fulfilled exactly when
    [fetched] holds the agent infos with which its request was answered. *)
Definition memberState (conductors : list ConductorRef)
    (started : list (TaskState unit)) (about : nat) (state : TaskState unit)
    (w : World) (fetched : list (nat * list AgentInfoSigned)) : Prop :=
  ∃ c p k,
    started !! about = Some (Waiting c p k)
    ∧ awaitsAgentInfos conductors about k
    ∧ ((state = Waiting c p k ∧ about ∉ fetched.*1)
       ∨ (∃ infos, state = Finished (Fulfilled tt)
                   ∧ (about, infos) ∈ fetched
                   ∧ promiseState (clients w c) p
                     = Settled (Resolve (response_api (agent_info_returned infos))))
       ∨ (∃ e, state = Finished (Rejected e) ∧ about ∉ fetched.*1)).

(** ** Histories of a client *)

(** What happens to a client object, one thing after the other: [call] is
    invoked (the module-level [requestId] having some value at that time), a
    frame arrives, a signal handler is set, [close] is invoked, the socket
    reports that it closed. *)
Inductive ClientEvent : Type :=
| ev_call (requestId : Z) (request : TryCpRequest)
| ev_message (encodedResponse : Frame)
| ev_setSignalHandler (port : Z) (signalHandler : option AppSignalCb)
| ev_close
| ev_closed (code : Z).

(** The client after one event, and what it did. *)
Definition happen (this : TryCpClient) (e : ClientEvent) : TryCpClient * list Effect :=
  match e with
  | ev_call requestId request =>
      let '(_, this', _, done) := call requestId this request in (this', done)
  | ev_message encodedResponse => onMessage this encodedResponse
  | ev_setSignalHandler port signalHandler =>
      (setSignalHandler this port signalHandler, [])
  | ev_close => close this
  | ev_closed code => onClose this code
  end.

(** The client after a history, and everything it did. *)
Fixpoint history (this : TryCpClient) (events : list ClientEvent)
    : TryCpClient * list Effect :=
  match events with
  | [] => (this, [])
  | e :: rest =>
      let '(this1, done1) := happen this e in
      let '(this2, done2) := history this1 rest in
      (this2, done1 ++ done2)
  end.

(** The codes with which a run resolved close promises, in order. *)
Definition closeResolutions (done : list Effect) : list Z :=
  omap (fun e => match e with CloseResolved code => Some code | _ => None end) done.

(** A response with the property ["0"] holding [null]. *)
Definition success_null : TryCpResponse :=
  {| prop0 := Some serialized_null; prop1 := None |}.

(** The invariant of [requestPromises]: every entry holds a promise that is
    pending and was handed out for a request that was sent with the id of
    the entry, and no two entries hold the same promise. *)
Definition entries_pending (this : TryCpClient) (done : list Effect) : Prop :=
  ∀ id p, requestPromises this !! id = Some p →
    promises this !! p = Some Pending
    ∧ (∃ request, {| call_id := id; call_request := request |} ∈ sentBy done)
    ∧ (∀ id', requestPromises this !! id' = Some p → id' = id).

(** No promise of the client is fulfilled with an API response of type
    ["error"]. *)
Definition never_fulfilled_with_error (this : TryCpClient) : Prop :=
  ∀ p data_json,
    promises this !! p ≠ Some (Settled (Resolve (response_api (error_response data_json)))).

(** [close] invoked [n] times in a row. *)
Fixpoint closeTimes (n : nat) (this : TryCpClient) : TryCpClient * list Effect :=
  match n with
  | O => (this, [])
  | S n =>
      let '(this1, done1) := close this in
      let '(this2, done2) := closeTimes n this1 in
      (this2, done1 ++ done2)
  end.

(** ** Life cycle of a TryCP conductor *)

Definition DEFAULT_PARTIAL_PLAYER_CONFIG : string :=
  "signing_service_uri: ~" +:+ LF +:+
  "encryption_service_uri: ~" +:+ LF +:+
  "decryption_service_uri: ~" +:+ LF +:+
  "dpki: ~" +:+ LF +:+
  "network: ~".

(** [TryCpConductorOptions]. *)
Record TryCpConductorOptions : Type := {
  opt_id : option string;
  opt_partialConfig : option string;
  opt_startup : option bool;
  opt_logLevel : option string
}.

(** [a || b] on strings that may be [undefined]: the empty string is
    falsy. *)
Definition string_or (a : option string) (b : string) : string :=
  match a with
  | Some s => if String.eqb s EmptyString then b else s
  | None => b
  end.

(** [configure]. *)
Definition configure (h : ConductorRef) (partialConfig : option string)
    : Task TryCpSuccessResponse :=
  GetConductor h (fun this =>
    response ← await (tryCpClient this)
                 (configure_player (conductor_id this)
                    (string_or partialConfig DEFAULT_PARTIAL_PLAYER_CONFIG));
    match response with
    | TRYCP_SUCCESS_RESPONSE => Ret response
    | _ => assertion "response === TRYCP_SUCCESS_RESPONSE"
    end).

Record StartUpOptions : Type := {
  logLevel : option string
}.

(** [startUp]. *)
Definition startUp (h : ConductorRef) (options : option StartUpOptions)
    : Task TryCpSuccessResponse :=
  GetConductor h (fun this =>
    response ← await (tryCpClient this)
                 (startup (conductor_id this) (options ≫= logLevel));
    match response with
    | TRYCP_SUCCESS_RESPONSE => Ret response
    | _ => assertion "response === TRYCP_SUCCESS_RESPONSE"
    end).

(** [createTryCpConductor], from the point where
    [new TryCpConductor(tryCpClient, options?.id)] has made the object
    [conductor]: it is configured and started unless [options.startup] is
    [false]. *)
Definition createTryCpConductor (conductor : ConductorRef)
    (options : option TryCpConductorOptions) : Task ConductorRef :=
  if decide (options ≫= opt_startup = Some false) then Ret conductor
  else
    _ ← configure conductor (options ≫= opt_partialConfig);
    _ ← startUp conductor (Some {| logLevel := options ≫= opt_logLevel |});
    Ret conductor.

(** [disconnectAppInterface]. *)
Definition disconnectAppInterface (h : ConductorRef) : Task TryCpSuccessResponse :=
  GetConductor h (fun this =>
    match appInterfacePort this with
    | None => assertion "no app interface attached"
    | Some port =>
        if port =? 0 then assertion "no app interface attached"
        else
          response ← await (tryCpClient this) (disconnect_app_interface port);
          match response with
          | TRYCP_SUCCESS_RESPONSE => Ret response
          | _ => assertion "response === TRYCP_SUCCESS_RESPONSE"
          end
    end).

(** Whether [this.appInterfacePort] is truthy: it is set, and not 0. *)
Definition attached (this : TryCpConductor) : bool :=
  match appInterfacePort this with
  | Some port => negb (port =? 0)
  | None => false
  end.

(** [shutDown]: the app interface is disconnected first if one is
    attached. *)
Definition shutDown (h : ConductorRef) : Task TryCpSuccessResponse :=
  GetConductor h (fun this =>
    _ ← (if attached this
         then
           response ← disconnectAppInterface h;
           match response with
           | TRYCP_SUCCESS_RESPONSE => Ret tt
           | _ => assertion "response === TRYCP_SUCCESS_RESPONSE"
           end
         else Ret tt);
    response ← await (tryCpClient this) (shutdown (conductor_id this));
    match response with
    | TRYCP_SUCCESS_RESPONSE => Ret response
    | _ => assertion "response === TRYCP_SUCCESS_RESPONSE"
    end).

(** ** Signal handlers of a conductor *)

(** [clients w c].setSignalHandler(port, signalHandler) in the world [w]. *)
Definition clientSetSignalHandler (w : World) (c : ClientRef) (port : Z)
    (signalHandler : option AppSignalCb) : World :=
  {| requestId := requestId w;
     clients := <[c := setSignalHandler (clients w c) port signalHandler]> (clients w);
     conductors := conductors w;
     getSigningCredentials := getSigningCredentials w;
     signZomeCall := signZomeCall w;
     trace := trace w |}.

(** [on] and [off] are synchronous: they return, or throw the
    [AssertionError] of their [assert]. *)
Definition on (w : World) (h : ConductorRef) (signalHandler : AppSignalCb)
    : Decoded World :=
  let this := conductors w h in
  match appInterfacePort this with
  | None =>
      Throws (ThrownError (AssertionError "no app interface attached to conductor"))
  | Some port =>
      if port =? 0
      then Throws (ThrownError (AssertionError "no app interface attached to conductor"))
      else Returns (clientSetSignalHandler w (tryCpClient this) port
                      (Some signalHandler))
  end.

Definition off (w : World) (h : ConductorRef) : Decoded World :=
  let this := conductors w h in
  match appInterfacePort this with
  | None =>
      Throws (ThrownError (AssertionError "no app interface attached to conductor"))
  | Some port =>
      if port =? 0
      then Throws (ThrownError (AssertionError "no app interface attached to conductor"))
      else Returns (clientSetSignalHandler w (tryCpClient this) port None)
  end.

(** An [async] function whose statements after its last [await] write to
    an object that a [Task] does not reach (the handler table of a client):
    the task up to there, and what the last statements do with its value, in
    the world as it is when they run. *)
Record Ending (A B : Type) : Type := {
  upTo : Task A;
  ending : A -> World -> Outcome B * World
}.
Arguments upTo {A B} e.
Arguments ending {A B} e.

Inductive EndingState (A B : Type) : Type :=
| Running (s : TaskState A)
| Ended (o : Outcome B).
Arguments Running {A B} s.
Arguments Ended {A B} o.

(** The last statements run in the turn in which the task finishes. *)
Definition finish {A B : Type} (ending : A -> World -> Outcome B * World)
    (r : TaskState A * World) : EndingState A B * World :=
  match r with
  | (Finished (Fulfilled a), w) => let '(o, w') := ending a w in (Ended o, w')
  | (Finished (Rejected r), w) => (Ended (Rejected r), w)
  | (s, w) => (Running s, w)
  end.

Fixpoint stepsEnding {A B : Type} (ending : A -> World -> Outcome B * World)
    (s : EndingState A B) (w : World) (arrivals : list Arrival)
    : EndingState A B * World :=
  match arrivals with
  | [] => (s, w)
  | a :: rest =>
      match s with
      | Ended _ => stepsEnding ending s (deliver w a) rest
      | Running s0 =>
          let '(s', w') := finish ending (resume s0 (deliver w a)) in
          stepsEnding ending s' w' rest
      end
  end.

Definition execEnding {A B : Type} (e : Ending A B) (w : World)
    (arrivals : list Arrival) : EndingState A B * World :=
  let '(s, w') := finish (ending e) (start (upTo e) w) in
  stepsEnding (ending e) s w' arrivals.

(** [connectAppInterface]: once the server has connected the interface,
    the signal handler, which may be [undefined], is set for the port the
    conductor records at that time. *)
Definition connectAppInterface (h : ConductorRef) (signalHandler : option AppSignalCb)
    : Ending TryCpSuccessResponse TryCpSuccessResponse :=
  {| upTo :=
       GetConductor h (fun this =>
         match appInterfacePort this with
         | None => assertion "no app interface attached to conductor"
         | Some port =>
             if port =? 0 then assertion "no app interface attached to conductor"
             else
               response ← await (tryCpClient this) (connect_app_interface port);
               match response with
               | TRYCP_SUCCESS_RESPONSE => Ret response
               | _ => assertion "response === TRYCP_SUCCESS_RESPONSE"
               end
         end);
     ending := fun response w =>
       let this := conductors w h in
       (Fulfilled response,
        match appInterfacePort this with
        | Some port => clientSetSignalHandler w (tryCpClient this) port signalHandler
        | None => w
        end) |}.

(** ** Installing apps for several agents *)

(** An element of [AgentsAppsOptions.agentsApps]. *)
Record AppForAgent : Type := {
  app_source : string + string;   (* [app.bundle] or [app.path] *)
  app_agentPubKey : option AgentPubKey;
  app_membraneProofs : option (list (string * Uint8Array))
}.

Record AgentsAppsOptions : Type := {
  agentsApps : list AppForAgent;
  apps_installedAppId : option string;
  apps_networkSeed : option string
}.

(** The [for] loop of [installAgentsApps] over the apps that remain;
    [uuidv4 n] is what [uuidv4()] returns in the iteration [n], [installed]
    are the apps pushed so far. *)
Fixpoint installAgentsApps_loop (h : ConductorRef) (uuidv4 : nat -> string)
    (options : AgentsAppsOptions) (n : nat) (remaining : list AppForAgent)
    (installed : list AgentApp) : Task (list AgentApp) :=
  match remaining with
  | [] => Ret installed
  | appForAgent :: remaining =>
      agent_key ← match app_agentPubKey appForAgent with
                  | Some key => Ret key
                  | None => generateAgentPubKey h
                  end;
      let membrane_proofs := default [] (app_membraneProofs appForAgent) in
      let installed_app_id :=
        default ("app-" +:+ uuidv4 n) (apps_installedAppId options) in
      let network_seed := apps_networkSeed options in
      let installAppRequest :=
        {| bundle_source := app_source appForAgent;
           agent_key := agent_key;
           membrane_proofs := membrane_proofs;
           install_installed_app_id := installed_app_id;
           network_seed := network_seed |} in
      installedAppInfo ← adminWs_installApp h installAppRequest;
      agentApp ← enableAndGetAgentApp h agent_key installedAppInfo;
      installAgentsApps_loop h uuidv4 options (S n) remaining (installed ++ [agentApp])
  end.

Definition installAgentsApps (h : ConductorRef) (uuidv4 : nat -> string)
    (options : AgentsAppsOptions) : Task (list AgentApp) :=
  installAgentsApps_loop h uuidv4 options 0%nat (agentsApps options) [].

(** ** Zome callers *)


(** ** Reading runs of a conductor *)

(** The world after [call] was invoked on the client [c] and the response
    [response] to that request arrived. *)
Definition answered (w : World) (c : ClientRef) (request : TryCpRequest)
    (response : TryCpResponse) : World :=
  deliver (clientCall w c request).1 (c, responseFrame (requestId w) response).

(** The signals a world's clients handed to handlers, with the client and
    the handler of each. *)
Definition handledIn (tr : list (ClientRef * Effect)) : list (ClientRef * nat * AppSignal) :=
  omap (fun ce => match ce.2 with
                  | SignalHandled cb s => Some (ce.1, cb, s)
                  | _ => None
                  end) tr.

(** The outcome of a method that awaits a call and asserts that the
    response is [null]. *)
Definition nullOutcome {B : Type} (s : Settlement)
    (f : TryCpSuccessResponse -> Task B) : Task B :=
  match s with
  | Resolve TRYCP_SUCCESS_RESPONSE => f TRYCP_SUCCESS_RESPONSE
  | Resolve _ => assertion "response === TRYCP_SUCCESS_RESPONSE"
  | Reject r => Throw r
  end.

(** The outcome of a method that awaits [callAdminApi] or [callAppApi]. *)
Definition apiOutcome {B : Type} (s : Settlement) (g : TryCpApiResponse -> Task B)
    : Task B :=
  match s with
  | Resolve (response_api r) => g r
  | Resolve TRYCP_SUCCESS_RESPONSE => assertion "response !== TRYCP_SUCCESS_RESPONSE"
  | Resolve (response_string _) => assertion "typeof response !== 'string'"
  | Reject r => Throw r
  end.

(** The handler, if any, that the client [c] has for the port [port]. *)
Definition handlerAt (w : World) (c : nat) (port : Z) : option AppSignalCb :=
  signalHandlers (clients w c) !! port ≫= id.


(** The install request [installAgentsApps] makes in the iteration [n], for
    the element [appForAgent] and the agent key [agent_key]. *)
Definition installRequestFor (uuidv4 : nat -> string) (options : AgentsAppsOptions)
    (n : nat) (appForAgent : AppForAgent) (agent_key : AgentPubKey)
    : InstallAppRequest :=
  {| bundle_source := app_source appForAgent;
     agent_key := agent_key;
     membrane_proofs := default [] (app_membraneProofs appForAgent);
     install_installed_app_id :=
       default ("app-" +:+ uuidv4 n) (apps_installedAppId options);
     network_seed := apps_networkSeed options |}.



(** ** Reading the cells of an app *)

(** A cell that [enableAndGetAgentApp] can make callable: a provisioned
    cell, or a cloned cell whose [clone_id] is not empty. *)
Definition callable (cellInfo : CellInfo) : bool :=
  match cellInfo with
  | Provisioned _ => true
  | Cloned c => negb (String.eqb (clone_id c) EmptyString)
  | Stem _ => false
  end.

(** The name under which [enableAndGetAgentApp] puts a cell of the role
    [role_name] into [namedCells], with the cell. *)
Definition namedCell (role_name : RoleName) (cellInfo : CellInfo)
    : option (RoleName * (ProvisionedCell + ClonedCell)) :=
  match cellInfo with
  | Provisioned c => Some (role_name, inl c)
  | Cloned c => Some (clone_id c, inr c)
  | Stem _ => None
  end.

(** The named cells an app declares, in the order the loops visit them. *)
Definition declaredNames (cell_info : list (RoleName * list CellInfo))
    : list (RoleName * (ProvisionedCell + ClonedCell)) :=
  flat_map (fun entry => omap (namedCell entry.1) entry.2) cell_info.

(** [Map.prototype.get]. *)
Fixpoint Map_get (key : RoleName) (m : list (RoleName * CallableCell))
    : option CallableCell :=
  match m with
  | [] => None
  | (k, v) :: rest => if String.eqb k key then Some v else Map_get key rest
  end.

(** The last cell declared under the name [key]. *)
Definition lastNamed (key : RoleName)
    (declared : list (RoleName * (ProvisionedCell + ClonedCell)))
    : option (ProvisionedCell + ClonedCell) :=
  last (omap (fun nc => if String.eqb nc.1 key then Some nc.2 else None) declared).

(** The state of the two loops of [enableAndGetAgentApp] after the cells
    [declared] were visited. *)
Definition collected (conductor : nat) (key : AgentPubKey)
    (declared : list (RoleName * (ProvisionedCell + ClonedCell)))
    (cells : list CallableCell) (named : list (RoleName * CallableCell)) : Prop :=
  cells = (fun nc => getCallableCell conductor nc.2 key) <$> declared
  ∧ NoDup named.*1
  ∧ ∀ name, Map_get name named
            = (fun c => getCallableCell conductor c key) <$> lastNamed name declared.

(** An app whose role declares two provisioned cells and a clone. *)
Definition example_cell_info : list (RoleName * list CellInfo) :=
  [("role", [Provisioned {| prov_cell_id := ([Byte.x01], [Byte.x02]);
                            prov_name := "first" |};
             Provisioned {| prov_cell_id := ([Byte.x03], [Byte.x02]);
                            prov_name := "second" |};
             Cloned {| clone_cell_id := ([Byte.x04], [Byte.x02]);
                       clone_id := "role.0";
                       clone_name := "clone" |}])].

(** The install request of [TryCpConductor.installApp] for the agent key
    [agent_key]. *)
Definition installAppRequestOf (uuid : string) (appBundleSource : string + string)
    (options : option AppOptions) (agent_key : AgentPubKey) : InstallAppRequest :=
  {| bundle_source := appBundleSource;
     agent_key := agent_key;
     membrane_proofs := default [] (options ≫= opt_membraneProofs);
     install_installed_app_id :=
       default ("app-" +:+ uuid) (options ≫= opt_installedAppId);
     network_seed := options ≫= opt_networkSeed |}.

(** * Properties of the client *)

Lemma js_incr_exact (n : Z) : n < MAX_EXACT_INTEGER → js_incr n = n + 1.
Proof.
  intros H. unfold js_incr. destruct (Z.ltb_spec n MAX_EXACT_INTEGER); [done | lia].
Qed.

Lemma settlementsOf_app p done1 done2 :
  settlementsOf p (done1 ++ done2) = settlementsOf p done1 ++ settlementsOf p done2.
Proof. unfold settlementsOf. apply omap_app. Qed.

Lemma deletionsOf_app id done1 done2 :
  deletionsOf id (done1 ++ done2) = (deletionsOf id done1 + deletionsOf id done2)%nat.
Proof. unfold deletionsOf. by rewrite omap_app, length_app. Qed.

Lemma sentBy_app done1 done2 :
  sentBy (done1 ++ done2) = sentBy done1 ++ sentBy done2.
Proof. unfold sentBy. apply omap_app. Qed.

(** Case analysis on what the message listener does with a signal. *)
Ltac signal_cases this port data :=
  let cb := fresh "cb" in
  let signal := fresh "signal" in
  let t := fresh "t" in
  destruct (signalHandlers this !! port) as [[cb|]|];
  [destruct data as [signal|t]; [destruct (cb_throws cb signal)|]|..].

(** The message listener sends nothing. *)
Lemma onMessage_sends_nothing (this : TryCpClient) (frame : Frame) :
  sentBy (onMessage this frame).2 = [].
Proof.
  destruct frame as [[port data | id' response | ] | t]; simpl; try done.
  - signal_cases this port data; done.
  - destruct (requestPromises this !! id') as [q|]; [|done].
    by destruct (prop0 response), (prop1 response).
Qed.

(** Handling a frame only removes entries of [requestPromises]. *)
Lemma onMessage_requestPromises (this this' : TryCpClient) (frame : Frame)
    (done : list Effect) (id : Z) (q : PromiseId) :
  onMessage this frame = (this', done) →
  requestPromises this' !! id = Some q → requestPromises this !! id = Some q.
Proof.
  intros Hrun.
  destruct frame as [[port data | id' response | ] | t]; simpl in Hrun.
  - signal_cases this port data; by simplify_eq.
  - destruct (requestPromises this !! id') as [q'|] eqn:Hq; [|by simplify_eq].
    destruct (prop0 response) as [serialized|], (prop1 response) as [reason|];
      simplify_eq; simpl; try done;
      intros [_ H]%lookup_delete_Some; done.
  - by simplify_eq.
  - by simplify_eq.
Qed.

(** A frame that is not a response to [id] leaves the entry of [id] alone;
    it leaves the promise [p] alone unless it answers a request whose entry
    holds [p]. *)
Lemma onMessage_other (this this' : TryCpClient) (frame : Frame)
    (done : list Effect) (id : Z) (p : PromiseId) :
  onMessage this frame = (this', done) →
  frameId frame ≠ Some id →
  (∀ id', frameId frame = Some id' → requestPromises this !! id' ≠ Some p) →
  settlementsOf p done = []
  ∧ deletionsOf id done = 0%nat
  ∧ requestPromises this' !! id = requestPromises this !! id
  ∧ promises this' !! p = promises this !! p.
Proof.
  intros Hrun Hid Hp.
  destruct frame as [[port data | id' response | ] | t]; simpl in Hrun.
  - signal_cases this port data; by simplify_eq.
  - assert (id' ≠ id) as Hne by (simpl in Hid; congruence).
    specialize (Hp id' eq_refl).
    destruct (requestPromises this !! id') as [q|] eqn:Hq; [|by simplify_eq].
    assert (q ≠ p) as Hqp by congruence.
    assert (∀ s, promises (settle q s this) !! p = promises this !! p) as Hsettle.
    { intros s. unfold settle; simpl.
      destruct (promises this !! q) as [[|?]|]; [|done..].
      by apply list_lookup_insert_ne. }
    destruct (prop0 response) as [serialized|], (prop1 response) as [reason|];
      simplify_eq; simpl;
      unfold settlementsOf, deletionsOf; simpl;
      repeat case_decide; simplify_eq; simpl;
      rewrite ?lookup_delete_ne by done;
      split_and!; try done; exact (Hsettle _).
  - by simplify_eq.
  - by simplify_eq.
Qed.

(** Frames none of which answers [id] or a request whose entry holds [p]. *)
Lemma onMessages_other (frames : list Frame) (this this' : TryCpClient)
    (done : list Effect) (id : Z) (p : PromiseId) :
  onMessages this frames = (this', done) →
  Forall (fun frame => frameId frame ≠ Some id) frames →
  Forall (fun frame => ∀ id', frameId frame = Some id' →
                       requestPromises this !! id' ≠ Some p) frames →
  settlementsOf p done = []
  ∧ deletionsOf id done = 0%nat
  ∧ requestPromises this' !! id = requestPromises this !! id
  ∧ promises this' !! p = promises this !! p.
Proof.
  revert this this' done.
  induction frames as [|frame frames IH]; intros this this' done Hrun Hid Hp.
  - by simplify_eq/=.
  - simpl in Hrun.
    destruct (onMessage this frame) as [this1 done1] eqn:H1.
    destruct (onMessages this1 frames) as [this2 done2] eqn:H2.
    simplify_eq.
    apply Forall_cons in Hid as [Hid Hids]. apply Forall_cons in Hp as [Hp Hps].
    destruct (onMessage_other _ _ _ _ id p H1 Hid Hp) as (E1 & E2 & E3 & E4).
    destruct (IH _ _ _ H2 Hids) as (F1 & F2 & F3 & F4).
    { eapply Forall_impl; [exact Hps|]. simpl. intros frame' Hf id' Hid' Hq.
      apply (Hf id' Hid'). eapply onMessage_requestPromises; eauto. }
    rewrite settlementsOf_app, deletionsOf_app, E1, E2, F1, F2, F3, F4, E3, E4.
    done.
Qed.

(** The response to a pending request settles its promise and deletes its
    entry. *)
Lemma onMessage_own (this : TryCpClient) (id : Z) (p : PromiseId)
    (response : TryCpResponse) (s : Settlement) :
  requestPromises this !! id = Some p →
  responseSettlement response = Some s →
  onMessage this (responseFrame id response)
  = (deleteRequestPromise id (settle p s this),
     [Settle p s; DeleteRequestPromise id]).
Proof.
  intros Hp Hs. unfold responseSettlement in Hs. simpl. rewrite Hp.
  destruct (prop0 response), (prop1 response); by simplify_eq.
Qed.

Lemma onMessages_app (this : TryCpClient) (frames1 frames2 : list Frame) :
  onMessages this (frames1 ++ frames2)
  = let '(this1, done1) := onMessages this frames1 in
    let '(this2, done2) := onMessages this1 frames2 in
    (this2, done1 ++ done2).
Proof.
  revert this. induction frames1 as [|frame frames1 IH]; intros this; simpl.
  - by destruct (onMessages this frames2).
  - destruct (onMessage this frame) as [this1 done1].
    rewrite IH. destruct (onMessages this1 frames1) as [this2 done2].
    destruct (onMessages this2 frames2) as [this3 done3].
    by rewrite app_assoc.
Qed.

(** [calls], in closed form. *)
Lemma calls_spec (requests : list TryCpRequest) (requestId : Z) (this : TryCpClient) :
  requestId + Z.of_nat (length requests) ≤ MAX_EXACT_INTEGER →
  ∃ this' done,
    calls requestId this requests
    = (requestId + Z.of_nat (length requests), this',
       seq (length (promises this)) (length requests), done)
    ∧ promises this' = promises this ++ replicate (length requests) Pending
    ∧ signalHandlers this' = signalHandlers this
    ∧ closeListeners this' = closeListeners this
    ∧ sentBy done
      = imap (fun i request => {| call_id := requestId + Z.of_nat i;
                                  call_request := request |}) requests
    ∧ (∀ i : nat, (i < length requests)%nat →
        requestPromises this' !! (requestId + Z.of_nat i)
        = Some (length (promises this) + i)%nat)
    ∧ (∀ id : Z, id < requestId →
        requestPromises this' !! id = requestPromises this !! id).
Proof.
  revert requestId this.
  induction requests as [|request requests IH]; intros requestId this Hmax.
  - eexists _, _. simpl. rewrite Z.add_0_r, app_nil_r.
    split_and!; try done. intros i Hi. simpl in Hi. lia.
  - change (length (request :: requests)) with (S (length requests)) in *.
    simpl calls.
    rewrite js_incr_exact by lia.
    edestruct (IH (requestId + 1)) as
      (this' & done & E & Hpr & Hsh & Hcl & Hsent & Hlk & Hold); [lia|].
    rewrite E. clear E.
    eexists _, _. split; [|split_and!].
    + replace (requestId + Z.of_nat (S (length requests)))
        with (requestId + 1 + Z.of_nat (length requests)) by lia.
      simpl. rewrite length_app. simpl. by rewrite Nat.add_1_r.
    + rewrite Hpr. simpl. by rewrite <-app_assoc.
    + by rewrite Hsh.
    + by rewrite Hcl.
    + simpl. rewrite Hsent. simpl. f_equal.
      * f_equal. lia.
      * apply imap_ext. intros i x _. simpl. f_equal. lia.
    + intros i Hi. destruct i as [|i].
      * rewrite Hold by lia. simpl.
        rewrite Z.add_0_r, Nat.add_0_r. apply lookup_insert_eq.
      * specialize (Hlk i ltac:(lia)).
        simpl in Hlk. rewrite length_app in Hlk. simpl in Hlk.
        replace (requestId + Z.of_nat (S i)) with (requestId + 1 + Z.of_nat i) by lia.
        rewrite Hlk. f_equal. lia.
    + intros id Hid. rewrite Hold by lia. simpl.
      apply lookup_insert_ne. lia.
Qed.

(** ** Correlation of responses and requests *)

(** C1. N calls made concurrently on one client, answered by one well-formed
    response each, in any order of arrival: every call gets a promise of its
    own and sends its own request id; its promise is settled exactly once,
    with the outcome of the response that bears that id; the entry of the id
    is deleted exactly once, by the frame that settles the promise, and is
    gone afterwards. *)
Theorem call_settles_by_own_request_id
    (requestId : Z) (this : TryCpClient) (requests : list TryCpRequest)
    (responses : list TryCpResponse) (frames : list Frame) :
  requestId + Z.of_nat (length requests) ≤ MAX_EXACT_INTEGER →
  length responses = length requests →
  Forall (fun response => is_Some (responseSettlement response)) responses →
  frames ≡ₚ imap (fun i response => responseFrame (requestId + Z.of_nat i) response)
              responses →
  let '(_, this1, ps, sent) := calls requestId this requests in
  let '(this2, done) := onMessages this1 frames in
  NoDup ps
  ∧ ∀ (i : nat) (request : TryCpRequest) (response : TryCpResponse),
      requests !! i = Some request → responses !! i = Some response →
      ∃ (p : PromiseId) (s : Settlement),
        ps !! i = Some p
        ∧ sentBy sent !! i
          = Some {| call_id := requestId + Z.of_nat i; call_request := request |}
        ∧ responseSettlement response = Some s
        ∧ settlementsOf p done = [s]
        ∧ promiseState this2 p = Settled s
        ∧ deletionsOf (requestId + Z.of_nat i) done = 1%nat
        ∧ (∃ before after,
             done = before
                    ++ [Settle p s; DeleteRequestPromise (requestId + Z.of_nat i)]
                    ++ after)
        ∧ requestPromises this2 !! (requestId + Z.of_nat i) = None.
Proof.
  intros Hmax Hlen Hwf Hperm.
  destruct (calls_spec requests requestId this Hmax) as
    (this1 & sent & -> & Hpr & _ & _ & Hsent & Hlk & _).
  destruct (onMessages this1 frames) as [this2 done] eqn:Hrun.
  split; [apply NoDup_seq|].
  intros i request response Hreq Hresp.
  assert (i < length requests)%nat as Hi by (by eapply lookup_lt_Some).
  set (expected := imap (fun i response =>
                           responseFrame (requestId + Z.of_nat i) response)
                        responses) in *.
  set (id := requestId + Z.of_nat i) in *.
  set (p := (length (promises this) + i)%nat).
  destruct (Forall_lookup_1 _ _ _ _ Hwf Hresp) as [s Hs].
  exists p, s.
  assert (expected !! i = Some (responseFrame id response)) as Hexp.
  { unfold expected. rewrite list_lookup_imap, Hresp. done. }
  (* the frame of the call, and the frames before and after it *)
  assert (responseFrame id response ∈ frames) as Hin.
  { rewrite Hperm. by eapply list_elem_of_lookup_2. }
  apply list_elem_of_split in Hin as (frames1 & frames2 & ->).
  assert (frames1 ++ frames2 ≡ₚ delete i expected) as Hothers.
  { apply (Permutation_cons_inv (a := responseFrame id response)).
    rewrite <-(delete_Permutation expected i) by done.
    by rewrite <-Hperm, Permutation_middle. }
  assert (∀ frame, frame ∈ frames1 ++ frames2 →
            ∃ j response', j ≠ i ∧ (j < length requests)%nat
              ∧ frame = responseFrame (requestId + Z.of_nat j) response') as Hother.
  { intros frame Hframe. rewrite Hothers in Hframe.
    apply list_elem_of_lookup in Hframe as [j Hj].
    destruct (decide (j < i)%nat).
    - rewrite list_lookup_delete_lt in Hj by done.
      unfold expected in Hj. rewrite list_lookup_imap in Hj.
      destruct (responses !! j) as [response'|] eqn:Hr; simplify_eq/=.
      apply lookup_lt_Some in Hr. exists j, response'. split_and!; [lia|lia|done].
    - rewrite list_lookup_delete_ge in Hj by lia.
      unfold expected in Hj. rewrite list_lookup_imap in Hj.
      destruct (responses !! S j) as [response'|] eqn:Hr; simplify_eq/=.
      apply lookup_lt_Some in Hr. exists (S j), response'. split_and!; [lia|lia|done]. }
  assert (∀ this0 frames0, frames0 ⊆ frames1 ++ frames2 →
            (∀ id' q, requestPromises this0 !! id' = Some q →
                      requestPromises this1 !! id' = Some q) →
            Forall (fun frame => frameId frame ≠ Some id) frames0
            ∧ Forall (fun frame => ∀ id', frameId frame = Some id' →
                         requestPromises this0 !! id' ≠ Some p) frames0) as Hside.
  { intros this0 frames0 Hsub Hshrink. split; apply Forall_forall; intros frame Hf;
      destruct (Hother frame (Hsub _ Hf)) as (j & response' & Hj & Hjlen & ->); simpl.
    - unfold id. intros [=]. lia.
    - intros id' [= <-] Hq. apply Hshrink in Hq. rewrite Hlk in Hq by done.
      unfold p in Hq. simplify_eq. lia. }
  rewrite onMessages_app in Hrun.
  destruct (onMessages this1 frames1) as [thisA doneA] eqn:HA.
  cbn [onMessages] in Hrun.
  assert (requestPromises thisA !! id = Some p
          ∧ promises thisA !! p = Some Pending
          ∧ settlementsOf p doneA = [] ∧ deletionsOf id doneA = 0%nat)
    as (HAid & HAp & HAs & HAd).
  { destruct (Hside this1 frames1) as [H1 H2];
      [intros x Hx; apply elem_of_app; by left|done|].
    destruct (onMessages_other _ _ _ _ id p HA H1 H2) as (E1 & E2 & E3 & E4).
    rewrite E1, E2, E3, E4.
    split_and!; try done.
    - by apply Hlk.
    - rewrite Hpr, lookup_app_r by (unfold p; lia).
      apply lookup_replicate_2. unfold p. lia. }
  rewrite (onMessage_own thisA id p response s HAid Hs) in Hrun.
  destruct (onMessages (deleteRequestPromise id (settle p s thisA)) frames2)
    as [thisB doneB] eqn:HB.
  simplify_eq.
  destruct (Hside (deleteRequestPromise id (settle p s thisA)) frames2) as [H1 H2].
  { intros x Hx. apply elem_of_app. by right. }
  { simpl. intros id' q [_ Hq]%lookup_delete_Some.
    clear -HA Hq. revert this1 thisA doneA HA Hq.
    induction frames1 as [|frame frames1 IH]; intros this1 thisA doneA HA Hq.
    - by simplify_eq/=.
    - simpl in HA. destruct (onMessage this1 frame) as [thisC doneC] eqn:HC.
      destruct (onMessages thisC frames1) as [thisD doneD] eqn:HD. simplify_eq.
      eapply onMessage_requestPromises; [exact HC|]. eapply IH; eauto. }
  destruct (onMessages_other _ _ _ _ id p HB H1 H2) as (HBs & HBd & HBid & HBp).
  split_and!.
  - unfold p. apply lookup_seq. lia.
  - rewrite Hsent, list_lookup_imap, Hreq. done.
  - done.
  - rewrite !settlementsOf_app, HAs, HBs. unfold settlementsOf. simpl.
    by rewrite decide_True.
  - unfold promiseState. rewrite HBp. simpl. rewrite HAp.
    rewrite list_lookup_insert_eq; [done|]. by eapply lookup_lt_Some.
  - rewrite !deletionsOf_app, HAd, HBd. unfold deletionsOf. simpl.
    by rewrite decide_True.
  - by exists doneA, doneB.
  - rewrite HBid. simpl. apply lookup_delete_eq.
Qed.

(** C1, at a concrete instance: three calls, with the request ids 7, 8 and
    9, answered in reverse order. *)
Lemma call_settles_by_own_request_id_witness :
  7 + Z.of_nat (length example_requests) ≤ MAX_EXACT_INTEGER
  ∧ length example_responses = length example_requests
  ∧ Forall (fun response => is_Some (responseSettlement response)) example_responses
  ∧ example_frames
    ≡ₚ imap (fun i response => responseFrame (7 + Z.of_nat i) response)
         example_responses
  ∧ let '(_, this1, ps, sent) := calls 7 new_TryCpClient example_requests in
    let '(this2, done) := onMessages this1 example_frames in
    ∃ p, ps !! 1%nat = Some p
         ∧ settlementsOf p done = [Resolve (response_api agent_info_added)]
         ∧ deletionsOf 8 done = 1%nat.
Proof.
  assert (7 + Z.of_nat (length example_requests) ≤ MAX_EXACT_INTEGER) as Hmax
    by (vm_compute; discriminate).
  assert (Forall (fun response => is_Some (responseSettlement response))
                 example_responses) as Hwf
    by (repeat constructor; vm_compute; eauto).
  assert (example_frames
          ≡ₚ imap (fun i response => responseFrame (7 + Z.of_nat i) response)
               example_responses) as Hperm
    by (simpl; apply Permutation_rev).
  split_and!; [exact Hmax|reflexivity|exact Hwf|exact Hperm|].
  pose proof (call_settles_by_own_request_id 7 new_TryCpClient example_requests
                example_responses example_frames Hmax eq_refl Hwf Hperm) as H.
  destruct (calls 7 new_TryCpClient example_requests) as [[[? this1] ps] sent].
  destruct (onMessages this1 example_frames) as [this2 done].
  destruct H as [_ H].
  destruct (H 1%nat (shutdown "b") (success agent_info_added) eq_refl eq_refl)
    as (p & s & Hp & _ & Hs & Hsettled & _ & Hdeleted & _).
  exists p. vm_compute in Hs. injection Hs as <-. done.
Defined.

(** C3. A response frame whose id has no entry in [requestPromises] is
    printed with [console.error] and dropped: the client is left exactly as
    it was, no promise is settled and no entry deleted, and the frames that
    follow are handled as if it had never arrived. *)
Theorem unknown_response_id_is_logged_and_dropped
    (this : TryCpClient) (id : Z) (response : TryCpResponse) :
  requestPromises this !! id = None →
  onMessage this (responseFrame id response)
  = (this, [Log (console_error UNDEFINED_ENTRY)])
  ∧ ∀ frames : list Frame,
      onMessages this (responseFrame id response :: frames)
      = ((onMessages this frames).1,
         Log (console_error UNDEFINED_ENTRY) :: (onMessages this frames).2).
Proof.
  intros Hid.
  assert (onMessage this (responseFrame id response)
          = (this, [Log (console_error UNDEFINED_ENTRY)])) as Hstep.
  { simpl. by rewrite Hid. }
  split; [done|].
  intros frames. cbn [onMessages]. rewrite Hstep.
  by destruct (onMessages this frames).
Qed.

Lemma unknown_response_id_is_logged_and_dropped_witness :
  requestPromises example_client !! 5 = None
  ∧ onMessage example_client (responseFrame 5 (failure "stale"))
    = (example_client, [Log (console_error UNDEFINED_ENTRY)]).
Proof.
  split; [reflexivity|].
  apply (unknown_response_id_is_logged_and_dropped example_client 5 (failure "stale")).
  reflexivity.
Defined.

(** ** Signals *)

(** C5. The handler table holds one handler per port and the last
    registration wins; a signal for a port is handed to the handler
    registered last, and to no other; a signal for a port without handler
    is logged at level info and dropped: nothing is thrown or printed as an
    error, the client is left exactly as it was (no queue, the other ports
    and the pending requests untouched), so that a handler registered
    afterwards sees only later signals. *)
Theorem signal_goes_to_last_registered_handler
    (this : TryCpClient) (port : Z) (first : option AppSignalCb)
    (last : AppSignalCb) (signal : AppSignal) (data : Decoded AppSignal) :
  (* one handler per port, last write wins *)
  setSignalHandler (setSignalHandler this port first) port (Some last)
  = setSignalHandler this port (Some last)
  ∧ signalHandlers (setSignalHandler this port (Some last)) !! port
    = Some (Some last)
  ∧ (∀ other : Z, other ≠ port →
       signalHandlers (setSignalHandler this port (Some last)) !! other
       = signalHandlers this !! other)
  (* delivery to the handler registered last *)
  ∧ (let '(this', done) :=
       onMessage (setSignalHandler (setSignalHandler this port first) port (Some last))
                 (signalFrame port signal) in
     this' = setSignalHandler this port (Some last)
     ∧ handledBy done = [(cb_id last, signal)])
  (* no handler: after a registration was cleared, or never made *)
  ∧ (let unregistered := setSignalHandler this port None in
     onMessage unregistered (Returns (signal_wrapper port data))
     = (unregistered, [Log info_no_signal_handler])
     ∧ ∀ frames : list Frame,
         onMessages (setSignalHandler
                       (onMessage unregistered (Returns (signal_wrapper port data))).1
                       port (Some last)) frames
         = onMessages (setSignalHandler unregistered port (Some last)) frames)
  ∧ (signalHandlers this !! port = None →
     onMessage this (Returns (signal_wrapper port data))
     = (this, [Log info_no_signal_handler])).
Proof.
  assert (∀ h h', setSignalHandler (setSignalHandler this port h) port h'
                  = setSignalHandler this port h') as Hlast.
  { intros h h'. unfold setSignalHandler. simpl. by rewrite insert_insert_eq. }
  split_and!.
  - apply Hlast.
  - simpl. apply lookup_insert_eq.
  - intros other Hother. simpl. by apply lookup_insert_ne.
  - rewrite Hlast. simpl. rewrite lookup_insert_eq.
    by destruct (cb_throws last signal).
  - simpl. rewrite lookup_insert_eq. done.
  - intros Hnone. simpl. by rewrite Hnone.
Qed.

Lemma signal_goes_to_last_registered_handler_witness :
  signalHandlers new_TryCpClient !! 30000 = None
  ∧ onMessage new_TryCpClient (signalFrame 30000 example_signal)
    = (new_TryCpClient, [Log info_no_signal_handler])
  ∧ handledBy (onMessage (setSignalHandler
                            (setSignalHandler new_TryCpClient 30000
                               (Some (example_handler 1)))
                            30000 (Some (example_handler 2)))
                 (signalFrame 30000 example_signal)).2
    = [(2%nat, example_signal)].
Proof.
  pose proof (signal_goes_to_last_registered_handler new_TryCpClient 30000
                (Some (example_handler 1)) (example_handler 2) example_signal
                (Returns example_signal)) as (_ & _ & _ & Hlast & _ & Hnone).
  split; [reflexivity|]. split; [exact (Hnone eq_refl)|].
  destruct (onMessage _ _) as [this' done]. apply Hlast.
Defined.

(** ** Closing the connection *)

(** C2, as the code has it: [close] closes the socket with code 1000 and
    registers a listener for the close event, and the close event resolves
    the close promise; neither settles a promise of a pending call nor
    touches [requestPromises]. *)
Theorem close_leaves_pending_calls_pending (this : TryCpClient) (code : Z) :
  let '(this1, done1) := close this in
  let '(this2, done2) := onClose this1 code in
  done1 = [WsClose 1000]
  ∧ requestPromises this2 = requestPromises this
  ∧ promises this2 = promises this
  ∧ (∀ p, settlementsOf p (done1 ++ done2) = [])
  ∧ rejectionsIn (done1 ++ done2) = [].
Proof.
  simpl. split_and!; try done.
  - intros p. induction (closeListeners this); simpl; done.
  - induction (closeListeners this); simpl; done.
Qed.

(** C2 fails at K = 1: a call is pending when the client is closed and the
    socket reports the close; one rejection is claimed, none happens, and
    the promise of the call is still pending. *)
Lemma close_rejects_no_pending_call :
  let '(_, this, p, _) := call 0 new_TryCpClient (shutdown "conductor-0") in
  let '(this1, done1) := close this in
  let '(this2, done2) := onClose this1 1000 in
  size (requestPromises this) = 1%nat
  ∧ length (rejectionsIn (done1 ++ done2)) ≠ size (requestPromises this)
  ∧ promiseState this2 p = Pending
  ∧ requestPromises this2 !! 0 = Some p.
Proof. vm_compute. split_and!; [done|lia|done|done]. Qed.

(** * Properties of the event loop *)

Lemma sentIn_app tr1 tr2 : sentIn (tr1 ++ tr2) = sentIn tr1 ++ sentIn tr2.
Proof. unfold sentIn. apply omap_app. Qed.

Lemma sentIn_map_pair (c : nat) (done : list Effect) :
  sentIn (map (pair c) done) = map (pair c) (sentBy done).
Proof.
  induction done as [|e done IH]; [done|].
  unfold sentIn, sentBy in *.
  destruct e; simpl; try exact IH. f_equal. exact IH.
Qed.

(** What a delivery leaves alone. *)
Lemma deliver_preserves (w : World) (a : Arrival) :
  requestId (deliver w a) = requestId w
  ∧ conductors (deliver w a) = conductors w
  ∧ getSigningCredentials (deliver w a) = getSigningCredentials w
  ∧ signZomeCall (deliver w a) = signZomeCall w
  ∧ sentIn (trace (deliver w a)) = sentIn (trace w).
Proof.
  unfold deliver.
  pose proof (onMessage_sends_nothing (clients w a.1) a.2) as Hs.
  destruct (onMessage (clients w a.1) a.2) as [this' done]. simpl in *.
  split_and!; try done.
  by rewrite sentIn_app, sentIn_map_pair, Hs, app_nil_r.
Qed.

Lemma delivers_preserves (arrivals : list Arrival) (w : World) :
  requestId (delivers w arrivals) = requestId w
  ∧ conductors (delivers w arrivals) = conductors w
  ∧ getSigningCredentials (delivers w arrivals) = getSigningCredentials w
  ∧ signZomeCall (delivers w arrivals) = signZomeCall w
  ∧ sentIn (trace (delivers w arrivals)) = sentIn (trace w).
Proof.
  revert w. induction arrivals as [|a arrivals IH]; intros w; [done|].
  simpl. destruct (IH (deliver w a)) as (-> & -> & -> & -> & ->).
  apply deliver_preserves.
Qed.


Lemma deliver_clients (w : World) (a : Arrival) (c : nat) :
  clients (deliver w a) c
  = if decide (a.1 = c) then (onMessage (clients w c) a.2).1 else clients w c.
Proof.
  unfold deliver. destruct a as [c' frame]. simpl.
  destruct (onMessage (clients w c') frame) as [this' done] eqn:H. simpl.
  case_decide as Hc.
  - subst c'. rewrite fn_lookup_insert. by rewrite H.
  - by rewrite fn_lookup_insert_ne.
Qed.

(** What [clientCall] does to a world. *)
Lemma clientCall_spec (w : World) (c : nat) (request : TryCpRequest) :
  let w' := (clientCall w c request).1 in
  (clientCall w c request).2 = length (promises (clients w c))
  ∧ requestId w' = js_incr (requestId w)
  ∧ conductors w' = conductors w
  ∧ getSigningCredentials w' = getSigningCredentials w
  ∧ signZomeCall w' = signZomeCall w
  ∧ sentIn (trace w')
    = sentIn (trace w) ++ [(c, {| call_id := requestId w; call_request := request |})].
Proof.
  unfold clientCall. simpl. split_and!; try done.
  by rewrite sentIn_app.
Qed.

(** A finished task stays as it is while frames keep arriving. *)
Lemma steps_finished {A : Type} (o : Outcome A) (w : World) (arrivals : list Arrival) :
  steps (Finished o) w arrivals = (Finished o, delivers w arrivals).
Proof.
  revert w. induction arrivals as [|a arrivals IH]; intros w; [done|].
  simpl. apply IH.
Qed.



Lemma exec_Ret {A : Type} (a : A) (w : World) (arrivals : list Arrival) :
  exec (Ret a) w arrivals = (Finished (Fulfilled a), delivers w arrivals).
Proof. unfold exec. simpl. apply steps_finished. Qed.

Lemma exec_Throw {A : Type} (r : TryCpResponseErrorValue) (w : World)
    (arrivals : list Arrival) :
  exec (Throw r : Task A) w arrivals = (Finished (Rejected r), delivers w arrivals).
Proof. unfold exec. simpl. apply steps_finished. Qed.





(** ** The request id counter *)

(** C4, as the code has it: [requestId] is one counter for all the clients
    of the module. Calls made one after the other, on whichever clients,
    send the consecutive values of the counter, so no two of them send the
    same id; the first call on a client sends the number of calls made
    before it on all clients. *)
Theorem request_ids_come_from_one_shared_counter
    (cs : list (nat * TryCpRequest)) (w : World) :
  requestId w + Z.of_nat (length cs) ≤ MAX_EXACT_INTEGER →
  requestId (worldCalls w cs) = requestId w + Z.of_nat (length cs)
  ∧ newlySent w (worldCalls w cs)
    = imap (fun i cr => (cr.1, {| call_id := requestId w + Z.of_nat i;
                                  call_request := cr.2 |})) cs
  ∧ NoDup ((fun ce : nat * TryCpCall => call_id ce.2)
             <$> newlySent w (worldCalls w cs)).
Proof.
  intros Hmax.
  assert (requestId (worldCalls w cs) = requestId w + Z.of_nat (length cs)
          ∧ sentIn (trace (worldCalls w cs))
            = sentIn (trace w)
              ++ imap (fun i cr => (cr.1, {| call_id := requestId w + Z.of_nat i;
                                             call_request := cr.2 |})) cs)
    as [Hid Hsent].
  { revert w Hmax. induction cs as [|[c request] cs IH]; intros w Hmax.
    - simpl. by rewrite Z.add_0_r, app_nil_r.
    - change (length ((c, request) :: cs)) with (S (length cs)) in *.
      cbn [worldCalls].
      destruct (clientCall_spec w c request) as (_ & Hid & _ & _ & _ & Hsent).
      rewrite js_incr_exact in Hid by lia.
      destruct (IH (clientCall w c request).1) as [-> ->]; [rewrite Hid; lia|].
      rewrite Hid, Hsent, <-app_assoc. split; [lia|].
      f_equal. rewrite imap_cons. cbn [app fst snd]. rewrite Z.add_0_r.
      f_equal. apply imap_ext. intros i x _. unfold compose.
      replace (requestId w + 1 + Z.of_nat i) with (requestId w + Z.of_nat (S i)) by lia.
      done. }
  assert (newlySent w (worldCalls w cs)
          = imap (fun i cr => (cr.1, {| call_id := requestId w + Z.of_nat i;
                                        call_request := cr.2 |})) cs) as Hnew.
  { unfold newlySent. by rewrite Hsent, drop_app_length. }
  split_and!; try done.
  rewrite Hnew. apply NoDup_alt. intros i j id.
  rewrite !list_lookup_fmap, !list_lookup_imap.
  destruct (cs !! i), (cs !! j); simpl; intros; simplify_eq/=. lia.
Qed.

Lemma request_ids_come_from_one_shared_counter_witness :
  requestId example_world + Z.of_nat (length example_calls) ≤ MAX_EXACT_INTEGER
  ∧ requestId (worldCalls example_world example_calls) = 2
  ∧ NoDup ((fun ce : nat * TryCpCall => call_id ce.2)
             <$> newlySent example_world (worldCalls example_world example_calls)).
Proof.
  assert (requestId example_world + Z.of_nat (length example_calls)
          ≤ MAX_EXACT_INTEGER) as Hmax by (vm_compute; discriminate).
  split; [exact Hmax|].
  destruct (request_ids_come_from_one_shared_counter example_calls example_world Hmax)
    as (Hid & _ & Hnodup).
  split; [exact Hid | exact Hnodup].
Defined.

(** C4 fails for a second client: after one call on the client 0, the
    client 1 is still as its constructor made it, and its first call sends
    the id 1. *)
Lemma first_call_on_a_new_client_does_not_send_0 :
  clients (worldCalls example_world (take 1 example_calls)) 1%nat = new_TryCpClient
  ∧ newlySent (worldCalls example_world (take 1 example_calls))
              (worldCalls example_world example_calls)
    = [(1%nat, {| call_id := 1; call_request := shutdown "conductor-1" |})].
Proof. split; reflexivity. Qed.

(** * Properties of the conductor handle *)






(** ** Installing an app *)



(** ** Attaching an app interface *)

(** C8, as the code has it: the handle has a single field for the port, so
    it records at most one; [attachAppInterface] sends the attach command
    whatever the field holds, and when the response is
    ["app_interface_attached"] it returns the port of the response and
    records the requested port, in place of a port recorded before. *)
Theorem attachAppInterface_records_the_last_attached_port
    (w : World) (h : nat) (freePort : Z) (request : option Z) :
  let port := default freePort request in
  ∃ p k,
    start (attachAppInterface h freePort request) w
    = (Waiting (tryCpClient (conductors w h)) p k,
       (clientCall w (tryCpClient (conductors w h))
          (call_admin_interface (conductor_id (conductors w h))
             (attach_app_interface port))).1)
    ∧ ∀ (w' : World) (attached : Z),
        start (k (Resolve (response_api (app_interface_attached attached)))) w'
        = (Finished (Fulfilled attached), setAppInterfacePort w' h port)
        ∧ appInterfacePort (conductors (setAppInterfacePort w' h port) h) = Some port.
Proof.
  eexists _, _. split; [reflexivity|].
  intros w' attached. split; [reflexivity|].
  simpl. by rewrite fn_lookup_insert.
Qed.

(** C8 fails: on a handle that has the port 30000 attached, attaching the
    port 30001 succeeds and the handle records 30001. *)
Lemma attachAppInterface_twice_replaces_the_port :
  appInterfacePort (conductors example_world_attached 0%nat) = Some 30000
  ∧ match exec (attachAppInterface 0%nat 31000 (Some 30001)) example_world_attached
                [(0%nat, responseFrame 0 (success (app_interface_attached 30001)))] with
    | (s, w) => s = Finished (Fulfilled 30001)
                ∧ appInterfacePort (conductors w 0%nat) = Some 30001
    end.
Proof. vm_compute. done. Qed.

(** ** Zome calls *)

(** C10. [callZome] with an unsigned request for a cell without signing
    credentials ends at once with the error "cannot sign zome call: ...":
    the world is left exactly as it was (nothing is sent, no request is
    registered), and frames that arrive later do not change the outcome.
    The same holds for the [callZome] of a callable cell of that cell. *)
Theorem callZome_without_credentials_throws_locally
    (w : World) (h : nat) (request : CallZomeRequest) :
  getSigningCredentials w (cell_id request) = None →
  start (callZome h (inl request)) w
  = (Finished (Rejected (NO_SIGNING_CREDENTIALS (cell_id request))), w)
  ∧ NO_SIGNING_CREDENTIALS (cell_id request)
    = error_object (Error
        ("cannot sign zome call: no signing credentials have been authorized for cell "
         +:+ CellId_toString (cell_id request)))
  ∧ (∀ arrivals : list Arrival,
       exec (callZome h (inl request)) w arrivals
       = (Finished (Rejected (NO_SIGNING_CREDENTIALS (cell_id request))),
          delivers w arrivals))
  ∧ (∀ (cell : ProvisionedCell + ClonedCell) (agentPubKey : AgentPubKey)
       (cellRequest : CellZomeCallRequest) (timeout : option Z),
       cell_cell_id cell = cell_id request →
       start (cell_callZome (getCallableCell h cell agentPubKey) cellRequest timeout) w
       = (Finished (Rejected (NO_SIGNING_CREDENTIALS (cell_id request))), w)).
Proof.
  intros Hnone.
  assert (start (callZome h (inl request)) w
          = (Finished (Rejected (NO_SIGNING_CREDENTIALS (cell_id request))), w))
    as Hstart.
  { simpl. by rewrite Hnone. }
  split_and!; try done.
  - intros arrivals. unfold exec. rewrite Hstart. apply steps_finished.
  - intros cell key cellRequest timeout Hcell. simpl. rewrite Hcell, Hnone. done.
Qed.

Lemma callZome_without_credentials_throws_locally_witness :
  getSigningCredentials example_world ([Byte.x01], [Byte.x02]) = None
  ∧ start (cell_callZome (getCallableCell 0%nat example_cell [Byte.x02])
             example_zome_call None) example_world
    = (Finished (Rejected (error_object (Error
         "cannot sign zome call: no signing credentials have been authorized for cell 1,2"))),
       example_world).
Proof.
  split; [reflexivity|].
  pose proof (callZome_without_credentials_throws_locally example_world 0%nat
    {| cap_secret := None; cell_id := ([Byte.x01], [Byte.x02]);
       zome_name := "coordinator"; fn_name := "create";
       provenance := [Byte.x02]; payload := Some [Byte.x68; Byte.x69] |}
    eq_refl) as (_ & _ & _ & H).
  exact (H example_cell [Byte.x02] example_zome_call None eq_refl).
Defined.




(** * Properties of the orchestration helpers *)

Lemma sendsBetween_refl (w : World) : sendsBetween w w [].
Proof. exists []. by rewrite app_nil_r. Qed.

Lemma sendsBetween_trans (w1 w2 w3 : World) (r12 r23 : list (nat * TryCpRequest)) :
  sendsBetween w1 w2 r12 → sendsBetween w2 w3 r23 → sendsBetween w1 w3 (r12 ++ r23).
Proof.
  intros (s12 & H12 & <-) (s23 & H23 & <-). exists (s12 ++ s23).
  by rewrite H23, H12, <-app_assoc, fmap_app.
Qed.

Lemma sendsBetween_clientCall (w : World) (c : nat) (request : TryCpRequest) :
  sendsBetween w (clientCall w c request).1 [(c, request)].
Proof.
  destruct (clientCall_spec w c request) as (_ & _ & _ & _ & _ & Hsent).
  eexists. split; [exact Hsent|done].
Qed.

Lemma sendsBetween_deliver (w : World) (a : Arrival) : sendsBetween w (deliver w a) [].
Proof.
  destruct (deliver_preserves w a) as (_ & _ & _ & _ & Hsent).
  exists []. by rewrite Hsent, app_nil_r.
Qed.

Lemma sendsBetween_newlySent (w w' : World) (requests : list (nat * TryCpRequest)) :
  sendsBetween w w' requests →
  (fun ce : nat * TryCpCall => (ce.1, call_request ce.2)) <$> newlySent w w' = requests.
Proof.
  intros (sent & Hsent & <-). unfold newlySent. by rewrite Hsent, drop_app_length.
Qed.

(** A call leaves the state of every promise as it is. *)
Lemma promiseState_clientCall (w : World) (c : nat) (request : TryCpRequest)
    (c' p : nat) :
  promiseState (clients (clientCall w c request).1 c') p
  = promiseState (clients w c') p.
Proof.
  unfold clientCall. simpl.
  destruct (decide (c = c')) as [<-|Hne].
  - rewrite fn_lookup_insert. unfold promiseState. simpl.
    destruct (decide (p < length (promises (clients w c)))%nat).
    + by rewrite lookup_app_l.
    + rewrite lookup_app_r by lia. rewrite (lookup_ge_None_2 (promises _)) by lia.
      by destruct (p - _)%nat as [|[|?]].
  - by rewrite fn_lookup_insert_ne.
Qed.

(** A settled promise stays as it is when a frame arrives. *)
Lemma promiseState_onMessage (this : TryCpClient) (frame : Frame) (p : nat)
    (s : Settlement) :
  promiseState this p = Settled s →
  promiseState (onMessage this frame).1 p = Settled s.
Proof.
  intros Hp.
  assert (∀ q s', promiseState (settle q s' this) p = Settled s) as Hsettle.
  { intros q s'. unfold promiseState, settle in *. simpl.
    destruct (promises this !! q) as [[|?]|] eqn:Hq; try done.
    destruct (decide (q = p)) as [->|Hne].
    - by rewrite Hq in Hp.
    - by rewrite list_lookup_insert_ne. }
  destruct frame as [[port data | id' response | ] | t]; simpl; try done.
  - signal_cases this port data; done.
  - destruct (requestPromises this !! id') as [q|]; [|done].
    destruct (prop0 response), (prop1 response); simpl; try done; apply Hsettle.
Qed.

Lemma promiseState_deliver (w : World) (a : Arrival) (c p : nat) (s : Settlement) :
  promiseState (clients w c) p = Settled s →
  promiseState (clients (deliver w a) c) p = Settled s.
Proof.
  intros Hp. rewrite deliver_clients. case_decide; [|done].
  by apply promiseState_onMessage.
Qed.

(** A call of [addAgentInfo] that is not awaited sends its request, and
    the caller goes on. *)
Lemma start_spawn_addAgentInfo {A : Type} (h : nat) (infos : list AgentInfoSigned)
    (k : Task A) (w : World) :
  start (spawn (addAgentInfo h infos) k) w
  = start k (clientCall w (tryCpClient (conductors w h))
               (call_admin_interface (conductor_id (conductors w h))
                  (add_agent_info infos))).1.
Proof. reflexivity. Qed.

(** [shareWith] runs to its end at once and sends one request to every
    conductor but the one the agent infos come from. *)
Lemma start_shareWith (handles : list nat) (about : nat)
    (infos : list AgentInfoSigned) (first : nat) (w : World) :
  ∃ w', start (shareWith about infos first handles) w = (Finished (Fulfilled tt), w')
        ∧ conductors w' = conductors w
        ∧ sendsBetween w w' (addRequests w about infos first handles)
        ∧ ∀ c p, promiseState (clients w' c) p = promiseState (clients w c) p.
Proof.
  revert first w.
  induction handles as [|h handles IH]; intros first w.
  - exists w. split_and!; try done. apply sendsBetween_refl.
  - cbn [shareWith addRequests]. case_decide as Hne.
    + rewrite start_spawn_addAgentInfo.
      set (c := tryCpClient (conductors w h)).
      set (request := call_admin_interface _ _).
      remember (clientCall w c request).1 as w1 eqn:Hw1.
      destruct (IH (S first) w1) as (w' & Hstart & Hcond & Hsends & Hpromises).
      exists w'. rewrite Hstart.
      destruct (clientCall_spec w c request) as (_ & _ & Hcond1 & _ & _ & _).
      rewrite <-Hw1 in Hcond1.
      split_and!; try done.
      * by rewrite Hcond, Hcond1.
      * apply (sendsBetween_trans w w1 w');
          [rewrite Hw1; apply sendsBetween_clientCall|].
        replace (addRequests w about infos (S first) handles)
          with (addRequests w1 about infos (S first) handles); [done|].
        clear -Hcond1. generalize (S first).
        induction handles as [|h' handles IH]; intros n; [done|].
        simpl. unfold adminRequest. by rewrite IH, Hcond1.
      * intros c' p. rewrite Hpromises, Hw1. apply promiseState_clientCall.
    + destruct (IH (S first) w) as (w' & Hstart & Hcond & Hsends & Hpromises).
      exists w'. split_and!; done.
Qed.

(** The requests [shareWith] sends depend on the world only through its
    handles. *)
Lemma addRequests_conductors (w w' : World) (about : nat)
    (infos : list AgentInfoSigned) (first : nat) (handles : list nat) :
  conductors w' = conductors w →
  addRequests w' about infos first handles
  = addRequests w about infos first handles.
Proof.
  intros Hcond. revert first.
  induction handles as [|h handles IH]; intros first; [done|].
  simpl. unfold adminRequest. by rewrite IH, Hcond.
Qed.

(** They go to every conductor of the array but the one at [about]. *)
Lemma addRequests_delete (w : World) (about : nat) (infos : list AgentInfoSigned)
    (first : nat) (handles : list nat) :
  addRequests w about infos first handles
  = (fun h => adminRequest w h (add_agent_info infos))
      <$> (if decide (about < first)%nat then handles
           else delete (about - first)%nat handles).
Proof.
  revert first. induction handles as [|h handles IH]; intros first.
  - by case_decide.
  - cbn [addRequests]. rewrite IH. repeat case_decide; try lia.
    + done.
    + replace (about - first)%nat with (S (about - S first)) by lia. done.
    + replace (about - first)%nat with 0%nat by lia. done.
Qed.

(** The callback of the outer [map] sends its request for the agent infos
    at once and suspends. *)
Lemma start_shareAbout (handles : list nat) (about h : nat) (w : World) :
  ∃ p k,
    start (shareAbout handles about h) w
    = (Waiting (tryCpClient (conductors w h)) p k,
       (clientCall w (tryCpClient (conductors w h))
          (call_admin_interface (conductor_id (conductors w h))
             (agent_info None))).1)
    ∧ awaitsAgentInfos handles about k.
Proof.
  eexists _, _. split; [reflexivity|]. split.
  - reflexivity.
  - intros [[| |[]]|] Hs; simpl; eauto. by destruct (Hs data).
Qed.

(** [conductors.map(...)]: every callback sends its request and suspends. *)
Lemma startAll_shareAbout (handles suffix : list nat) (first : nat) (w : World) :
  ∃ started w0,
    startAll (imap (fun i => shareAbout handles (first + i)) suffix) w
    = ({| members := started; firstRejection := None |}, w0)
    ∧ length started = length suffix
    ∧ (∀ i st, started !! i = Some st →
         ∃ c p k, st = Waiting c p k ∧ awaitsAgentInfos handles (first + i) k)
    ∧ sendsBetween w w0 (fetchRequests w suffix)
    ∧ conductors w0 = conductors w.
Proof.
  revert first w. induction suffix as [|h suffix IH]; intros first w.
  - exists [], w. split_and!; try done. apply sendsBetween_refl.
  - rewrite imap_cons. cbn [startAll].
    destruct (start_shareAbout handles (first + 0) h w) as (p & k & -> & Hk).
    set (w1 := (clientCall w _ _).1).
    destruct (IH (S first) w1) as (started & w0 & Hstart & Hlen & Hst & Hsends & Hcond).
    assert (conductors w1 = conductors w) as Hcond1.
    { unfold w1. by destruct (clientCall_spec w (tryCpClient (conductors w h))
        (call_admin_interface (conductor_id (conductors w h)) (agent_info None)))
        as (_ & _ & ? & _). }
    rewrite (imap_ext _ (fun i => shareAbout handles (S first + i)) suffix).
    2:{ intros i x _. unfold compose. f_equal. lia. }
    rewrite Hstart. eexists _, w0. split; [reflexivity|]. split_and!.
    + simpl. by rewrite Hlen.
    + intros [|i] st Hi; simpl in Hi.
      * simplify_eq. by eexists _, _, _.
      * destruct (Hst i st Hi) as (c & p' & k' & -> & Hk').
        replace (first + S i)%nat with (S first + i)%nat by lia. by eexists _, _, _.
    + apply (sendsBetween_trans w w1 w0 [_]); [apply sendsBetween_clientCall|].
      unfold fetchRequests in *. unfold adminRequest in *.
      by rewrite Hcond1 in Hsends.
    + by rewrite Hcond.
Qed.

(** [memberState] survives whatever keeps settled promises settled and
    fetches from other callbacks. *)
Lemma memberState_stable (handles : list nat) (started : list (TaskState unit))
    (about : nat) (state : TaskState unit) (w w' : World)
    (fetched new : list (nat * list AgentInfoSigned)) :
  memberState handles started about state w fetched →
  (∀ c p s, promiseState (clients w c) p = Settled s →
            promiseState (clients w' c) p = Settled s) →
  about ∉ new.*1 →
  memberState handles started about state w' (fetched ++ new).
Proof.
  intros (c & p & k & Hstarted & Hk & Hstate) Hkeep Hnew.
  exists c, p, k. split_and!; try done.
  assert (about ∉ fetched.*1 → about ∉ (fetched ++ new).*1) as Hnot.
  { rewrite fmap_app, elem_of_app. tauto. }
  destruct Hstate as [[-> ?] | [(infos & -> & Hin & Hp) | (e & -> & ?)]].
  - left. auto.
  - right. left. exists infos. split_and!; try done.
    + apply elem_of_app. by left.
    + by apply Hkeep.
  - right. right. exists e. auto.
Qed.

(** One pass of [resumeMembers] over the callbacks from the index [first]
    on: those whose request was answered with agent infos share them and
    are fulfilled. *)
Lemma resumeMembers_memberState (handles : list nat)
    (started : list (TaskState unit)) (suffix : list (TaskState unit))
    (first : nat) (w : World) (fetched : list (nat * list AgentInfoSigned)) :
  (∀ i st, suffix !! i = Some st →
     memberState handles started (first + i) st w fetched) →
  ∃ newly j' w',
    resumeMembers suffix w = (j', w')
    ∧ length (members j') = length suffix
    ∧ (∀ i st, members j' !! i = Some st →
         memberState handles started (first + i) st w' (fetched ++ newly))
    ∧ (∀ i, i ∈ newly.*1 →
         (first ≤ i < first + length suffix)%nat ∧ i ∉ fetched.*1)
    ∧ NoDup newly.*1
    ∧ sendsBetween w w'
        (flat_map (fun f => addRequests w f.1 f.2 0%nat handles) newly)
    ∧ conductors w' = conductors w
    ∧ (∀ c p, promiseState (clients w' c) p = promiseState (clients w c) p).
Proof.
  revert first w fetched.
  induction suffix as [|state suffix IH]; intros first w fetched Hmembers.
  - exists [], {| members := []; firstRejection := None |}, w.
    split_and!; try done.
    + intros i Hi. by apply elem_of_nil in Hi.
    + constructor.
    + apply sendsBetween_refl.
  - (* the callback at [first] *)
    assert (∃ state' w1 new,
              resume state w = (state', w1)
              ∧ memberState handles started first state' w1 (fetched ++ new)
              ∧ (new = [] ∨ ∃ infos, new = [(first, infos)] ∧ first ∉ fetched.*1)
              ∧ sendsBetween w w1
                  (flat_map (fun f => addRequests w f.1 f.2 0%nat handles) new)
              ∧ conductors w1 = conductors w
              ∧ (∀ c p, promiseState (clients w1 c) p = promiseState (clients w c) p))
      as (state' & w1 & new & Hresume & Hstate' & Hnew & Hsends1 & Hcond1 & Hkeep1).
    { pose proof (Hmembers 0%nat state eq_refl) as Hstate.
      rewrite Nat.add_0_r in Hstate.
      destruct Hstate as (c & p & k & Hstarted & Hk & Hcases).
      destruct Hcases as [[-> Hnot] | [(infos & -> & Hin & Hp) | (e & -> & Hnot)]].
      - cbn [resume].
        destruct (promiseState (clients w c) p) as [|settlement] eqn:Hp.
        + exists (Waiting c p k), w, []. rewrite app_nil_r.
          split_and!; auto; [|apply sendsBetween_refl].
          exists c, p, k. split_and!; auto.
        + pose proof Hk as [Hinfos Hthrow].
          assert ((∃ infos, settlement = Resolve (response_api (agent_info_returned infos)))
                  ∨ ∀ infos, settlement ≠ Resolve (response_api (agent_info_returned infos)))
            as [[infos ->] | Hno].
          { destruct settlement as [[| |[]]|]; eauto. }
          * rewrite Hinfos.
            destruct (start_shareWith handles first infos 0 w)
              as (w1 & -> & Hcond1 & Hsends1 & Hkeep1).
            exists (Finished (Fulfilled tt)), w1, [(first, infos)].
            split_and!; auto.
            -- exists c, p, k. split_and!; auto. right. left. exists infos.
               split_and!; auto.
               ++ apply elem_of_app. right. apply list_elem_of_singleton. done.
               ++ by rewrite Hkeep1.
            -- right. by exists infos.
            -- simpl. by rewrite app_nil_r.
          * destruct (Hthrow settlement Hno) as [e He]. rewrite He.
            exists (Finished (Rejected e)), w, []. rewrite app_nil_r.
            split_and!; auto; [|apply sendsBetween_refl].
            exists c, p, k. split_and!; auto. right. right. by exists e.
      - exists (Finished (Fulfilled tt)), w, []. rewrite app_nil_r.
        split_and!; auto; [|apply sendsBetween_refl].
        exists c, p, k. split_and!; auto. right. left. by exists infos.
      - exists (Finished (Rejected e)), w, []. rewrite app_nil_r.
        split_and!; auto; [|apply sendsBetween_refl].
        exists c, p, k. split_and!; auto. right. right. by exists e. }
    assert (first ∉ new.*1 ∨ ∃ infos, new = [(first, infos)]) as Hnew'.
    { destruct Hnew as [-> | [infos [-> _]]]; [left; apply not_elem_of_nil|right; eauto]. }
    assert (∀ i, i ∈ new.*1 → i = first ∧ i ∉ fetched.*1) as Hnew_in.
    { intros i Hi. destruct Hnew as [-> | [infos [-> ?]]].
      - by apply elem_of_nil in Hi.
      - apply list_elem_of_singleton in Hi. by subst. }
    (* the callbacks after it *)
    destruct (IH (S first) w1 (fetched ++ new))
      as (newly & j' & w' & Hrest & Hlen & Hstates & Hnewly & Hnodup & Hsends & Hcond & Hkeep).
    { intros i st Hi.
      replace (S first + i)%nat with (first + S i)%nat by lia.
      apply memberState_stable with (w := w); [by apply Hmembers| |].
      - intros c p s Hp. by rewrite Hkeep1.
      - intros Hin. apply Hnew_in in Hin. lia. }
    eexists (new ++ newly), _, w'. cbn [resumeMembers]. rewrite Hresume, Hrest.
    split; [reflexivity|]. rewrite app_assoc. split_and!.
    + simpl. by rewrite Hlen.
    + intros [|i] st Hi; simpl in Hi.
      * simplify_eq. rewrite Nat.add_0_r.
        apply memberState_stable with (w := w1); [done| |].
        -- intros c p s Hp. by rewrite Hkeep.
        -- intros Hin. apply Hnewly in Hin. lia.
      * replace (first + S i)%nat with (S first + i)%nat by lia. by apply Hstates.
    + intros i Hi. rewrite fmap_app, elem_of_app in Hi. destruct Hi as [Hi|Hi].
      * apply Hnew_in in Hi as [-> ?]. split; [simpl; lia|done].
      * apply Hnewly in Hi as [? Hi]. split; [simpl; lia|].
        rewrite fmap_app, elem_of_app in Hi. tauto.
    + rewrite fmap_app. apply NoDup_app. split_and!; try done.
      * destruct Hnew as [-> | [infos [-> _]]]; [constructor|apply NoDup_singleton].
      * intros i Hi Hi'. apply Hnew_in in Hi as [-> _]. apply Hnewly in Hi'. lia.
    + rewrite flat_map_app. apply (sendsBetween_trans w w1 w'); [done|].
      erewrite flat_map_ext; [exact Hsends|].
      intros f. simpl. symmetry. by apply addRequests_conductors.
    + by rewrite Hcond.
    + intros c p. by rewrite Hkeep.
Qed.

(** A run of [stepsAll] over the callbacks of [addAllAgentsToAllConductors]:
    what is sent is what the callbacks whose requests were answered with
    agent infos share. *)
Lemma stepsAll_memberState (handles : list nat) (started : list (TaskState unit))
    (arrivals : list Arrival) (j : Joined unit) (w : World)
    (fetched : list (nat * list AgentInfoSigned)) :
  (∀ i st, members j !! i = Some st → memberState handles started i st w fetched) →
  NoDup fetched.*1 →
  (∀ i, i ∈ fetched.*1 → (i < length (members j))%nat) →
  ∃ newly j' w',
    stepsAll j w arrivals = (j', w')
    ∧ length (members j') = length (members j)
    ∧ (∀ i st, members j' !! i = Some st →
         memberState handles started i st w' (fetched ++ newly))
    ∧ NoDup (fetched ++ newly).*1
    ∧ (∀ i, i ∈ (fetched ++ newly).*1 → (i < length (members j))%nat)
    ∧ sendsBetween w w'
        (flat_map (fun f => addRequests w f.1 f.2 0%nat handles) newly)
    ∧ conductors w' = conductors w.
Proof.
  revert j w fetched.
  induction arrivals as [|a arrivals IH]; intros j w fetched Hmembers Hnodup Hbound.
  - exists [], j, w. rewrite app_nil_r. split_and!; try done. apply sendsBetween_refl.
  - cbn [stepsAll]. unfold resumeAll.
    destruct (resumeMembers_memberState handles started (members j) 0
                (deliver w a) fetched)
      as (newly1 & j1 & w1 & Hpass & Hlen1 & Hstates1 & Hnewly1 & Hnodup1 & Hsends1
          & Hcond1 & _).
    { intros i st Hi. rewrite <-(app_nil_r fetched).
      apply memberState_stable with (w := w); [by apply Hmembers| |apply not_elem_of_nil].
      intros c p s. apply promiseState_deliver. }
    rewrite Hpass.
    destruct (deliver_preserves w a) as (_ & Hcond0 & _).
    edestruct (IH {| members := members j1;
                     firstRejection := noteRejection (firstRejection j) (firstRejection j1) |}
                  w1 (fetched ++ newly1))
      as (newly & j' & w' & Hrun & Hlen & Hstates & Hnodup' & Hbound' & Hsends & Hcond).
    { done. }
    { rewrite fmap_app. apply NoDup_app. split_and!; try done.
      intros i Hi Hi'. apply Hnewly1 in Hi' as [_ Hi']. done. }
    { intros i Hi. simpl. rewrite Hlen1.
      rewrite fmap_app, elem_of_app in Hi. destruct Hi as [Hi|Hi]; [by apply Hbound|].
      apply Hnewly1 in Hi. lia. }
    exists (newly1 ++ newly), j', w'. rewrite Hrun, app_assoc.
    simpl in Hlen, Hbound'. rewrite Hlen1 in Hlen, Hbound'.
    split_and!; try done.
    + rewrite flat_map_app.
      apply (sendsBetween_trans w (deliver w a) w' []); [apply sendsBetween_deliver|].
      apply (sendsBetween_trans (deliver w a) w1 w').
      * erewrite flat_map_ext; [exact Hsends1|].
        intros f. simpl. symmetry. by apply addRequests_conductors.
      * erewrite flat_map_ext; [exact Hsends|].
        intros f. simpl. symmetry. apply addRequests_conductors. by rewrite Hcond1.
    + by rewrite Hcond, Hcond1.
Qed.

(** X24. What [addAllAgentsToAllConductors] has sent at any moment of a run:
    first one request for the agent infos of every conductor; then, for
    each conductor whose request was answered with agent infos, in the
    order of the answers, one request that adds these infos to every
    conductor at another index, and none to its own. When the function
    resolves, every conductor has been answered. *)
Theorem addAllAgentsToAllConductors_shares_between_distinct_conductors
    (handles : list nat) (w : World) (arrivals : list Arrival) :
  let '(started, w0) := startAll (addAllAgentsToAllConductors handles) w in
  let '(j, w') := stepsAll started w0 arrivals in
  sendsBetween w w0 (fetchRequests w handles)
  ∧ ∃ fetched : list (nat * list AgentInfoSigned),
      NoDup fetched.*1
      ∧ sendsBetween w0 w'
          (flat_map (fun f => (fun h => adminRequest w h (add_agent_info f.2))
                                <$> delete f.1 handles) fetched)
      ∧ (∀ about infos, (about, infos) ∈ fetched →
           (about < length handles)%nat
           ∧ ∃ c p k,
               members started !! about = Some (Waiting c p k)
               ∧ promiseState (clients w' c) p
                 = Settled (Resolve (response_api (agent_info_returned infos))))
      ∧ (∀ vs, joinedOutcome j = Some (Fulfilled vs) →
           fetched.*1 ≡ₚ seq 0 (length handles)).
Proof.
  unfold addAllAgentsToAllConductors.
  destruct (startAll_shareAbout handles handles 0 w)
    as (started & w0 & Hstart & Hlen0 & Hstarted & Hfetch & Hcond0).
  rewrite (imap_ext _ (fun i => shareAbout handles (0 + i)) handles) by done.
  rewrite Hstart.
  destruct (stepsAll_memberState handles started arrivals
              {| members := started; firstRejection := None |} w0 [])
    as (fetched & j & w' & -> & Hlen & Hstates & Hnodup & Hbound & Hsends & Hcond).
  { intros i st Hi. destruct (Hstarted i st Hi) as (c & p & k & -> & Hk).
    exists c, p, k. split_and!; auto. left. split; [done|apply not_elem_of_nil]. }
  { constructor. }
  { intros i Hi. by apply elem_of_nil in Hi. }
  simpl in *. split; [done|]. exists fetched. split_and!.
  - done.
  - erewrite flat_map_ext; [exact Hsends|].
    intros [about infos]. simpl.
    rewrite (addRequests_conductors w w0) by done.
    rewrite addRequests_delete. case_decide; [lia|]. by rewrite Nat.sub_0_r.
  - intros about infos Hin.
    assert (about < length handles)%nat as Habout.
    { rewrite <-Hlen0. apply Hbound. apply list_elem_of_fmap. by exists (about, infos). }
    split; [done|].
    destruct (lookup_lt_is_Some_2 (members j) about) as [st Hst]; [lia|].
    destruct (Hstates about st Hst) as (c & p & k & Hk0 & _ & Hcases).
    exists c, p, k. split; [done|].
    assert (about ∈ fetched.*1) as Hin'.
    { apply list_elem_of_fmap. by exists (about, infos). }
    destruct Hcases as [[_ ?] | [(infos' & _ & Hin2 & Hp) | (e & _ & ?)]]; try done.
    replace infos with infos'; [done|].
    apply list_elem_of_lookup in Hin as [i1 H1]. apply list_elem_of_lookup in Hin2 as [i2 H2].
    assert (i1 = i2) as ->.
    { eapply (NoDup_lookup _ _ _ about Hnodup); rewrite list_lookup_fmap.
      - by rewrite H1.
      - by rewrite H2. }
    congruence.
  - intros vs Hvs. unfold joinedOutcome in Hvs.
    destruct (firstRejection j); [done|].
    apply fmap_Some in Hvs as (vs' & Hvs & _).
    apply NoDup_Permutation; [done|apply NoDup_seq|].
    intros about. rewrite elem_of_seq. split.
    + intros Hin. apply Hbound in Hin. lia.
    + intros [_ Habout]. simpl in Habout.
      destruct (lookup_lt_is_Some_2 (members j) about) as [st Hst]; [lia|].
      destruct (Hstates about st Hst) as (c & p & k & _ & _ & Hcases).
      assert (is_Some (fulfilledValue st)) as [v Hv].
      { apply mapM_Some_1 in Hvs.
        destruct (Forall2_lookup_l _ _ _ _ _ Hvs Hst) as (v & _ & Hv). by exists v. }
      destruct Hcases as [[-> ?] | [(infos & _ & Hin & _) | (e & -> & ?)]]; try done.
      apply list_elem_of_fmap. by exists (about, infos).
Qed.

(** C9 at two conductors: when the requests for the agent infos of both
    are answered, [addAllAgentsToAllConductors] resolves; by then the two
    [add_agent_info] requests have only been sent, with the ids 2 and 3,
    and their promises are pending; when the conductor 1 then answers its
    request with an error, that promise is rejected, and the function has
    resolved all the same. *)
Theorem addAllAgentsToAllConductors_resolves_before_agents_are_added :
  let run := execAll (addAllAgentsToAllConductors [0%nat; 1%nat]) example_world
               example_agent_infos_arrivals in
  let later := stepsAll run.1 run.2
                 [(1%nat, responseFrame 2 (failure "conductor is shutting down"))] in
  joinedOutcome run.1 = Some (Fulfilled [(); ()])
  ∧ newlySent example_world run.2
    = [adminEnvelope example_world 0%nat (agent_info None);
       (1%nat, {| call_id := 1;
                  call_request := call_admin_interface "conductor-1" (agent_info None) |});
       (1%nat, {| call_id := 2;
                  call_request := call_admin_interface "conductor-1"
                                    (add_agent_info [[Byte.x0a]]) |});
       (0%nat, {| call_id := 3;
                  call_request := call_admin_interface "conductor-0"
                                    (add_agent_info [[Byte.x0b]]) |})]
  ∧ requestPromises (clients run.2 1%nat) !! 2 = Some 1%nat
  ∧ promiseState (clients run.2 1%nat) 1%nat = Pending
  ∧ joinedOutcome later.1 = Some (Fulfilled [(); ()])
  ∧ promiseState (clients later.2 1%nat) 1%nat
    = Settled (Reject (error_string "conductor is shutting down")).
Proof. vm_compute. split_and!; done. Qed.

(** * Further properties of the client *)

Lemma happen_entries_pending (this : TryCpClient) (done : list Effect)
    (e : ClientEvent) :
  entries_pending this done →
  entries_pending (happen this e).1 (done ++ (happen this e).2).
Proof.
  intros Hinv.
  assert (∀ id p, requestPromises this !! id = Some p →
            ∃ request, {| call_id := id; call_request := request |}
                       ∈ sentBy (done ++ (happen this e).2)) as Hsent.
  { intros id p Hp. destruct (Hinv id p Hp) as (_ & [request Hin] & _).
    exists request. rewrite sentBy_app. apply elem_of_app. by left. }
  destruct e as [requestId request | frame | port handler | | code].
  - (* call *)
    intros id p. simpl. intros Hp.
    destruct (decide (id = requestId)) as [->|Hne].
    + rewrite lookup_insert_eq in Hp. injection Hp as <-.
      split_and!.
      * rewrite lookup_app_r by done. by rewrite Nat.sub_diag.
      * exists request. rewrite sentBy_app. apply elem_of_app. right.
        simpl. apply list_elem_of_here.
      * intros id' Hid'. destruct (decide (id' = requestId)) as [|Hne]; [done|].
        rewrite lookup_insert_ne in Hid' by done.
        destruct (Hinv _ _ Hid') as (Hpending & _).
        apply lookup_lt_Some in Hpending. lia.
    + rewrite lookup_insert_ne in Hp by done.
      destruct (Hinv _ _ Hp) as (Hpending & _ & Hinj).
      split_and!.
      * by apply lookup_app_l_Some.
      * apply (Hsent id p Hp).
      * intros id' Hid'. destruct (decide (id' = requestId)) as [->|Hne'].
        -- rewrite lookup_insert_eq in Hid'. injection Hid' as <-.
           apply lookup_lt_Some in Hpending. lia.
        -- rewrite lookup_insert_ne in Hid' by done. by apply Hinj.
  - (* a frame *)
    assert (∀ id p, requestPromises this !! id = Some p →
              promises this !! p = Some Pending
              ∧ (∃ request, {| call_id := id; call_request := request |}
                            ∈ sentBy (done ++ (onMessage this frame).2))
              ∧ (∀ id', requestPromises this !! id' = Some p → id' = id)) as Hsame.
    { intros id p Hp. destruct (Hinv _ _ Hp) as (? & _ & ?).
      split_and!; [done|apply (Hsent id p Hp)|done]. }
    cbn [happen] in *.
    destruct frame as [[port data | id' response | ] | t]; try exact Hsame.
    + simpl in *. signal_cases this port data; exact Hsame.
    + simpl in *.
      destruct (requestPromises this !! id') as [q|] eqn:Hq; [|exact Hsame].
      assert (∀ s id p,
                requestPromises (deleteRequestPromise id' (settle q s this)) !! id
                = Some p →
                promises (deleteRequestPromise id' (settle q s this)) !! p
                = Some Pending
                ∧ (∀ id'', requestPromises (deleteRequestPromise id' (settle q s this))
                             !! id'' = Some p → id'' = id)) as Hsettled.
      { intros s id p. simpl. intros [Hne Hp]%lookup_delete_Some.
        destruct (Hinv _ _ Hp) as (Hpending & _ & Hinj).
        assert (q ≠ p) as Hqp by (intros ->; by apply Hne, Hinj).
        split.
        - destruct (promises this !! q) as [[|?]|]; [|done..].
          by rewrite list_lookup_insert_ne.
        - intros id'' [_ Hp']%lookup_delete_Some. by apply Hinj. }
      destruct (prop0 response) as [serialized|], (prop1 response) as [reason|];
        cbn [fst snd] in *; try exact Hsame.
      all: intros id p Hp; destruct (Hsettled _ _ _ Hp) as [? ?];
        split_and!; try done;
        simpl in Hp; apply lookup_delete_Some in Hp as [_ Hp];
        apply (Hsent id p Hp).
  - intros id p Hp. simpl in *. destruct (Hinv _ _ Hp) as (? & _ & ?).
    split_and!; [done|apply (Hsent id p Hp)|done].
  - intros id p Hp. simpl in *. destruct (Hinv _ _ Hp) as (? & _ & ?).
    split_and!; [done|apply (Hsent id p Hp)|done].
  - intros id p Hp. simpl in *. destruct (Hinv _ _ Hp) as (? & _ & ?).
    split_and!; [done|apply (Hsent id p Hp)|done].
Qed.

Lemma history_entries_pending (events : list ClientEvent) (this : TryCpClient)
    (done : list Effect) :
  entries_pending this done →
  entries_pending (history this events).1 (done ++ (history this events).2).
Proof.
  revert this done. induction events as [|e events IH]; intros this done Hinv.
  - simpl. by rewrite app_nil_r.
  - simpl. pose proof (happen_entries_pending this done e Hinv) as H1.
    destruct (happen this e) as [this1 done1]. simpl in H1.
    specialize (IH this1 (done ++ done1) H1).
    destruct (history this1 events) as [this2 done2]. simpl in *.
    by rewrite app_assoc.
Qed.

(** X1. Whatever happens to a client, in whatever order: every entry of
    [requestPromises] belongs to a request that was sent with the id of the
    entry and whose promise is still pending, and no two entries share a
    promise. *)
Theorem requestPromises_holds_sent_and_unsettled_requests
    (events : list ClientEvent) :
  let '(this, done) := history new_TryCpClient events in
  ∀ (id : Z) (p : nat),
    requestPromises this !! id = Some p →
    promiseState this p = Pending
    ∧ (∃ request, {| call_id := id; call_request := request |} ∈ sentBy done)
    ∧ (∀ id', requestPromises this !! id' = Some p → id' = id).
Proof.
  pose proof (history_entries_pending events new_TryCpClient []) as H.
  destruct (history new_TryCpClient events) as [this done]. simpl in H.
  intros id p Hp. destruct (H ltac:(by intros ? ? ?) id p Hp) as (Hpending & Hsent & Hinj).
  split_and!; try done. unfold promiseState. by rewrite Hpending.
Qed.

(** A settlement made by the message listener never fulfils with an API
    response of type ["error"]. *)
Lemma successSettlement_not_error (serialized : TryCpSuccessResponseSeralized)
    (data_json : string) :
  successSettlement serialized ≠ Resolve (response_api (error_response data_json)).
Proof.
  unfold successSettlement, processSuccessResponse.
  destruct serialized as [|s|[[]|[]]]; done.
Qed.

Lemma settle_never_fulfilled_with_error (this : TryCpClient) (id : Z) (q : nat)
    (s : Settlement) :
  (∀ data_json, s ≠ Resolve (response_api (error_response data_json))) →
  never_fulfilled_with_error this →
  never_fulfilled_with_error (deleteRequestPromise id (settle q s this)).
Proof.
  intros Hs Hinv p data_json. simpl.
  destruct (promises this !! q) as [[|?]|] eqn:Hq; try apply Hinv.
  destruct (decide (p = q)) as [->|Hne].
  - rewrite list_lookup_insert_eq by (by eapply lookup_lt_Some).
    intros [= E]. by apply (Hs data_json).
  - rewrite list_lookup_insert_ne by done. apply Hinv.
Qed.

Lemma happen_never_fulfilled_with_error (this : TryCpClient) (e : ClientEvent) :
  never_fulfilled_with_error this → never_fulfilled_with_error (happen this e).1.
Proof.
  intros Hinv.
  destruct e as [requestId request | frame | port handler | | code]; try exact Hinv.
  - intros p data_json. simpl. intros Hp.
    apply lookup_app_Some in Hp as [Hp | [_ Hp]]; [by apply Hinv in Hp|].
    by apply list_lookup_singleton_Some in Hp as [_ ?].
  - cbn [happen].
    destruct frame as [[port data | id' response | ] | t]; try exact Hinv.
    + simpl. signal_cases this port data; exact Hinv.
    + simpl.
      destruct (requestPromises this !! id') as [q|]; [|exact Hinv].
      destruct (prop0 response) as [serialized|], (prop1 response) as [reason|];
        cbn [fst]; try exact Hinv.
      all: apply (settle_never_fulfilled_with_error this id' q); [|exact Hinv].
      all: first [apply successSettlement_not_error | done].
Qed.

(** X2. Whatever happens to a client, no promise of a call is ever fulfilled
    with an API response of type ["error"]. *)
Theorem call_is_never_fulfilled_with_an_error_response
    (events : list ClientEvent) (p : nat) (data_json : string) :
  promiseState (history new_TryCpClient events).1 p
  ≠ Settled (Resolve (response_api (error_response data_json))).
Proof.
  assert (∀ this, never_fulfilled_with_error this →
                  never_fulfilled_with_error (history this events).1) as H.
  { induction events as [|e events IH]; intros this Hinv; [done|].
    simpl. pose proof (happen_never_fulfilled_with_error this e Hinv) as H1.
    destruct (happen this e) as [this1 done1].
    specialize (IH this1 H1). by destruct (history this1 events). }
  specialize (H new_TryCpClient ltac:(by intros ? ?) p data_json).
  unfold promiseState. destruct (promises _ !! p) as [st|]; [|done].
  simpl. congruence.
Qed.

(** X3. A response that has neither the property ["0"] nor the property
    ["1"] is logged and the exception [Unknown response type] is printed;
    its request stays registered and its promise pending, so that a later
    response with the same id still settles the call. *)
Theorem response_of_unknown_type_leaves_the_call_pending
    (this : TryCpClient) (id : Z) (p : nat) (response : TryCpResponse) :
  requestPromises this !! id = Some p →
  prop0 response = None → prop1 response = None →
  onMessage this (responseFrame id response)
  = (this, [Log error_unknown_response_type; Log (console_error UNKNOWN_RESPONSE_TYPE)])
  ∧ ∀ (later : TryCpResponse) (s : Settlement),
      responseSettlement later = Some s →
      onMessages this [responseFrame id response; responseFrame id later]
      = (deleteRequestPromise id (settle p s this),
         [Log error_unknown_response_type; Log (console_error UNKNOWN_RESPONSE_TYPE);
          Settle p s; DeleteRequestPromise id]).
Proof.
  intros Hp H0 H1.
  assert (onMessage this (responseFrame id response)
          = (this, [Log error_unknown_response_type;
                    Log (console_error UNKNOWN_RESPONSE_TYPE)])) as Hstep.
  { simpl. by rewrite Hp, H0, H1. }
  split; [done|]. intros later s Hs.
  cbn [onMessages]. rewrite Hstep, (onMessage_own this id p later s Hp Hs). done.
Qed.

Lemma response_of_unknown_type_leaves_the_call_pending_witness :
  let response := {| prop0 := None; prop1 := None |} in
  onMessage example_client (responseFrame 0 response)
  = (example_client,
     [Log error_unknown_response_type; Log (console_error UNKNOWN_RESPONSE_TYPE)])
  ∧ promiseState example_client 0%nat = Pending
  ∧ promiseState
      (onMessages example_client
         [responseFrame 0 response; responseFrame 0 (failure "late")]).1 0%nat
    = Settled (Reject (error_string "late")).
Proof.
  pose proof (response_of_unknown_type_leaves_the_call_pending example_client 0 0%nat
                {| prop0 := None; prop1 := None |} eq_refl eq_refl eq_refl)
    as [Hstep Hlater].
  split; [exact Hstep|]. split; [reflexivity|].
  rewrite (Hlater (failure "late") (Reject (error_string "late")) eq_refl).
  reflexivity.
Defined.

(** X4. Of two responses that bear the id of a pending request the first
    settles the call and deletes its entry; the second finds no entry, is
    printed as an error and dropped: it settles nothing, and the promise
    keeps the outcome of the first. *)
Theorem second_response_to_a_request_is_dropped
    (this : TryCpClient) (id : Z) (p : nat) (first second : TryCpResponse)
    (s : Settlement) :
  requestPromises this !! id = Some p →
  promises this !! p = Some Pending →
  responseSettlement first = Some s →
  let '(this', done) :=
    onMessages this [responseFrame id first; responseFrame id second] in
  done = [Settle p s; DeleteRequestPromise id; Log (console_error UNDEFINED_ENTRY)]
  ∧ settlementsOf p done = [s]
  ∧ promiseState this' p = Settled s
  ∧ requestPromises this' !! id = None.
Proof.
  intros Hp Hpending Hs. cbn [onMessages].
  rewrite (onMessage_own this id p first s Hp Hs).
  assert (onMessage (deleteRequestPromise id (settle p s this)) (responseFrame id second)
          = (deleteRequestPromise id (settle p s this),
             [Log (console_error UNDEFINED_ENTRY)])) as ->.
  { simpl. by rewrite lookup_delete_eq. }
  split_and!.
  - done.
  - unfold settlementsOf. simpl. by rewrite decide_True.
  - unfold promiseState. simpl. rewrite Hpending.
    rewrite list_lookup_insert_eq by (by eapply lookup_lt_Some). done.
  - simpl. apply lookup_delete_eq.
Qed.

Lemma second_response_to_a_request_is_dropped_witness :
  match onMessages example_client
          [responseFrame 0 (success agent_info_added); responseFrame 0 (failure "again")]
  with
  | (this', done) =>
      settlementsOf 0%nat done = [Resolve (response_api agent_info_added)]
      ∧ promiseState this' 0%nat = Settled (Resolve (response_api agent_info_added))
  end.
Proof.
  pose proof (second_response_to_a_request_is_dropped example_client 0 0%nat
                (success agent_info_added) (failure "again")
                (Resolve (response_api agent_info_added))
                eq_refl eq_refl eq_refl) as H.
  destruct (onMessages _ _) as [this' done].
  destruct H as (_ & H1 & H2 & _). by split.
Defined.

(** X5. An exception raised while a frame is handled does not leave the
    message listener: when the frame cannot be deserialized, when the data
    of a signal cannot be deserialized, and when the signal handler throws,
    the exception is printed with [console.error], the client is left as it
    was, and the frames that follow are handled as if that frame had not
    arrived. *)
Theorem exceptions_stay_inside_the_message_listener
    (this : TryCpClient) (port : Z) (cb : AppSignalCb) (signal : AppSignal)
    (error : Thrown) :
  signalHandlers this !! port = Some (Some cb) →
  cb_throws cb signal = Some error →
  onMessage this (Throws error) = (this, [Log (console_error error)])
  ∧ onMessage this (Returns (signal_wrapper port (Throws error)))
    = (this, [Log (console_error error)])
  ∧ onMessage this (signalFrame port signal)
    = (this, [Log (debug_signal port); SignalHandled (cb_id cb) signal;
              Log (console_error error)])
  ∧ ∀ (frame : Frame) (frames : list Frame),
      frame ∈ [Throws error; Returns (signal_wrapper port (Throws error));
               signalFrame port signal] →
      (onMessages this (frame :: frames)).1 = (onMessages this frames).1
      ∧ ∀ p, settlementsOf p (onMessages this (frame :: frames)).2
             = settlementsOf p (onMessages this frames).2.
Proof.
  intros Hcb Hthrows.
  assert (onMessage this (Returns (signal_wrapper port (Throws error)))
          = (this, [Log (console_error error)])) as H2.
  { simpl. by rewrite Hcb. }
  assert (onMessage this (signalFrame port signal)
          = (this, [Log (debug_signal port); SignalHandled (cb_id cb) signal;
                    Log (console_error error)])) as H3.
  { simpl. by rewrite Hcb, Hthrows. }
  split_and!; try done.
  intros frame frames Hin. cbn [onMessages].
  assert (∃ done, onMessage this frame = (this, done)
                  ∧ ∀ p, settlementsOf p done = []) as (done & -> & Hnone).
  { rewrite !elem_of_cons in Hin. destruct Hin as [-> | [-> | [-> | Hin]]].
    - by eexists.
    - rewrite H2. by eexists.
    - rewrite H3. by eexists.
    - by apply elem_of_nil in Hin. }
  destruct (onMessages this frames) as [this' done']. simpl.
  split; [done|]. intros p. by rewrite settlementsOf_app, Hnone.
Qed.

Lemma exceptions_stay_inside_the_message_listener_witness :
  let cb := {| cb_id := 1%nat;
               cb_throws := fun _ => Some (ThrownError (Error "handler failed")) |} in
  let this := setSignalHandler example_client 30000 (Some cb) in
  onMessage this (signalFrame 30000 example_signal)
  = (this, [Log (debug_signal 30000); SignalHandled 1%nat example_signal;
            Log (console_error (ThrownError (Error "handler failed")))])
  ∧ promiseState
      (onMessages this [signalFrame 30000 example_signal;
                        responseFrame 0 (success agent_info_added)]).1 0%nat
    = Settled (Resolve (response_api agent_info_added)).
Proof.
  intros cb this.
  pose proof (exceptions_stay_inside_the_message_listener this 30000 cb example_signal
                (ThrownError (Error "handler failed")) eq_refl eq_refl)
    as (_ & _ & H3 & Hrest).
  split; [exact H3|].
  destruct (Hrest (signalFrame 30000 example_signal)
              [responseFrame 0 (success agent_info_added)]) as [-> _].
  - rewrite !elem_of_cons. auto.
  - reflexivity.
Defined.

Lemma onMessage_only_removes (this : TryCpClient) (frame : Frame) :
  let '(this', done) := onMessage this frame in
  signalHandlers this' = signalHandlers this
  ∧ length (promises this') = length (promises this)
  ∧ closeListeners this' = closeListeners this
  ∧ ∀ id, requestPromises this' !! id
          = if decide (deletionsOf id done = 0%nat)
            then requestPromises this !! id else None.
Proof.
  destruct frame as [[port data | id' response | ] | t]; simpl; try done.
  - signal_cases this port data; done.
  - destruct (requestPromises this !! id') as [q|] eqn:Hq; [|done].
    assert (∀ s, length (promises (settle q s this)) = length (promises this)) as Hlen.
    { intros s. unfold settle. simpl.
      destruct (promises this !! q) as [[|?]|]; [|done..].
      by rewrite length_insert. }
    destruct (prop0 response) as [serialized|], (prop1 response) as [reason|];
      simpl; split_and!; try done; try apply Hlen.
    all: intros id; unfold deletionsOf; simpl;
      destruct (decide (id' = id)) as [->|Hne]; simpl;
      [rewrite lookup_delete_eq; try case_decide; done
      |rewrite lookup_delete_ne by done; try case_decide; done].
Qed.

(** X6. Frames that arrive never send anything and never register a
    request, a promise or a handler: whatever the frames, the handler table,
    the number of promises and the listeners for the close event are as
    before, and [requestPromises] holds exactly the entries it held before
    except those the run deleted. *)
Theorem incoming_frames_only_delete_entries (this : TryCpClient) (frames : list Frame) :
  let '(this', done) := onMessages this frames in
  sentBy done = []
  ∧ signalHandlers this' = signalHandlers this
  ∧ length (promises this') = length (promises this)
  ∧ closeListeners this' = closeListeners this
  ∧ requestPromises this' ⊆ requestPromises this
  ∧ ∀ id, requestPromises this' !! id
          = if decide (deletionsOf id done = 0%nat)
            then requestPromises this !! id else None.
Proof.
  assert (let '(this', done) := onMessages this frames in
          sentBy done = []
          ∧ signalHandlers this' = signalHandlers this
          ∧ length (promises this') = length (promises this)
          ∧ closeListeners this' = closeListeners this
          ∧ ∀ id, requestPromises this' !! id
                  = if decide (deletionsOf id done = 0%nat)
                    then requestPromises this !! id else None) as H.
  { revert this. induction frames as [|frame frames IH]; intros this; [done|].
    cbn [onMessages].
    pose proof (onMessage_only_removes this frame) as H1.
    pose proof (onMessage_sends_nothing this frame) as Hs.
    destruct (onMessage this frame) as [this1 done1].
    specialize (IH this1).
    destruct (onMessages this1 frames) as [this2 done2].
    destruct H1 as (E1 & E2 & E3 & E4), IH as (F0 & F1 & F2 & F3 & F4).
    simpl in Hs.
    rewrite sentBy_app, Hs, F0, F1, F2, F3, E1, E2, E3. split_and!; try done.
    intros id. rewrite F4, E4, deletionsOf_app.
    repeat case_decide; try done; lia. }
  destruct (onMessages this frames) as [this' done].
  destruct H as (H0 & H1 & H2 & H3 & H4). split_and!; try done.
  apply map_subseteq_spec. intros id q. rewrite H4. by case_decide.
Qed.

Lemma closeTimes_spec (n : nat) (this : TryCpClient) :
  closeTimes n this
  = ({| requestPromises := requestPromises this;
        signalHandlers := signalHandlers this;
        promises := promises this;
        closeListeners := (n + closeListeners this)%nat |},
     replicate n (WsClose 1000)).
Proof.
  revert this. induction n as [|n IH]; intros this.
  - by destruct this.
  - simpl. rewrite IH. simpl. do 2 f_equal. lia.
Qed.

Lemma closeResolutions_onClose (this : TryCpClient) (code : Z) :
  closeResolutions (onClose this code).2 = replicate (closeListeners this) code.
Proof.
  unfold onClose. cbn [snd].
  induction (closeListeners this) as [|n IH]; [done|].
  unfold closeResolutions in *.
  change (replicate (S n) code) with (code :: replicate n code).
  rewrite <-IH. reflexivity.
Qed.

(** X7. Every invocation of [close] gets its promise resolved, exactly once,
    with the code of the close event that follows, whatever the code is;
    each invocation asks the socket to close with the code 1000; a further
    close event resolves nothing. *)
Theorem close_promises_resolve_once_with_the_code_of_the_event
    (this : TryCpClient) (n : nat) (code code' : Z) :
  let '(this1, done1) := closeTimes n this in
  let '(this2, done2) := onClose this1 code in
  let '(this3, done3) := onClose this2 code' in
  done1 = replicate n (WsClose 1000)
  ∧ closeResolutions done2 = replicate (closeListeners this + n) code
  ∧ done3 = []
  ∧ requestPromises this3 = requestPromises this
  ∧ promises this3 = promises this.
Proof.
  rewrite closeTimes_spec.
  pose proof (closeResolutions_onClose
                {| requestPromises := requestPromises this;
                   signalHandlers := signalHandlers this;
                   promises := promises this;
                   closeListeners := (n + closeListeners this)%nat |} code) as H.
  destruct (onClose _ code) as [this2 done2] eqn:E.
  unfold onClose in E. injection E as <- <-.
  simpl in *. rewrite H. split_and!; try done. f_equal. lia.
Qed.

(** X8. Signals that arrive for a port with a handler are handed to the
    handler one by one, each once, in the order in which they arrive, also
    when the handler throws on some of them; the client is left as it
    was. *)
Theorem signals_reach_the_handler_in_the_order_of_arrival
    (this : TryCpClient) (port : Z) (cb : AppSignalCb) (signals : list AppSignal) :
  signalHandlers this !! port = Some (Some cb) →
  let '(this', done) := onMessages this (signalFrame port <$> signals) in
  this' = this
  ∧ handledBy done = (fun signal => (cb_id cb, signal)) <$> signals
  ∧ ∀ p, settlementsOf p done = [].
Proof.
  intros Hcb. induction signals as [|signal signals IH]; [done|].
  cbn [fmap list_fmap onMessages].
  assert (∃ done1, onMessage this (signalFrame port signal) = (this, done1)
                   ∧ handledBy done1 = [(cb_id cb, signal)]
                   ∧ ∀ p, settlementsOf p done1 = [])
    as (done1 & -> & Hhandled & Hnone).
  { cbn [onMessage handleWrapper signalFrame]. rewrite Hcb.
    destruct (cb_throws cb signal); by eexists. }
  fold (fmap (M:=list) (signalFrame port) signals).
  destruct (onMessages this (signalFrame port <$> signals)) as [this' done].
  destruct IH as (-> & IH & Hnone').
  split; [done|]. split.
  - unfold handledBy in *. by rewrite omap_app, Hhandled, IH.
  - intros p. by rewrite settlementsOf_app, Hnone, Hnone'.
Qed.

Lemma signals_reach_the_handler_in_the_order_of_arrival_witness :
  let this := setSignalHandler example_client 30000 (Some (example_handler 7)) in
  signalHandlers this !! 30000 = Some (Some (example_handler 7))
  ∧ handledBy (onMessages this [signalFrame 30000 example_signal;
                                signalFrame 30000 example_signal]).2
    = [(7%nat, example_signal); (7%nat, example_signal)].
Proof.
  intros this. split; [reflexivity|].
  pose proof (signals_reach_the_handler_in_the_order_of_arrival this 30000
                (example_handler 7) [example_signal; example_signal] eq_refl) as H.
  cbn [fmap list_fmap] in H.
  destruct (onMessages this _) as [this' done]. apply H.
Defined.

(** * Properties of the life cycle of a conductor *)

Lemma newlySent_app (w w' : World) (sent : list (nat * TryCpCall)) :
  sentIn (trace w') = sentIn (trace w) ++ sent → newlySent w w' = sent.
Proof. intros H. unfold newlySent. rewrite H. by rewrite drop_app_length. Qed.

(** What a call and the arrival of its response leave alone. *)
Lemma answered_spec (w : World) (c : nat) (request : TryCpRequest)
    (response : TryCpResponse) :
  requestId (answered w c request response) = js_incr (requestId w)
  ∧ conductors (answered w c request response) = conductors w
  ∧ getSigningCredentials (answered w c request response) = getSigningCredentials w
  ∧ signZomeCall (answered w c request response) = signZomeCall w
  ∧ sentIn (trace (answered w c request response))
    = sentIn (trace w) ++ [(c, {| call_id := requestId w; call_request := request |})].
Proof.
  unfold answered.
  destruct (deliver_preserves (clientCall w c request).1
              (c, responseFrame (requestId w) response)) as (-> & -> & -> & -> & ->).
  destruct (clientCall_spec w c request) as (_ & ? & ? & ? & ? & ?). done.
Qed.

(** The response to an awaited call settles the promise of the call. *)
Lemma answered_promiseState (w : World) (c : nat) (request : TryCpRequest)
    (response : TryCpResponse) (s : Settlement) :
  responseSettlement response = Some s →
  promiseState (clients (answered w c request response) c)
               (clientCall w c request).2 = Settled s.
Proof.
  intros Hs. unfold answered. rewrite deliver_clients. cbn [fst snd].
  rewrite decide_True by done.
  assert (clients (clientCall w c request).1 c
          = (call (requestId w) (clients w c) request).1.1.2
          ∧ (clientCall w c request).2 = length (promises (clients w c))) as [-> ->].
  { unfold clientCall. simpl. by rewrite fn_lookup_insert. }
  erewrite onMessage_own; [|apply lookup_insert_eq|exact Hs].
  unfold promiseState. simpl.
  rewrite lookup_app_r by done. rewrite Nat.sub_diag. simpl.
  rewrite list_lookup_insert_eq; [done|].
  rewrite length_app. simpl. lia.
Qed.

(** A task that awaits a call goes on with the outcome of the response
    when the response arrives. *)
Lemma exec_Await_answered {A : Type} (c : nat) (request : TryCpRequest)
    (k : Settlement -> Task A) (w : World) (response : TryCpResponse)
    (s : Settlement) (rest : list Arrival) :
  responseSettlement response = Some s →
  exec (Await c request k) w ((c, responseFrame (requestId w) response) :: rest)
  = exec (k s) (answered w c request response) rest.
Proof.
  intros Hs. unfold exec at 1. cbn [start].
  pose proof (answered_promiseState w c request response s Hs) as Hp.
  unfold answered in *.
  destruct (clientCall w c request) as [w1 p]. cbn [steps resume fst snd] in *.
  by rewrite Hp.
Qed.

Lemma exec_GetConductor {A : Type} (h : nat) (k : TryCpConductor -> Task A)
    (w : World) (arrivals : list Arrival) :
  exec (GetConductor h k) w arrivals = exec (k (conductors w h)) w arrivals.
Proof. done. Qed.

Ltac answer s :=
  cbn [mbind Task_bind bind await]; rewrite ?exec_GetConductor;
  rewrite (exec_Await_answered _ _ _ _ _ s) by done;
  cbn [mbind Task_bind bind].

Lemma exec_Await_nil {A : Type} (c : nat) (request : TryCpRequest)
    (k : Settlement -> Task A) (w : World) :
  exec (Await c request k) w []
  = (Waiting c (clientCall w c request).2 k, (clientCall w c request).1).
Proof. unfold exec. cbn [start]. by destruct (clientCall w c request). Qed.

Lemma exec_configure_then {B : Type} (h : nat) (partialConfig : option string)
    (f : TryCpSuccessResponse -> Task B) (w : World) (c : nat) (id : Z)
    (response : TryCpResponse) (s : Settlement) (rest : list Arrival) :
  c = tryCpClient (conductors w h) → id = requestId w →
  responseSettlement response = Some s →
  exec (configure h partialConfig ≫= f) w ((c, responseFrame id response) :: rest)
  = exec (nullOutcome s f)
         (answered w c
            (configure_player (conductor_id (conductors w h))
               (string_or partialConfig DEFAULT_PARTIAL_PLAYER_CONFIG)) response)
         rest.
Proof.
  intros -> -> Hs. unfold configure. answer s.
  by destruct s as [[| |]|].
Qed.

Lemma exec_startUp_then {B : Type} (h : nat) (options : option StartUpOptions)
    (f : TryCpSuccessResponse -> Task B) (w : World) (c : nat) (id : Z)
    (response : TryCpResponse) (s : Settlement) (rest : list Arrival) :
  c = tryCpClient (conductors w h) → id = requestId w →
  responseSettlement response = Some s →
  exec (startUp h options ≫= f) w ((c, responseFrame id response) :: rest)
  = exec (nullOutcome s f)
         (answered w c
            (startup (conductor_id (conductors w h)) (options ≫= logLevel)) response)
         rest.
Proof.
  intros -> -> Hs. unfold startUp. answer s.
  by destruct s as [[| |]|].
Qed.

(** What was sent, after a call was answered and further frames arrived. *)
Lemma newlySent_answered (w : World) (c : nat) (request : TryCpRequest)
    (response : TryCpResponse) (rest : list Arrival) :
  newlySent w (delivers (answered w c request response) rest)
  = [(c, {| call_id := requestId w; call_request := request |})].
Proof.
  apply newlySent_app.
  destruct (delivers_preserves rest (answered w c request response))
    as (_ & _ & _ & _ & ->).
  by destruct (answered_spec w c request response) as (_ & _ & _ & _ & ->).
Qed.

Lemma newlySent_answered2 (w : World) (c1 c2 : nat) (request1 request2 : TryCpRequest)
    (response1 response2 : TryCpResponse) (rest : list Arrival) :
  newlySent w (delivers (answered (answered w c1 request1 response1)
                                  c2 request2 response2) rest)
  = [(c1, {| call_id := requestId w; call_request := request1 |});
     (c2, {| call_id := js_incr (requestId w); call_request := request2 |})].
Proof.
  apply newlySent_app.
  destruct (delivers_preserves rest
              (answered (answered w c1 request1 response1) c2 request2 response2))
    as (_ & _ & _ & _ & ->).
  destruct (answered_spec (answered w c1 request1 response1) c2 request2 response2)
    as (_ & _ & _ & _ & ->).
  destruct (answered_spec w c1 request1 response1) as (-> & _ & _ & _ & ->).
  by rewrite <-app_assoc.
Qed.

Lemma newlySent_clientCall (w : World) (c : nat) (request : TryCpRequest) :
  newlySent w (clientCall w c request).1
  = [(c, {| call_id := requestId w; call_request := request |})].
Proof.
  apply newlySent_app.
  by destruct (clientCall_spec w c request) as (_ & _ & _ & _ & _ & ->).
Qed.

Lemma newlySent_delivers (w : World) (arrivals : list Arrival) :
  newlySent w (delivers w arrivals) = [].
Proof.
  apply newlySent_app. rewrite app_nil_r.
  by destruct (delivers_preserves arrivals w) as (_ & _ & _ & _ & ->).
Qed.

(** X9. [createTryCpConductor] with the option [startup: false] sends
    nothing. Otherwise it sends the configuration, with the default partial
    configuration in place of a missing or empty one, and, only when the
    server has answered that with [null], the start-up command with the log
    level of the options; it resolves to the conductor when that is
    answered with [null] too. When the server rejects the configuration,
    the function rejects with the server's reason and the conductor is never
    started. *)
Theorem createTryCpConductor_configures_then_starts_up
    (w : World) (conductor : nat) (options : option TryCpConductorOptions) :
  let this := conductors w conductor in
  let c := tryCpClient this in
  let configureCall :=
    (c, {| call_id := requestId w;
           call_request :=
             configure_player (conductor_id this)
               (string_or (options ≫= opt_partialConfig)
                          DEFAULT_PARTIAL_PLAYER_CONFIG) |}) in
  let startupCall :=
    (c, {| call_id := js_incr (requestId w);
           call_request := startup (conductor_id this) (options ≫= opt_logLevel) |}) in
  let configured := (c, responseFrame (requestId w) success_null) in
  let started := (c, responseFrame (js_incr (requestId w)) success_null) in
  let create := exec (createTryCpConductor conductor options) w in
  if decide (options ≫= opt_startup = Some false)
  then ∀ arrivals,
         (create arrivals).1 = Finished (Fulfilled conductor)
         ∧ newlySent w (create arrivals).2 = []
  else
    ((∃ p k, (create []).1 = Waiting c p k)
     ∧ newlySent w (create []).2 = [configureCall])
    ∧ ((∃ p k, (create [configured]).1 = Waiting c p k)
       ∧ newlySent w (create [configured]).2 = [configureCall; startupCall])
    ∧ (∀ rest,
         (create (configured :: started :: rest)).1 = Finished (Fulfilled conductor)
         ∧ newlySent w (create (configured :: started :: rest)).2
           = [configureCall; startupCall])
    ∧ (∀ reason rest,
         (create ((c, responseFrame (requestId w) (failure reason)) :: rest)).1
         = Finished (Rejected (error_string reason))
         ∧ newlySent w (create ((c, responseFrame (requestId w) (failure reason))
                                :: rest)).2
           = [configureCall]).
Proof.
  intros this c configureCall startupCall configured started create.
  subst create. unfold createTryCpConductor.
  case_decide as Hstartup.
  - intros arrivals. rewrite exec_Ret. split; [done|apply newlySent_delivers].
  - set (w1 := answered w c (configure_player (conductor_id this)
                 (string_or (options ≫= opt_partialConfig)
                            DEFAULT_PARTIAL_PLAYER_CONFIG)) success_null).
    destruct (answered_spec w c (configure_player (conductor_id this)
                 (string_or (options ≫= opt_partialConfig)
                            DEFAULT_PARTIAL_PLAYER_CONFIG)) success_null)
      as (Hid & Hcond & _ & _ & Hsent).
    fold w1 in Hid, Hcond, Hsent.
    split; [|split; [|split]].
    + unfold configure. cbn [mbind Task_bind bind await].
      rewrite exec_GetConductor, exec_Await_nil.
      split; [by eexists _, _|apply newlySent_clientCall].
    + subst configured.
      rewrite (exec_configure_then _ _ _ _ _ _ _ (Resolve TRYCP_SUCCESS_RESPONSE))
        by done.
      cbn [nullOutcome]. unfold startUp. cbn [mbind Task_bind bind await].
      rewrite exec_GetConductor, exec_Await_nil.
      fold this c w1. rewrite Hcond. fold this c.
      split; [by eexists _, _|].
      apply newlySent_app.
      cbn [fst snd].
      match goal with
      | |- sentIn (trace (clientCall ?w' ?c' ?r).1) = _ =>
          destruct (clientCall_spec w' c' r) as (_ & _ & _ & _ & _ & ->)
      end.
      rewrite Hsent, Hid, <-app_assoc. done.
    + intros rest. subst configured started.
      rewrite (exec_configure_then _ _ _ _ _ _ _ (Resolve TRYCP_SUCCESS_RESPONSE))
        by done.
      cbn [nullOutcome]. fold this c w1.
      rewrite (exec_startUp_then _ _ _ _ _ _ _ (Resolve TRYCP_SUCCESS_RESPONSE))
        by (by rewrite ?Hcond, ?Hid).
      cbn [nullOutcome]. rewrite exec_Ret. rewrite Hcond. fold this.
      split; [done|]. subst w1. apply newlySent_answered2.
    + intros reason rest.
      rewrite (exec_configure_then _ _ _ _ _ _ _ (Reject (error_string reason)))
        by done.
      cbn [nullOutcome]. rewrite exec_Throw.
      split; [done|]. apply newlySent_answered.
Qed.

Ltac run_task := repeat (cbn [mbind Task_bind bind await]; rewrite ?exec_GetConductor).

(** X10. [shutDown] on a conductor with an app interface attached first
    asks the server to disconnect the interface, and sends the shutdown
    command only when that was answered with [null]; when the disconnection
    is rejected, [shutDown] rejects with the same reason and the shutdown
    command is never sent. On a conductor without app interface it sends
    the shutdown command at once. The conductor object records its port as
    before. *)
Theorem shutDown_disconnects_an_attached_app_interface_first (w : World) (h : nat) :
  let this := conductors w h in
  let c := tryCpClient this in
  let down := exec (shutDown h) w in
  let null id := (c, responseFrame id success_null) in
  let shutdownCall id :=
    (c, {| call_id := id; call_request := shutdown (conductor_id this) |}) in
  if attached this
  then
    let disconnectCall :=
      (c, {| call_id := requestId w;
             call_request :=
               disconnect_app_interface (default 0 (appInterfacePort this)) |}) in
    ((∃ p k, (down []).1 = Waiting c p k)
     ∧ newlySent w (down []).2 = [disconnectCall])
    ∧ (∀ rest,
         let run := down (null (requestId w) :: null (js_incr (requestId w)) :: rest) in
         run.1 = Finished (Fulfilled TRYCP_SUCCESS_RESPONSE)
         ∧ newlySent w run.2 = [disconnectCall; shutdownCall (js_incr (requestId w))]
         ∧ appInterfacePort (conductors run.2 h) = appInterfacePort this)
    ∧ (∀ reason rest,
         let run := down ((c, responseFrame (requestId w) (failure reason)) :: rest) in
         run.1 = Finished (Rejected (error_string reason))
         ∧ newlySent w run.2 = [disconnectCall])
  else
    ∀ rest,
      let run := down (null (requestId w) :: rest) in
      run.1 = Finished (Fulfilled TRYCP_SUCCESS_RESPONSE)
      ∧ newlySent w run.2 = [shutdownCall (requestId w)].
Proof.
  intros this c down null shutdownCall. subst down null.
  unfold shutDown. destruct (attached this) eqn:Hattached; cbv iota.
  - unfold attached in Hattached.
    destruct (appInterfacePort this) as [port|] eqn:Hport; [|done].
    destruct (port =? 0) eqn:Hzero; [done|].
    cbv zeta. cbn [default].
    split; [|split].
    + rewrite exec_GetConductor. fold this. unfold attached.
      rewrite Hport, Hzero. cbn [negb].
      unfold disconnectAppInterface. run_task. fold this. rewrite Hport, Hzero.
      run_task. rewrite exec_Await_nil. fold c.
      split; [by eexists _, _|apply newlySent_clientCall].
    + intros rest.
      rewrite exec_GetConductor. fold this. unfold attached.
      rewrite Hport, Hzero. cbn [negb].
      unfold disconnectAppInterface. run_task. fold this. rewrite Hport, Hzero.
      run_task. fold c.
      rewrite (exec_Await_answered _ _ _ _ _ (Resolve TRYCP_SUCCESS_RESPONSE)) by done.
      cbn [bind].
      set (w1 := answered w c (disconnect_app_interface port) success_null).
      destruct (answered_spec w c (disconnect_app_interface port) success_null)
        as (Hid & Hcond & _ & _ & Hsent).
      fold w1 in Hid, Hcond, Hsent. rewrite <-Hid.
      rewrite (exec_Await_answered _ _ _ _ _ (Resolve TRYCP_SUCCESS_RESPONSE)) by done.
      cbn [bind]. rewrite exec_Ret. cbn [fst snd].
      split; [done|]. split.
      * rewrite Hid. subst w1. apply newlySent_answered2.
      * destruct (delivers_preserves rest
                    (answered w1 c (shutdown (conductor_id this)) success_null))
          as (_ & -> & _).
        destruct (answered_spec w1 c (shutdown (conductor_id this)) success_null)
          as (_ & -> & _).
        by rewrite Hcond.
    + intros reason rest.
      rewrite exec_GetConductor. fold this. unfold attached.
      rewrite Hport, Hzero. cbn [negb].
      unfold disconnectAppInterface. run_task. fold this. rewrite Hport, Hzero.
      run_task. fold c.
      rewrite (exec_Await_answered _ _ _ _ _ (Reject (error_string reason))) by done.
      cbn [bind]. rewrite exec_Throw.
      split; [done|apply newlySent_answered].
  - cbv zeta. intros rest.
    rewrite exec_GetConductor. fold this. rewrite Hattached.
    run_task. fold c.
    rewrite (exec_Await_answered _ _ _ _ _ (Resolve TRYCP_SUCCESS_RESPONSE)) by done.
    cbn [bind]. rewrite exec_Ret.
    split; [done|apply newlySent_answered].
Qed.

Lemma stepsEnding_Ended {A B : Type} (ending : A -> World -> Outcome B * World)
    (o : Outcome B) (w : World) (arrivals : list Arrival) :
  stepsEnding ending (Ended o : EndingState A B) w arrivals
  = (Ended o, delivers w arrivals).
Proof.
  revert w. induction arrivals as [|a arrivals IH]; intros w; [done|].
  simpl. apply IH.
Qed.

(** X11. On a conductor that records no app interface port, or the port 0,
    every method that needs the app interface fails at its [assert],
    before anything is sent: calls to the App API, among them zome calls
    that are already signed, [disconnectAppInterface],
    [connectAppInterface], [on] and [off]; the world is left as it was. *)
Theorem app_interface_methods_fail_without_an_attached_port (w : World) (h : nat) :
  attached (conductors w h) = false →
  (∀ message,
     start (callAppApi h message) w
     = (Finished (Rejected (error_object
          (AssertionError "No App interface attached to conductor"))), w))
  ∧ (∀ signed,
       start (callZome h (inr signed)) w
       = (Finished (Rejected (error_object
            (AssertionError "No App interface attached to conductor"))), w))
  ∧ start (disconnectAppInterface h) w
    = (Finished (Rejected (error_object
         (AssertionError "no app interface attached"))), w)
  ∧ (∀ signalHandler arrivals,
       execEnding (connectAppInterface h signalHandler) w arrivals
       = (Ended (Rejected (error_object
            (AssertionError "no app interface attached to conductor"))),
          delivers w arrivals))
  ∧ (∀ signalHandler,
       on w h signalHandler
       = Throws (ThrownError (AssertionError "no app interface attached to conductor")))
  ∧ off w h
    = Throws (ThrownError (AssertionError "no app interface attached to conductor")).
Proof.
  unfold attached. intros Hport.
  assert (appInterfacePort (conductors w h) = None
          ∨ appInterfacePort (conductors w h) = Some 0) as Hcases.
  { destruct (appInterfacePort (conductors w h)) as [port|]; [|by left].
    destruct (decide (port = 0)) as [Hz|Hz]; [right; by f_equal|].
    apply Z.eqb_neq in Hz. by rewrite Hz in Hport. }
  split_and!.
  - intros message. unfold callAppApi. cbn [start].
    by destruct Hcases as [-> | ->].
  - intros signed. unfold callZome, callAppApi.
    cbn [mbind Task_bind bind start]. by destruct Hcases as [-> | ->].
  - unfold disconnectAppInterface. cbn [start]. by destruct Hcases as [-> | ->].
  - intros signalHandler arrivals. unfold execEnding, connectAppInterface.
    cbn [upTo ending start].
    destruct Hcases as [-> | ->]; cbn [Z.eqb start assertion finish];
      apply stepsEnding_Ended.
  - intros signalHandler. unfold on. cbv zeta. by destruct Hcases as [-> | ->].
  - unfold off. cbv zeta. by destruct Hcases as [-> | ->].
Qed.

Lemma app_interface_methods_fail_without_an_attached_port_witness :
  attached (conductors example_world 0%nat) = false
  ∧ start (disconnectAppInterface 0%nat) example_world
    = (Finished (Rejected (error_object
         (AssertionError "no app interface attached"))), example_world)
  ∧ (∀ signalHandler : AppSignalCb,
       on example_world 0%nat signalHandler
       = Throws (ThrownError (AssertionError "no app interface attached to conductor"))).
Proof.
  split; [reflexivity|].
  destruct (app_interface_methods_fail_without_an_attached_port example_world 0%nat
              eq_refl) as (_ & _ & H3 & _ & H5 & _).
  split; [exact H3|exact H5].
Defined.

Lemma exec_callAdminApi_answered {B : Type} (h : nat)
    (message : RequestAdminInterfaceMessage) (g : TryCpApiResponse -> Task B)
    (w : World) (c : nat) (id : Z) (response : TryCpResponse) (s : Settlement)
    (rest : list Arrival) :
  c = tryCpClient (conductors w h) → id = requestId w →
  responseSettlement response = Some s →
  exec (callAdminApi h message ≫= g) w ((c, responseFrame id response) :: rest)
  = exec (apiOutcome s g)
         (answered w c (call_admin_interface (conductor_id (conductors w h)) message)
            response)
         rest.
Proof.
  intros -> -> Hs. unfold callAdminApi. answer s.
  by destruct s as [[| |]|].
Qed.

Lemma exec_callAppApi_answered {B : Type} (h : nat)
    (message : RequestCallAppInterfaceMessage) (g : TryCpApiResponse -> Task B)
    (w : World) (c : nat) (id port : Z) (response : TryCpResponse) (s : Settlement)
    (rest : list Arrival) :
  appInterfacePort (conductors w h) = Some port → port ≠ 0 →
  c = tryCpClient (conductors w h) → id = requestId w →
  responseSettlement response = Some s →
  exec (callAppApi h message ≫= g) w ((c, responseFrame id response) :: rest)
  = exec (apiOutcome s g) (answered w c (call_app_interface port message) response) rest.
Proof.
  intros Hport Hzero -> -> Hs. unfold callAppApi.
  cbn [mbind Task_bind bind]. rewrite exec_GetConductor, Hport.
  apply Z.eqb_neq in Hzero. rewrite Hzero. answer s.
  by destruct s as [[| |]|].
Qed.

(** X12. How a call to the Admin API ends, by the response of the server to
    its request: a success that holds an API response fulfils the call with
    that response, unless its type is ["error"], which rejects the call
    with an [Error] that quotes the data of the response; a success that
    holds [null] or a string fails an [assert] of [callAdminApi]; an error
    of the server rejects the call with the server's reason; a success that
    cannot be deserialized rejects it with the exception of the decoder. In
    each case the only envelope sent is the one of the call. *)
Theorem callAdminApi_ends_as_the_response_says
    (w : World) (h : nat) (message : RequestAdminInterfaceMessage)
    (rest : list Arrival) :
  let c := tryCpClient (conductors w h) in
  let run response :=
    exec (callAdminApi h message) w ((c, responseFrame (requestId w) response) :: rest) in
  let rejected (response : TryCpResponse) (r : TryCpResponseErrorValue) :=
    (run response).1 = Finished (Rejected r)
    ∧ newlySent w (run response).2 = [adminEnvelope w h message] in
  (∀ r, (∀ data_json, r ≠ error_response data_json) →
        (run (success r)).1 = Finished (Fulfilled r)
        ∧ newlySent w (run (success r)).2 = [adminEnvelope w h message])
  ∧ (∀ data_json,
       rejected (success (error_response data_json))
         (error_object (Error ("error response from Admin API" +:+ LF +:+ data_json))))
  ∧ rejected success_null
      (error_object (AssertionError "response !== TRYCP_SUCCESS_RESPONSE"))
  ∧ (∀ s, rejected {| prop0 := Some (serialized_string s); prop1 := None |}
            (error_object (AssertionError "typeof response !== 'string'")))
  ∧ (∀ reason, rejected {| prop0 := None; prop1 := Some reason |} reason)
  ∧ (∀ e, rejected {| prop0 := Some (serialized_bytes (Throws (ThrownError e)));
                      prop1 := None |}
            (error_object e)).
Proof.
  intros c run rejected.
  assert (∀ response s,
            responseSettlement response = Some s →
            run response
            = (Finished match s with
                        | Resolve (response_api r) => Fulfilled r
                        | Resolve TRYCP_SUCCESS_RESPONSE =>
                            Rejected (error_object (AssertionError
                              "response !== TRYCP_SUCCESS_RESPONSE"))
                        | Resolve (response_string _) =>
                            Rejected (error_object (AssertionError
                              "typeof response !== 'string'"))
                        | Reject r => Rejected r
                        end,
               delivers (answered w c
                           (call_admin_interface (conductor_id (conductors w h)) message)
                           response) rest)) as Hrun.
  { intros response s Hs. subst run. cbv beta. unfold callAdminApi. answer s.
    destruct s as [[| |]|]; first [apply exec_Ret | apply exec_Throw]. }
  subst rejected. cbv beta.
  split; [|split; [|split; [|split; [|split]]]]; intros;
    (erewrite Hrun; [|reflexivity]); (split; [|apply newlySent_answered]).
  all: try done.
  destruct r; try done. by destruct (H data_json).
Qed.




(** X14. When the server answers [attachAppInterface] with anything but
    ["app_interface_attached"], the call is rejected and the conductor
    object records the port it recorded before. When the interface was
    attached, calls to the App API are sent to the port that was asked for,
    also when the response names another port. *)
Theorem attachAppInterface_failure_records_nothing
    (w : World) (h : nat) (freePort : Z) (request : option Z) (rest : list Arrival) :
  let this := conductors w h in
  let c := tryCpClient this in
  let port := default freePort request in
  let attach response :=
    exec (attachAppInterface h freePort request) w
         ((c, responseFrame (requestId w) response) :: rest) in
  (∀ reason,
     (attach (failure reason)).1 = Finished (Rejected (error_string reason))
     ∧ conductors (attach (failure reason)).2 = conductors w)
  ∧ (∀ data_json,
       (attach (success (error_response data_json))).1
       = Finished (Rejected (error_object
           (Error ("error response from Admin API" +:+ LF +:+ data_json))))
       ∧ conductors (attach (success (error_response data_json))).2 = conductors w)
  ∧ ((attach (success agent_info_added)).1
     = Finished (Rejected (error_object
         (AssertionError "response.type === 'app_interface_attached'")))
     ∧ conductors (attach (success agent_info_added)).2 = conductors w)
  ∧ (∀ reported message,
       let w' := (attach (success (app_interface_attached reported))).2 in
       (attach (success (app_interface_attached reported))).1
       = Finished (Fulfilled reported)
       ∧ appInterfacePort (conductors w' h) = Some port
       ∧ (port ≠ 0 →
          newlySent w' (exec (callAppApi h message) w' []).2
          = [(c, {| call_id := requestId w';
                    call_request := call_app_interface port message |})])).
Proof.
  intros this c port attach.
  assert (∀ response s,
            responseSettlement response = Some s →
            attach response
            = exec (apiOutcome s (fun response =>
                      match response with
                      | app_interface_attached reported =>
                          SetAppInterfacePort h port (Ret reported)
                      | _ => assertion "response.type === 'app_interface_attached'"
                      end))
                   (answered w c (call_admin_interface (conductor_id this)
                                    (attach_app_interface port)) response) rest)
    as Hrun.
  { intros response s Hs. subst attach. cbv beta. unfold attachAppInterface.
    cbv zeta. by rewrite (exec_callAdminApi_answered _ _ _ _ _ _ _ s). }
  assert (∀ response,
            conductors (delivers (answered w c
                         (call_admin_interface (conductor_id this)
                            (attach_app_interface port)) response) rest)
            = conductors w) as Hcond.
  { intros response. destruct (delivers_preserves rest (answered w c
      (call_admin_interface (conductor_id this) (attach_app_interface port)) response))
      as (_ & -> & _).
    by destruct (answered_spec w c (call_admin_interface (conductor_id this)
                   (attach_app_interface port)) response) as (_ & -> & _). }
  split; [|split; [|split]].
  - intros reason. rewrite (Hrun _ (Reject (error_string reason))) by done.
    cbn [apiOutcome]. rewrite exec_Throw. cbn [fst snd]. by rewrite Hcond.
  - intros data_json.
    rewrite (Hrun _ (Reject (error_object
               (Error ("error response from Admin API" +:+ LF +:+ data_json)))))
      by done.
    cbn [apiOutcome]. rewrite exec_Throw. cbn [fst snd]. by rewrite Hcond.
  - rewrite (Hrun _ (Resolve (response_api agent_info_added))) by done.
    cbn [apiOutcome]. unfold assertion. rewrite exec_Throw. cbn [fst snd]. by rewrite Hcond.
  - intros reported message w'. subst w'.
    rewrite (Hrun _ (Resolve (response_api (app_interface_attached reported))))
      by done.
    cbn [apiOutcome].
    set (w1 := answered w c (call_admin_interface (conductor_id this)
                               (attach_app_interface port))
                 (success (app_interface_attached reported))).
    assert (exec (SetAppInterfacePort h port (Ret reported)) w1 rest
            = (Finished (Fulfilled reported),
               delivers (setAppInterfacePort w1 h port) rest)) as ->.
    { unfold exec. cbn [start]. apply steps_finished. }
    cbn [fst snd].
    destruct (delivers_preserves rest (setAppInterfacePort w1 h port))
      as (_ & Hc & _).
    assert (conductors (delivers (setAppInterfacePort w1 h port) rest) h
            = {| conductor_id := conductor_id this;
                 appInterfacePort := Some port;
                 tryCpClient := c |}) as Hthis.
    { rewrite Hc. cbn [setAppInterfacePort conductors].
      rewrite fn_lookup_insert. subst w1.
      by destruct (answered_spec w c (call_admin_interface (conductor_id this)
                     (attach_app_interface port))
                     (success (app_interface_attached reported))) as (_ & -> & _). }
    split; [done|]. split; [by rewrite Hthis|].
    intros Hzero. unfold callAppApi. rewrite exec_GetConductor, Hthis.
    cbn [appInterfacePort tryCpClient].
    apply Z.eqb_neq in Hzero. rewrite Hzero.
    cbn [mbind Task_bind bind await]. rewrite exec_Await_nil.
    apply newlySent_clientCall.
Qed.

(** * Properties of the signal handlers of a conductor *)

(** A signal that arrives is handed to the handler of its port, if there is
    one. *)
Lemma deliver_signal (w : World) (c : nat) (port : Z) (signal : AppSignal) :
  handledIn (trace (deliver w (c, signalFrame port signal)))
  = handledIn (trace w)
    ++ match handlerAt w c port with
       | Some cb => [(c, cb_id cb, signal)]
       | None => []
       end
  ∧ ∀ c', clients (deliver w (c, signalFrame port signal)) c' = clients w c'.
Proof.
  unfold deliver, handlerAt. cbn [fst snd onMessage handleWrapper signalFrame].
  destruct (signalHandlers (clients w c) !! port) as [[cb|]|] eqn:Hcb;
    cbn [mbind option_bind id]; [destruct (cb_throws cb signal)|..];
    cbn [trace clients]; unfold handledIn; rewrite omap_app; cbn [map omap app fst snd];
    (split; [done|]); intros c';
    (destruct (decide (c' = c)) as [->|Hne];
       [by rewrite fn_lookup_insert|by rewrite fn_lookup_insert_ne]).
Qed.

Lemma clientSetSignalHandler_handlerAt (w : World) (c : nat) (port : Z)
    (signalHandler : option AppSignalCb) (c' : nat) (port' : Z) :
  handlerAt (clientSetSignalHandler w c port signalHandler) c' port'
  = if decide (c' = c ∧ port' = port) then signalHandler else handlerAt w c' port'.
Proof.
  unfold handlerAt, clientSetSignalHandler. cbn [clients].
  case_decide as Hcp.
  - destruct Hcp as [-> ->]. rewrite fn_lookup_insert. cbn [setSignalHandler signalHandlers].
    by rewrite lookup_insert_eq.
  - destruct (decide (c' = c)) as [->|Hne].
    + rewrite fn_lookup_insert. cbn [setSignalHandler signalHandlers].
      rewrite lookup_insert_ne; [done|]. intros ->. by apply Hcp.
    + by rewrite fn_lookup_insert_ne.
Qed.

(** X15. On a conductor with an app interface attached, [on] registers the
    handler for the port of the conductor on its client, so that a signal
    from that port is handed to it, and [off] removes it again, so that a
    signal from that port is dropped; the handlers of the other ports and of
    the other clients stay as they are. *)
Theorem on_and_off_register_and_remove_the_handler_of_the_port
    (w : World) (h : nat) (port : Z) (signalHandler : AppSignalCb)
    (signal : AppSignal) :
  appInterfacePort (conductors w h) = Some port → port ≠ 0 →
  let c := tryCpClient (conductors w h) in
  ∃ w1 w2,
    on w h signalHandler = Returns w1
    ∧ off w1 h = Returns w2
    ∧ handledIn (trace (deliver w1 (c, signalFrame port signal)))
      = handledIn (trace w) ++ [(c, cb_id signalHandler, signal)]
    ∧ handledIn (trace (deliver w2 (c, signalFrame port signal))) = handledIn (trace w)
    ∧ ∀ c' port', ¬ (c' = c ∧ port' = port) →
        handlerAt w1 c' port' = handlerAt w c' port'
        ∧ handlerAt w2 c' port' = handlerAt w c' port'.
Proof.
  intros Hport Hzero c. apply Z.eqb_neq in Hzero.
  exists (clientSetSignalHandler w c port (Some signalHandler)),
         (clientSetSignalHandler (clientSetSignalHandler w c port (Some signalHandler))
            c port None).
  split_and!.
  - unfold on. cbv zeta. by rewrite Hport, Hzero.
  - unfold off. cbv zeta. cbn [clientSetSignalHandler conductors].
    by rewrite Hport, Hzero.
  - destruct (deliver_signal (clientSetSignalHandler w c port (Some signalHandler))
                c port signal) as [-> _].
    rewrite clientSetSignalHandler_handlerAt. by rewrite decide_True.
  - destruct (deliver_signal
                (clientSetSignalHandler
                   (clientSetSignalHandler w c port (Some signalHandler)) c port None)
                c port signal) as [-> _].
    rewrite clientSetSignalHandler_handlerAt. rewrite decide_True by done.
    by rewrite app_nil_r.
  - intros c' port' Hne.
    rewrite !clientSetSignalHandler_handlerAt. by rewrite !decide_False.
Qed.

Lemma on_and_off_register_and_remove_the_handler_of_the_port_witness :
  ∃ w1 w2,
    on example_world_attached 0%nat (example_handler 7) = Returns w1
    ∧ off w1 0%nat = Returns w2
    ∧ handledIn (trace (deliver w1 (0%nat, signalFrame 30000 example_signal)))
      = [(0%nat, 7%nat, example_signal)]
    ∧ handledIn (trace (deliver w2 (0%nat, signalFrame 30000 example_signal))) = [].
Proof.
  destruct (on_and_off_register_and_remove_the_handler_of_the_port
              example_world_attached 0%nat 30000 (example_handler 7) example_signal
              eq_refl ltac:(done)) as (w1 & w2 & Hon & Hoff & H1 & H2 & _).
  exists w1, w2. split; [exact Hon|]. split; [exact Hoff|].
  split; [exact H1|exact H2].
Defined.

Lemma handlerAt_clientCall (w : World) (c : nat) (request : TryCpRequest)
    (c' : nat) (port : Z) :
  handlerAt (clientCall w c request).1 c' port = handlerAt w c' port.
Proof.
  unfold handlerAt, clientCall. cbn [call fst snd clients].
  destruct (decide (c' = c)) as [->|Hne].
  - by rewrite fn_lookup_insert.
  - by rewrite fn_lookup_insert_ne.
Qed.

Lemma handlerAt_deliver (w : World) (a : Arrival) (c' : nat) (port : Z) :
  handlerAt (deliver w a) c' port = handlerAt w c' port.
Proof.
  unfold handlerAt. rewrite deliver_clients. case_decide as Hc; [|done].
  pose proof (onMessage_only_removes (clients w c') a.2) as H.
  destruct (onMessage (clients w c') a.2) as [this' done].
  cbn [fst]. destruct H as (-> & _). done.
Qed.

Lemma handlerAt_delivers (arrivals : list Arrival) (w : World) (c' : nat) (port : Z) :
  handlerAt (delivers w arrivals) c' port = handlerAt w c' port.
Proof.
  revert w. induction arrivals as [|a arrivals IH]; intros w; [done|].
  simpl. rewrite IH. apply handlerAt_deliver.
Qed.

Lemma handlerAt_answered (w : World) (c : nat) (request : TryCpRequest)
    (response : TryCpResponse) (c' : nat) (port : Z) :
  handlerAt (answered w c request response) c' port = handlerAt w c' port.
Proof. unfold answered. by rewrite handlerAt_deliver, handlerAt_clientCall. Qed.




(** X17. A handler is registered under the port the conductor records when
    [on] is called. When another port is attached afterwards, [off]
    removes the handler of that new port: the handler registered under the
    first port stays on the client. *)
Theorem off_after_another_attach_leaves_the_first_handler
    (w : World) (h : nat) (port port' freePort reported : Z)
    (signalHandler : AppSignalCb) :
  appInterfacePort (conductors w h) = Some port → port ≠ 0 →
  port' ≠ 0 → port' ≠ port →
  let c := tryCpClient (conductors w h) in
  ∃ w1 w3,
    on w h signalHandler = Returns w1
    ∧ (let attach :=
         exec (attachAppInterface h freePort (Some port')) w1
           [(c, responseFrame (requestId w1) (success (app_interface_attached reported)))]
       in
       attach.1 = Finished (Fulfilled reported)
       ∧ off attach.2 h = Returns w3)
    ∧ handlerAt w3 c port = Some signalHandler
    ∧ handlerAt w3 c port' = None.
Proof.
  intros Hport Hzero Hzero' Hne c.
  apply Z.eqb_neq in Hzero, Hzero'.
  set (w1 := clientSetSignalHandler w c port (Some signalHandler)).
  set (w2 := answered w1 c (call_admin_interface (conductor_id (conductors w h))
                              (attach_app_interface port'))
               (success (app_interface_attached reported))).
  assert (exec (attachAppInterface h freePort (Some port')) w1
            [(c, responseFrame (requestId w1)
                   (success (app_interface_attached reported)))]
          = (Finished (Fulfilled reported), setAppInterfacePort w2 h port')) as Hattach.
  { unfold attachAppInterface. cbv zeta. cbn [default].
    rewrite (exec_callAdminApi_answered _ _ _ _ _ _ _
               (Resolve (response_api (app_interface_attached reported)))) by done.
    cbn [apiOutcome]. unfold exec. cbn [start steps]. done. }
  exists w1, (clientSetSignalHandler (setAppInterfacePort w2 h port') c port' None).
  split_and!.
  - unfold on. cbv zeta. by rewrite Hport, Hzero.
  - rewrite Hattach. cbn [fst snd]. split; [done|].
    unfold off. cbv zeta. cbn [setAppInterfacePort conductors].
    rewrite fn_lookup_insert. cbn [appInterfacePort tryCpClient]. rewrite Hzero'.
    subst w2.
    destruct (answered_spec w1 c (call_admin_interface (conductor_id (conductors w h))
                (attach_app_interface port'))
                (success (app_interface_attached reported))) as (_ & -> & _).
    done.
  - rewrite clientSetSignalHandler_handlerAt.
    rewrite decide_False by (intros [_ ?]; congruence).
    unfold handlerAt. cbn [setAppInterfacePort clients].
    fold (handlerAt w2 c port). subst w2. rewrite handlerAt_answered. subst w1.
    rewrite clientSetSignalHandler_handlerAt. by rewrite decide_True.
  - rewrite clientSetSignalHandler_handlerAt. by rewrite decide_True.
Qed.

Lemma off_after_another_attach_leaves_the_first_handler_witness :
  ∃ w1 w3,
    on example_world_attached 0%nat (example_handler 7) = Returns w1
    ∧ off (exec (attachAppInterface 0%nat 31000 (Some 30001)) w1
             [(0%nat, responseFrame 0 (success (app_interface_attached 30001)))]).2
          0%nat = Returns w3
    ∧ handlerAt w3 0%nat 30000 = Some (example_handler 7).
Proof.
  destruct (off_after_another_attach_leaves_the_first_handler
              example_world_attached 0%nat 30000 30001 31000 30001 (example_handler 7)
              eq_refl ltac:(done) ltac:(done) ltac:(done))
    as (w1 & w3 & Hon & [_ Hoff] & Hhandler & _).
  exists w1, w3. split; [exact Hon|]. split; [|exact Hhandler].
  assert (requestId w1 = 0) as Hid.
  { unfold on in Hon. simpl in Hon. by injection Hon as <-. }
  rewrite Hid in Hoff. exact Hoff.
Defined.

(** * Installing apps for several agents *)









(** X19. [installAgentsApps] goes from one app to the next only when the
    app before is installed and enabled: when the server rejects the
    install request of the first app, the function rejects with the
    server's reason, and the install request of the first app is all that
    was sent. Without apps it resolves to the empty array and sends
    nothing. *)
Theorem installAgentsApps_stops_at_the_first_failure
    (h : nat) (uuidv4 : nat -> string) (options : AgentsAppsOptions) (w : World)
    (rest : list Arrival) :
  match agentsApps options with
  | [] =>
      (exec (installAgentsApps h uuidv4 options) w rest).1 = Finished (Fulfilled [])
      ∧ newlySent w (exec (installAgentsApps h uuidv4 options) w rest).2 = []
  | first :: _ =>
      ∀ key reason,
        app_agentPubKey first = Some key →
        let run :=
          exec (installAgentsApps h uuidv4 options) w
               ((tryCpClient (conductors w h),
                 responseFrame (requestId w) (failure reason)) :: rest) in
        run.1 = Finished (Rejected (error_string reason))
        ∧ newlySent w run.2
          = [adminEnvelope w h
               (install_app (installRequestFor uuidv4 options 0 first key))]
  end.
Proof.
  unfold installAgentsApps.
  destruct (agentsApps options) as [|first more]; cbv iota zeta.
  - cbn [installAgentsApps_loop]. rewrite exec_Ret.
    split; [done|apply newlySent_delivers].
  - intros key reason Hkey.
    cbn [installAgentsApps_loop]. rewrite Hkey.
    unfold adminWs_installApp, callAdminApi.
    answer (Reject (error_string reason)).
    rewrite exec_Throw. split; [done|apply newlySent_answered].
Qed.

(** ** Installing one app *)

(** X20. [installApp] goes from one command to the next only when the
    command before has succeeded. When the options name no agent key and
    the server rejects the request for a new key, [installApp] rejects with
    the server's reason and no install command is sent; when the server
    rejects the install command, which carries the key of the options or
    else the key the server generated, [installApp] rejects with that
    reason and no enable command is sent. *)
Theorem installApp_stops_at_the_first_command_that_fails
    (w : World) (h : nat) (uuid : string) (appBundleSource : string + string)
    (options : option AppOptions) (reason : string) (rest : list Arrival) :
  let this := conductors w h in
  let c := tryCpClient this in
  let install := exec (installApp h uuid appBundleSource options) w in
  let rejected id := (c, responseFrame id (failure reason)) in
  match options ≫= opt_agentPubKey with
  | Some key =>
      (install (rejected (requestId w) :: rest)).1
      = Finished (Rejected (error_string reason))
      ∧ newlySent w (install (rejected (requestId w) :: rest)).2
        = [adminEnvelope w h
             (install_app (installAppRequestOf uuid appBundleSource options key))]
  | None =>
      ((install (rejected (requestId w) :: rest)).1
       = Finished (Rejected (error_string reason))
       ∧ newlySent w (install (rejected (requestId w) :: rest)).2
         = [adminEnvelope w h generate_agent_pub_key])
      ∧ ∀ key,
          let generated :=
            (c, responseFrame (requestId w)
                  (success (bytes_response "agent_pub_key_generated" key))) in
          let run := install (generated :: rejected (js_incr (requestId w)) :: rest) in
          run.1 = Finished (Rejected (error_string reason))
          ∧ newlySent w run.2
            = [adminEnvelope w h generate_agent_pub_key;
               (c, {| call_id := js_incr (requestId w);
                      call_request :=
                        call_admin_interface (conductor_id this)
                          (install_app (installAppRequestOf uuid appBundleSource
                                          options key)) |})]
  end.
Proof.
  intros this c install rejected. subst install rejected. unfold installApp.
  destruct (options ≫= opt_agentPubKey) as [key|]; cbv iota zeta.
  - unfold adminWs_installApp, callAdminApi.
    answer (Reject (error_string reason)).
    rewrite exec_Throw. split; [done|apply newlySent_answered].
  - split.
    + unfold generateAgentPubKey, callAdminApi.
      answer (Reject (error_string reason)).
      rewrite exec_Throw. split; [done|apply newlySent_answered].
    + intros key.
      unfold generateAgentPubKey at 1 2, callAdminApi at 1 2.
      answer (Resolve (response_api (bytes_response "agent_pub_key_generated" key))).
      set (w1 := answered w (tryCpClient (conductors w h))
                   (call_admin_interface (conductor_id (conductors w h))
                      generate_agent_pub_key)
                   (success (bytes_response "agent_pub_key_generated" key))).
      destruct (answered_spec w (tryCpClient (conductors w h))
                  (call_admin_interface (conductor_id (conductors w h))
                     generate_agent_pub_key)
                  (success (bytes_response "agent_pub_key_generated" key)))
        as (Hid & Hcond & _).
      fold w1 in Hid, Hcond.
      unfold adminWs_installApp, callAdminApi.
      cbn [mbind Task_bind bind await]. rewrite !exec_GetConductor.
      rewrite Hcond, <-Hid.
      rewrite !(exec_Await_answered _ _ _ _ _ (Reject (error_string reason))) by done.
      cbn [mbind Task_bind bind]. rewrite exec_Throw.
      split; [done|]. rewrite Hid. subst w1. apply newlySent_answered2.
Qed.

(** * Properties of the common helpers *)

Lemma Map_get_set (key key' : RoleName) (value : CallableCell)
    (m : list (RoleName * CallableCell)) :
  Map_get key' (Map_set key value m)
  = if String.eqb key key' then Some value else Map_get key' m.
Proof.
  induction m as [|[k v] m IH]; cbn [Map_set Map_get].
  - by destruct (String.eqb key key').
  - destruct (String.eqb_spec k key) as [->|Hne]; cbn [Map_get].
    + by destruct (String.eqb key key').
    + rewrite IH. destruct (String.eqb_spec k key') as [->|Hne'];
        destruct (String.eqb_spec key key') as [->|Hne'']; done.
Qed.

Lemma Map_set_keys (key : RoleName) (value : CallableCell)
    (m : list (RoleName * CallableCell)) :
  (Map_set key value m).*1 = if decide (key ∈ m.*1) then m.*1 else m.*1 ++ [key].
Proof.
  induction m as [|[k v] m IH]; cbn [Map_set fmap list_fmap fst].
  - rewrite decide_False; [done|]. apply not_elem_of_nil.
  - destruct (String.eqb_spec k key) as [->|Hne].
    + rewrite decide_True; [done|]. apply list_elem_of_here.
    + cbn [fmap list_fmap fst]. fold (m.*1). fold ((Map_set key value m).*1).
      rewrite IH.
      destruct (decide (key ∈ m.*1)) as [Hin|Hin].
      * rewrite decide_True; [done|]. by apply list_elem_of_further.
      * rewrite decide_False; [done|]. intros [?|?]%elem_of_cons; congruence.
Qed.

Lemma Map_set_NoDup (key : RoleName) (value : CallableCell)
    (m : list (RoleName * CallableCell)) :
  NoDup m.*1 → NoDup (Map_set key value m).*1.
Proof.
  intros Hm. rewrite Map_set_keys. case_decide as Hin; [done|].
  apply NoDup_app. split_and!; [done| |apply NoDup_singleton].
  intros x Hx Hx'. apply list_elem_of_singleton in Hx'. by subst.
Qed.

Lemma lastNamed_snoc (key : RoleName) declared name c :
  lastNamed key (declared ++ [(name, c)])
  = if String.eqb name key then Some c else lastNamed key declared.
Proof.
  unfold lastNamed. rewrite omap_app. cbn [omap list_omap fst snd].
  destruct (String.eqb name key).
  - by rewrite last_snoc.
  - by rewrite app_nil_r.
Qed.

Lemma addCell_collected (conductor : nat) (key : AgentPubKey) (role_name : RoleName)
    (cellInfo : CellInfo) declared cells named :
  collected conductor key declared cells named →
  match namedCell role_name cellInfo with
  | Some nc =>
      if callable cellInfo
      then ∃ cells' named',
             addCell conductor key role_name (Fulfilled (cells, named)) cellInfo
             = Fulfilled (cells', named')
             ∧ collected conductor key (declared ++ [nc]) cells' named'
      else addCell conductor key role_name (Fulfilled (cells, named)) cellInfo
           = Rejected (error_object (Error "Stem cells are not implemented"))
  | None =>
      addCell conductor key role_name (Fulfilled (cells, named)) cellInfo
      = Rejected (error_object (Error "Stem cells are not implemented"))
  end.
Proof.
  intros (Hcells & Hnodup & Hget).
  assert (∀ name c,
            collected conductor key (declared ++ [(name, c)])
              (cells ++ [getCallableCell conductor c key])
              (Map_set name (getCallableCell conductor c key) named)) as Hnext.
  { intros name c. split_and!.
    - by rewrite fmap_app, Hcells.
    - by apply Map_set_NoDup.
    - intros name'. rewrite Map_get_set, lastNamed_snoc, Hget.
      by destruct (String.eqb name name'). }
  destruct cellInfo as [c|c|name]; cbn [namedCell callable addCell].
  - eexists _, _. split; [done|apply Hnext].
  - destruct (String.eqb (clone_id c) EmptyString); cbn [negb]; [done|].
    eexists _, _. split; [done|apply Hnext].
  - done.
Qed.

Lemma addCell_Rejected (conductor : nat) (key : AgentPubKey) (role_name : RoleName)
    (infos : list CellInfo) (r : TryCpResponseErrorValue) :
  fold_left (addCell conductor key role_name) infos (Rejected r) = Rejected r.
Proof. induction infos as [|info infos IH]; [done|]. exact IH. Qed.

(** The inner loop of [enableAndGetAgentApp], in closed form. *)
Lemma addCell_fold_collected (conductor : nat) (key : AgentPubKey)
    (role_name : RoleName) (infos : list CellInfo) :
  ∀ declared cells named,
    collected conductor key declared cells named →
    if forallb callable infos
    then ∃ cells' named',
           fold_left (addCell conductor key role_name) infos (Fulfilled (cells, named))
           = Fulfilled (cells', named')
           ∧ collected conductor key (declared ++ omap (namedCell role_name) infos)
               cells' named'
    else fold_left (addCell conductor key role_name) infos (Fulfilled (cells, named))
         = Rejected (error_object (Error "Stem cells are not implemented")).
Proof.
  induction infos as [|info infos IH]; intros declared cells named Hcollected.
  - cbn [forallb fold_left omap list_omap]. rewrite app_nil_r. by eexists _, _.
  - cbn [forallb fold_left].
    pose proof (addCell_collected conductor key role_name info _ _ _ Hcollected) as Hstep.
    destruct (callable info) eqn:Hcallable; cbn [andb].
    + destruct (namedCell role_name info) as [nc|] eqn:Hnc; [|by destruct info].
      destruct Hstep as (cells1 & named1 & -> & Hcollected1).
      specialize (IH _ _ _ Hcollected1).
      destruct (forallb callable infos); [|done].
      destruct IH as (cells' & named' & -> & Hcollected').
      exists cells', named'. split; [done|].
      cbn [omap list_omap]. rewrite Hnc. by rewrite <-app_assoc in Hcollected'.
    + assert (addCell conductor key role_name (Fulfilled (cells, named)) info
              = Rejected (error_object (Error "Stem cells are not implemented")))
        as -> by (by destruct (namedCell role_name info)).
      apply addCell_Rejected.
Qed.

(** The two loops of [enableAndGetAgentApp], in closed form. *)
Lemma collectCells_collected (conductor : nat) (key : AgentPubKey)
    (cell_info : list (RoleName * list CellInfo)) :
  if forallb callable (flat_map snd cell_info)
  then ∃ cells named,
         collectCells conductor key cell_info = Fulfilled (cells, named)
         ∧ collected conductor key (declaredNames cell_info) cells named
  else collectCells conductor key cell_info
       = Rejected (error_object (Error "Stem cells are not implemented")).
Proof.
  unfold collectCells, declaredNames.
  assert (∀ declared cells named,
    collected conductor key declared cells named →
    if forallb callable (flat_map snd cell_info)
    then ∃ cells' named',
           fold_left (fun acc entry =>
                        fold_left (addCell conductor key entry.1) entry.2 acc)
             cell_info (Fulfilled (cells, named))
           = Fulfilled (cells', named')
           ∧ collected conductor key
               (declared ++ flat_map (fun entry => omap (namedCell entry.1) entry.2)
                              cell_info)
               cells' named'
    else fold_left (fun acc entry =>
                      fold_left (addCell conductor key entry.1) entry.2 acc)
           cell_info (Fulfilled (cells, named))
         = Rejected (error_object (Error "Stem cells are not implemented"))) as Hgen.
  { induction cell_info as [|[role infos] cell_info IH];
      intros declared cells named Hcollected.
    - cbn [flat_map forallb fold_left]. rewrite app_nil_r. by eexists _, _.
    - cbn [flat_map fold_left fst snd]. rewrite forallb_app.
      pose proof (addCell_fold_collected conductor key role infos _ _ _ Hcollected)
        as Hinner.
      destruct (forallb callable infos); cbn [andb].
      + destruct Hinner as (cells1 & named1 & -> & Hcollected1).
        specialize (IH _ _ _ Hcollected1).
        destruct (forallb callable (flat_map snd cell_info)); [|done].
        destruct IH as (cells' & named' & -> & Hcollected').
        exists cells', named'. split; [done|]. by rewrite <-app_assoc in Hcollected'.
      + rewrite Hinner. clear.
        induction cell_info as [|[role' infos'] cell_info IH]; [done|].
        cbn [fold_left fst snd]. by rewrite addCell_Rejected. }
  apply (Hgen [] [] []). split_and!; [done|constructor|done].
Qed.

Lemma Map_get_elem_of (name : RoleName) (value : CallableCell)
    (m : list (RoleName * CallableCell)) :
  Map_get name m = Some value → (name, value) ∈ m.
Proof.
  induction m as [|[k v] m IH]; cbn [Map_get]; [done|].
  destruct (String.eqb_spec k name) as [->|Hne].
  - intros [= ->]. apply list_elem_of_here.
  - intros H. apply list_elem_of_further. by apply IH.
Qed.

Lemma elem_of_Map_get (name : RoleName) (value : CallableCell)
    (m : list (RoleName * CallableCell)) :
  NoDup m.*1 → (name, value) ∈ m → Map_get name m = Some value.
Proof.
  induction m as [|[k v] m IH]; cbn [Map_get fmap list_fmap fst].
  - intros _ H. by apply elem_of_nil in H.
  - intros [Hk Hm]%NoDup_cons [Heq|Hin]%elem_of_cons.
    + injection Heq as <- <-. by rewrite String.eqb_refl.
    + destruct (String.eqb_spec k name) as [->|Hne]; [|by apply IH].
      destruct Hk. apply list_elem_of_fmap. by exists (name, value).
Qed.

(** X21. [namedCells] has one entry per name; the entry of a name holds
    the callable cell of the cell that was declared last under that name,
    where a provisioned cell is declared under its role name and a cloned
    cell under its clone id; and every named cell is one of [cells]. *)
Theorem namedCells_hold_the_last_cell_declared_under_each_name
    (conductor : nat) (key : AgentPubKey) (cell_info : list (RoleName * list CellInfo))
    (cells : list CallableCell) (named : list (RoleName * CallableCell)) :
  collectCells conductor key cell_info = Fulfilled (cells, named) →
  NoDup named.*1
  ∧ (∀ name, Map_get name named
             = (fun c => getCallableCell conductor c key)
                 <$> lastNamed name (declaredNames cell_info))
  ∧ (∀ name callableCell,
       (name, callableCell) ∈ named ↔ Map_get name named = Some callableCell)
  ∧ (∀ name callableCell, (name, callableCell) ∈ named → callableCell ∈ cells).
Proof.
  intros Hrun.
  pose proof (collectCells_collected conductor key cell_info) as H.
  destruct (forallb callable _); [|congruence].
  destruct H as (cells' & named' & Hrun' & Hcells & Hnodup & Hget).
  rewrite Hrun in Hrun'. injection Hrun' as <- <-.
  split_and!; try done.
  - intros name callableCell. split.
    + by apply elem_of_Map_get.
    + apply Map_get_elem_of.
  - intros name callableCell Hin.
    apply elem_of_Map_get in Hin; [|done]. rewrite Hget in Hin.
    apply fmap_Some in Hin as (c & Hlast & ->).
    unfold lastNamed in Hlast. apply last_Some in Hlast as [l' Hl'].
    assert (c ∈ omap (fun nc : RoleName * (ProvisionedCell + ClonedCell) =>
                        if String.eqb nc.1 name then Some nc.2 else None)
                     (declaredNames cell_info)) as Hc.
    { rewrite Hl'. apply elem_of_app. right. apply list_elem_of_here. }
    apply list_elem_of_omap in Hc as ([name' c'] & Hdeclared & Hsome).
    cbn [fst snd] in Hsome. destruct (String.eqb name' name); [|done].
    injection Hsome as ->. rewrite Hcells.
    apply list_elem_of_fmap. by exists (name', c).
Qed.

Lemma namedCells_hold_the_last_cell_declared_under_each_name_witness :
  ∃ cells named,
    collectCells 0%nat [Byte.x02] example_cell_info = Fulfilled (cells, named)
    ∧ length cells = 3%nat
    ∧ named.*1 = ["role"; "role.0"]
    ∧ cell <$> Map_get "role" named
      = Some (inl {| prov_cell_id := ([Byte.x03], [Byte.x02]); prov_name := "second" |}).
Proof.
  eexists _, _. split; [reflexivity|]. split; [reflexivity|]. split; [reflexivity|].
  edestruct (namedCells_hold_the_last_cell_declared_under_each_name
               0%nat [Byte.x02] example_cell_info) as (_ & Hget & _); [reflexivity|].
  rewrite (Hget "role"). reflexivity.
Defined.

(** X22. [enableAndGetAgentApp] always sends the enable command first. When
    the server reports errors for the app, it rejects with ["failed to
    enable app: "] followed by the errors; when the app declares a cell
    that is neither provisioned nor a clone with a clone id, it rejects
    with ["Stem cells are not implemented"], the app being enabled on the
    server all the same; otherwise it resolves to an app with one callable
    cell per declared cell. *)
Theorem enableAndGetAgentApp_rejects_after_enabling
    (w : World) (h : nat) (key : AgentPubKey) (info : AppInfo)
    (response : EnableAppResponse) (rest : list Arrival) :
  let c := tryCpClient (conductors w h) in
  let run :=
    exec (enableAndGetAgentApp h key info) w
         ((c, responseFrame (requestId w) (success (app_enabled response))) :: rest) in
  newlySent w run.2 = [adminEnvelope w h (enable_app (installed_app_id info))]
  ∧ match errors response with
    | _ :: _ =>
        run.1 = Finished (Rejected (error_object (Error
                  ("failed to enable app: " +:+ errors_toString (errors response)))))
    | [] =>
        if forallb callable (declaredCells info)
        then ∃ app, run.1 = Finished (Fulfilled app)
                    ∧ appId app = installed_app_id info
                    ∧ agentPubKey app = key
                    ∧ cell <$> cells app = snd <$> declaredNames (cell_info info)
                    ∧ length (cells app) = length (declaredCells info)
        else run.1 = Finished (Rejected (error_object
                       (Error "Stem cells are not implemented")))
    end.
Proof.
  intros c run.
  assert (run
          = exec match errors response with
                 | _ :: _ =>
                     Throw (error_object (Error
                       ("failed to enable app: " +:+ errors_toString (errors response))))
                 | [] =>
                     match collectCells h key (cell_info info) with
                     | Rejected r => Throw r
                     | Fulfilled (cells, namedCells) =>
                         Ret {| appId := installed_app_id info;
                                agentPubKey := key;
                                cells := cells;
                                namedCells := namedCells |}
                     end
                 end
              (answered w c (call_admin_interface (conductor_id (conductors w h))
                               (enable_app (installed_app_id info)))
                 (success (app_enabled response))) rest) as Hrun.
  { subst run. unfold enableAndGetAgentApp, enableApp, callAdminApi.
    answer (Resolve (response_api (app_enabled response))). done. }
  assert (∀ (o : Outcome AgentApp) (t : Task AgentApp),
            (t = match o with Fulfilled a => Ret a | Rejected r => Throw r end) →
            run = exec t (answered w c
                            (call_admin_interface (conductor_id (conductors w h))
                               (enable_app (installed_app_id info)))
                            (success (app_enabled response))) rest →
            run.1 = Finished o
            ∧ newlySent w run.2
              = [adminEnvelope w h (enable_app (installed_app_id info))]) as Hend.
  { intros o t -> ->. destruct o; rewrite ?exec_Ret, ?exec_Throw;
      (split; [done|apply newlySent_answered]). }
  clearbody run.
  destruct (errors response) as [|e es].
  - pose proof (collectCells_collected h key (cell_info info)) as Hcells.
    unfold declaredCells.
    destruct (forallb callable (flat_map snd (cell_info info))) eqn:Hcallable.
    + destruct Hcells as (cs & named & Hcells & Hcollected & _).
      rewrite Hcells in Hrun.
      destruct (Hend (Fulfilled _) _ eq_refl Hrun) as [H1 H2].
      split; [done|]. eexists. split; [exact H1|].
      cbn [appId agentPubKey cells].
      assert (cell <$> cs = (declaredNames (cell_info info)).*2) as Hcell.
      { rewrite Hcollected, <-list_fmap_compose. by apply list_fmap_ext. }
      split_and!; try done.
      rewrite <-(length_fmap cell), Hcell, length_fmap. unfold declaredNames.
      clear -Hcallable.
      induction (cell_info info) as [|[role infos] l IH]; [done|].
      cbn [flat_map fst snd] in *. rewrite forallb_app in Hcallable.
      apply andb_prop in Hcallable as [Hinfos Hl].
      rewrite !length_app, IH by done. f_equal.
      clear -Hinfos. induction infos as [|info infos IH]; [done|].
      cbn [forallb] in Hinfos. apply andb_prop in Hinfos as [Hinfo Hinfos].
      cbn [omap list_omap]. destruct info; try done; cbn [namedCell length];
        by rewrite IH.
    + rewrite Hcells in Hrun.
      destruct (Hend (Rejected _) _ eq_refl Hrun) as [H1 H2]. done.
  - destruct (Hend (Rejected _) _ eq_refl Hrun) as [H1 H2]. done.
Qed.


